(** * A shallow embedding of the recursive-descent parser (Parser.cpp, AST.h)

    The parser is a set of mutually recursive C++ member functions that read a
    token cursor [Tok], build heap-allocated AST nodes and signal failure with
    [nullptr].  Here each routine is a function from a parser state to a
    result: the node (or [None] for [nullptr]) together with the state the
    routine leaves behind.  Recursion on the token stream is not structural,
    so every routine takes a recursion budget and answers [OutOfFuel] when the
    budget is spent; [OutOfFuel] is kept apart from the absent-node signal. *)

From Stdlib Require Import List String Bool Arith ZArith Lia.
Import ListNotations.
Open Scope string_scope.
Open Scope list_scope.

(** ** Tokens *)

Module Token.

(** The kinds of token named by Parser.cpp ([Token::eoi], [Token::KW_int],
    ...).  The literals written [Token::true] and [Token::false] in the
    source are [true_] and [false_] here, and [Token::mod] is [mod_]. *)
Inductive TokenKind : Type :=
| eoi | ident | number
| KW_int | KW_bool | KW_if | KW_elif | KW_else | KW_while | KW_for
| KW_print | KW_begin | KW_end | KW_loopc | KW_and | KW_or
| true_ | false_
| plus | minus | star | slash | mod_ | exp
| plus_plus | minus_minus
| assign | plus_assign | minus_assign | star_assign | slash_assign
| eq | neq | gt | lt | gte | lte
| l_paren | r_paren | comma | semicolon | colon.

Definition kind_eq_dec (a b : TokenKind) : {a = b} + {a <> b}.
Proof. decide equality. Defined.

Definition kind_eqb (a b : TokenKind) : bool :=
  if kind_eq_dec a b then true else false.

Record t : Type := mk { Kind : TokenKind; Text : string }.

End Token.

Abbreviation Token := Token.t.
Abbreviation TokenKind := Token.TokenKind.

(** ** Parser state

    Modelled from the spec: Parser.h and the lexer are not part of the
    sources.  Following the token-source contract, the token source is a
    cursor over a finite token sequence; the member [Tok] is that cursor (the
    current token is the head of [Tok], and past the last token the current
    token is the end-of-input sentinel), so the source's [Tok = prev_token]
    restores the cursor to the snapshot.  [error()] reports one diagnostic,
    counted in [Diags].  [haveElse] is the file-level flag of Parser.cpp. *)
Record Parser : Type := mkParser {
  Tok : list Token;
  haveElse : bool;
  Diags : nat
}.

Definition getKind (P : Parser) : TokenKind :=
  match Tok P with
  | [] => Token.eoi
  | t :: _ => Token.Kind t
  end.

Definition getText (P : Parser) : string :=
  match Tok P with
  | [] => ""
  | t :: _ => Token.Text t
  end.

(** [Tok.is(K)] *)
Definition Tok_is (P : Parser) (K : TokenKind) : bool :=
  Token.kind_eqb (getKind P) K.

(** [Tok.isOneOf(K1, K2, ...)] *)
Definition Tok_isOneOf (P : Parser) (Ks : list TokenKind) : bool :=
  existsb (Tok_is P) Ks.

Definition setTok (P : Parser) (ts : list Token) : Parser :=
  mkParser ts (haveElse P) (Diags P).

Definition setHaveElse (P : Parser) (b : bool) : Parser :=
  mkParser (Tok P) b (Diags P).

(** Modelled from the spec: [advance()] moves the cursor to the next token;
    once the end-of-input sentinel is current it stays current. *)
Definition advance (P : Parser) : Parser :=
  match Tok P with
  | [] => P
  | t :: rest => if Tok_is P Token.eoi then P else setTok P rest
  end.

(** Modelled from the spec: [error()] reports one diagnostic. *)
Definition error (P : Parser) : Parser :=
  mkParser (Tok P) (haveElse P) (S (Diags P)).

(** Modelled from the spec: [expect(K)] answers [true] and reports a
    diagnostic when the current token is not of kind [K], and answers
    [false] otherwise (the callers write [if (expect(K)) goto _error]). *)
Definition expect (P : Parser) (K : TokenKind) : bool * Parser :=
  if Tok_is P K then (false, P) else (true, error P).

(** Modelled from the spec: [consume(K)] is [expect(K)] followed by
    [advance()] when the token matched. *)
Definition consume (P : Parser) (K : TokenKind) : bool * Parser :=
  let (bad, P1) := expect P K in
  if bad then (true, P1) else (false, advance P1).

(** The loop [while (Tok.getKind() != Token::eoi) advance();] found under
    every [_error] label. *)
Fixpoint skip_tokens (ts : list Token) : list Token :=
  match ts with
  | [] => []
  | t :: rest =>
    if Token.kind_eqb (Token.Kind t) Token.eoi then ts else skip_tokens rest
  end.

Definition skip_to_eoi (P : Parser) : Parser := setTok P (skip_tokens (Tok P)).

(** ** Results *)

Inductive result (A : Type) : Type :=
| OutOfFuel : result A
| Ret : A -> Parser -> result A.
Arguments OutOfFuel {A}.
Arguments Ret {A} _ _.

(** [_error: while (Tok.getKind() != Token::eoi) advance(); return nullptr;] *)
Definition panic {A : Type} (P : Parser) : result (option A) :=
  Ret None (skip_to_eoi P).

(** ** AST nodes (AST.h) *)

Module Final.
Inductive ValueKind : Type := Ident | Number | True | False.
End Final.

Module BinaryOp.
Inductive Operator : Type := Plus | Minus | Mul | Div | Mod | Exp.
End BinaryOp.

Module UnaryOp.
Inductive Operator : Type := Plus_plus | Minus_minus.
End UnaryOp.

Module SignedNumber.
Inductive Sign : Type := Plus | Minus.
End SignedNumber.

(** The subclasses of [Expr]. *)
Inductive Expr : Type :=
| Final (Kind : Final.ValueKind) (Val : string)
| BinaryOp (Op : BinaryOp.Operator) (L R : Expr)
| UnaryOp (Op : UnaryOp.Operator) (I : string)
| SignedNumber (S : SignedNumber.Sign) (V : string)
| NegExpr (E : Expr).

Module Comparison.
Inductive Operator : Type :=
  | Equal | Not_equal | Greater | Less | Greater_equal | Less_equal
  | True | False | Ident.
End Comparison.

Module LogicalExpr.
Inductive Operator : Type := And | Or.
End LogicalExpr.

(** The subclasses of [Logic].  [Comparison] lists the four data members
    [Left], [Right], [Op], [Value]; a null pointer is [None].  The member
    [Op] is an [option] because the constructor may leave it without a
    value (see [new_Comparison]). *)
Inductive Logic : Type :=
| Comparison (Left Right : option Expr) (Op : option Comparison.Operator)
             (Value : string)
| LogicalExpr (Left Right : Logic) (Op : LogicalExpr.Operator).

(** The constructor of AST.h,
    [Comparison(Expr *L, Expr *R, Operator Opm, llvm::StringRef V)
       : Left(L), Right(R), Op(Op), Value(V) {}]:
    the third parameter is named [Opm], and the initialiser [Op(Op)]
    initialises the member from itself, so the argument never reaches the
    member and [Op] holds no defined value. *)
Definition new_Comparison (L R : option Expr) (Opm : Comparison.Operator)
                          (V : string) : Logic :=
  Comparison L R None V.

Definition getLeft (c : Logic) : option Expr :=
  match c with Comparison l _ _ _ => l | LogicalExpr _ _ _ => None end.

Definition getRight (c : Logic) : option Expr :=
  match c with Comparison _ r _ _ => r | LogicalExpr _ _ _ => None end.

Definition getOperator (c : Logic) : option Comparison.Operator :=
  match c with Comparison _ _ op _ => op | LogicalExpr _ _ _ => None end.

Definition getValue (c : Logic) : string :=
  match c with Comparison _ _ _ v => v | LogicalExpr _ _ _ => "" end.

Module Assignment.
Inductive AssignKind : Type :=
  | Assign | Minus_assign | Plus_assign | Star_assign | Slash_assign.
End Assignment.

(** [Assignment(Final *L, Expr *RE, AssignKind AK, LogicalExpr *RL)].  The
    parser fills [Left] with whatever [parseFinal] returned, cast to
    [Final *]. *)
Record Assignment : Type := new_Assignment {
  asg_Left : Expr;
  asg_RightExpr : option Expr;
  asg_AK : Assignment.AssignKind;
  asg_RightLogicExpr : option Logic
}.

(** An initialiser of a declaration: [parseIntDec] stores the result of
    [parseExpr], [parseBoolDec] the result of [parseLogic]. *)
Inductive Init : Type :=
| InitExpr (E : Expr)
| InitLogic (L : Logic).

Record Declaration : Type := new_Declaration {
  Vars : list string;
  Values : list Init
}.

Record elifStmt : Type := new_elifStmt {
  elif_Cond : Logic;
  elif_assignments : list Assignment
}.

(** [IfStmt(Cond, ifAssignments, elseAssignments, elifStmts)] *)
Record IfStmt : Type := new_IfStmt {
  if_Cond : Logic;
  ifAssignments : list Assignment;
  elseAssignments : list Assignment;
  elifStmts : list elifStmt
}.

(** [WhileStmt(Cond, assignments)]; [parseIter] builds its node with the same
    two arguments. *)
Record WhileStmt : Type := new_WhileStmt {
  while_Cond : Logic;
  while_assignments : list Assignment
}.

(** ** Glue for the recurring statement shapes of Parser.cpp *)

(** Run a routine and hand its result and the state it leaves to the rest of
    the caller; a spent budget ends the whole computation. *)
Definition bind {A B : Type} (r : result A)
           (k : A -> Parser -> result B) : result B :=
  match r with
  | OutOfFuel => OutOfFuel
  | Ret a P => k a P
  end.

(** [X = parseY(); if (X == nullptr) goto _error; ...]: run a sub-parse and
    take the error path of the calling routine when it yields [nullptr]. *)
Definition call {A B : Type} (r : result (option A))
           (k : A -> Parser -> result (option B)) : result (option B) :=
  bind r (fun x P =>
  match x with
  | None => panic P
  | Some a => k a P
  end).

Notation "'do' x , P <- e ; k" := (call e (fun x P => k))
  (at level 10, x name, P name, e at level 100, k at level 200).

(** [if (expect(K)) goto _error; ...] *)
Definition expecting {A : Type} (P : Parser) (K : TokenKind)
           (k : Parser -> result (option A)) : result (option A) :=
  let (bad, P1) := expect P K in
  if bad then panic P1 else k P1.

(** ** Arithmetic expressions: parseExpr, parseTerm, parseFactor, parseFinal

    Each [while] loop of the source is the [_loop] function next to its
    routine; [Left] is the loop-carried variable. *)

Fixpoint parseExpr (fuel : nat) (P : Parser) {struct fuel}
  : result (option Expr) :=
  match fuel with
  | 0 => OutOfFuel
  | S n =>
    do Left, P1 <- parseTerm n P;
    parseExpr_loop n Left P1
  end

with parseExpr_loop (fuel : nat) (Left : Expr) (P : Parser) {struct fuel}
  : result (option Expr) :=
  match fuel with
  | 0 => OutOfFuel
  | S n =>
    if Tok_isOneOf P [Token.plus; Token.minus] then
      match (if Tok_is P Token.plus then Some BinaryOp.Plus
             else if Tok_is P Token.minus then Some BinaryOp.Minus
             else None) with
      | None => panic (error P)
      | Some Op =>
        do Right, P1 <- parseTerm n (advance P);
        parseExpr_loop n (BinaryOp Op Left Right) P1
      end
    else Ret (Some Left) P
  end

with parseTerm (fuel : nat) (P : Parser) {struct fuel}
  : result (option Expr) :=
  match fuel with
  | 0 => OutOfFuel
  | S n =>
    do Left, P1 <- parseFactor n P;
    parseTerm_loop n Left P1
  end

with parseTerm_loop (fuel : nat) (Left : Expr) (P : Parser) {struct fuel}
  : result (option Expr) :=
  match fuel with
  | 0 => OutOfFuel
  | S n =>
    if Tok_isOneOf P [Token.star; Token.mod_; Token.slash] then
      match (if Tok_is P Token.star then Some BinaryOp.Mul
             else if Tok_is P Token.slash then Some BinaryOp.Div
             else if Tok_is P Token.mod_ then Some BinaryOp.Mod
             else None) with
      | None => panic (error P)
      | Some Op =>
        do Right, P1 <- parseFactor n (advance P);
        parseTerm_loop n (BinaryOp Op Left Right) P1
      end
    else Ret (Some Left) P
  end

with parseFactor (fuel : nat) (P : Parser) {struct fuel}
  : result (option Expr) :=
  match fuel with
  | 0 => OutOfFuel
  | S n =>
    do Left, P1 <- parseFinal n P;
    parseFactor_loop n Left P1
  end

with parseFactor_loop (fuel : nat) (Left : Expr) (P : Parser) {struct fuel}
  : result (option Expr) :=
  match fuel with
  | 0 => OutOfFuel
  | S n =>
    if Tok_is P Token.exp then
      match (if Tok_is P Token.exp then Some BinaryOp.Exp else None) with
      | None => panic (error P)
      | Some Op =>
        do Right, P1 <- parseFactor n (advance P);
        parseFactor_loop n (BinaryOp Op Left Right) P1
      end
    else Ret (Some Left) P
  end

with parseFinal (fuel : nat) (P : Parser) {struct fuel}
  : result (option Expr) :=
  match fuel with
  | 0 => OutOfFuel
  | S n =>
    match getKind P with
    | Token.number =>
      Ret (Some (Final Final.Number (getText P))) (advance P)
    | Token.ident =>
      let Res := Final Final.Ident (getText P) in
      let prev_tok := P in
      let P1 := advance P in
      if Tok_is P1 Token.plus_plus then
        Ret (Some (UnaryOp UnaryOp.Plus_plus (getText prev_tok))) (advance P1)
      else if Tok_is P1 Token.minus_minus then
        Ret (Some (UnaryOp UnaryOp.Minus_minus (getText prev_tok)))
            (advance P1)
      else Ret (Some Res) P1
    | Token.plus =>
      let P1 := advance P in
      if Tok_is P1 Token.number then
        Ret (Some (SignedNumber SignedNumber.Plus (getText P1))) (advance P1)
      else panic P1
    | Token.minus =>
      let P1 := advance P in
      if Tok_is P1 Token.number then
        Ret (Some (SignedNumber SignedNumber.Minus (getText P1))) (advance P1)
      else if Tok_is P1 Token.l_paren then
        do math_expr, P2 <- parseExpr n (advance P1);
        let (bad, P3) := consume P2 Token.r_paren in
        if negb bad then Ret (Some (NegExpr math_expr)) P3 else panic P3
      else panic P1
    | Token.l_paren =>
      do Res, P2 <- parseExpr n (advance P);
      let (bad, P3) := consume P2 Token.r_paren in
      if negb bad then Ret (Some Res) P3 else panic P3
    | _ => panic (error P)
    end
  end.

(** ** Logic expressions: parseComparison, parseLogic *)

Fixpoint parseLogic (fuel : nat) (P : Parser) {struct fuel}
  : result (option Logic) :=
  match fuel with
  | 0 => OutOfFuel
  | S n =>
    do Left, P1 <- parseComparison n P;
    parseLogic_loop n Left P1
  end

with parseLogic_loop (fuel : nat) (Left : Logic) (P : Parser) {struct fuel}
  : result (option Logic) :=
  match fuel with
  | 0 => OutOfFuel
  | S n =>
    if Tok_isOneOf P [Token.KW_and; Token.KW_or] then
      match (if Tok_is P Token.KW_and then Some LogicalExpr.And
             else if Tok_is P Token.KW_or then Some LogicalExpr.Or
             else None) with
      | None => panic (error P)
      | Some Op =>
        do Right, P1 <- parseComparison n (advance P);
        parseLogic_loop n (LogicalExpr Left Right Op) P1
      end
    else Ret (Some Left) P
  end

with parseComparison (fuel : nat) (P : Parser) {struct fuel}
  : result (option Logic) :=
  match fuel with
  | 0 => OutOfFuel
  | S n =>
    if Tok_is P Token.l_paren then
      do Res, P1 <- parseLogic n (advance P);
      let (bad, P2) := consume P1 Token.r_paren in
      if bad then panic P2 else Ret (Some Res) P2
    else if Tok_is P Token.true_ then
      Ret (Some (new_Comparison None None Comparison.True (getText P)))
          (advance P)
    else if Tok_is P Token.false_ then
      Ret (Some (new_Comparison None None Comparison.False (getText P)))
          (advance P)
    else if Tok_is P Token.ident then
      Ret (Some (new_Comparison None None Comparison.Ident (getText P)))
          (advance P)
    else
      do Left, P1 <- parseExpr n P;
      match (if Tok_is P1 Token.eq then Some Comparison.Equal
             else if Tok_is P1 Token.neq then Some Comparison.Not_equal
             else if Tok_is P1 Token.gt then Some Comparison.Greater
             else if Tok_is P1 Token.lt then Some Comparison.Less
             else if Tok_is P1 Token.gte then Some Comparison.Greater_equal
             else if Tok_is P1 Token.lte then Some Comparison.Less_equal
             else None) with
      | None => panic (error P1)
      | Some Op =>
        do Right, P2 <- parseExpr n (advance P1);
        Ret (Some (new_Comparison (Some Left) (Some Right) Op (getText P2)))
            P2
      end
  end.

(** ** Statements *)

(** parseAssign.  [tail AK] is the code after the [if]/[else if] chain:
    [advance(); E = parseExpr(); ...]. *)
Definition parseAssign (fuel : nat) (P : Parser)
  : result (option Assignment) :=
  do F, P1 <- parseFinal fuel P;
  let prev_Tok := Tok P1 in
  let tail (AK : Assignment.AssignKind) (P2 : Parser) :=
    do E, P3 <- parseExpr fuel (advance P2);
    Ret (Some (new_Assignment F (Some E) AK None)) P3 in
  if Tok_is P1 Token.assign then
    let AK := Assignment.Assign in
    bind (parseLogic fuel (advance P1)) (fun L P2 =>
    match L with
    | Some L => Ret (Some (new_Assignment F None AK (Some L))) P2
    | None => tail AK (setTok P2 prev_Tok)
    end)
  else if Tok_is P1 Token.plus_assign then tail Assignment.Plus_assign P1
  else if Tok_is P1 Token.minus_assign then tail Assignment.Minus_assign P1
  else if Tok_is P1 Token.star_assign then tail Assignment.Star_assign P1
  else if Tok_is P1 Token.slash_assign then tail Assignment.Slash_assign P1
  else panic (error P1).

(** parseUnary; the node it returns is always a [UnaryOp]. *)
Definition parseUnary (P : Parser) : result (option Expr) :=
  expecting P Token.ident (fun P0 =>
  let var := getText P0 in
  let P1 := advance P0 in
  if Tok_is P1 Token.plus_plus then
    Ret (Some (UnaryOp UnaryOp.Plus_plus var)) (advance P1)
  else if Tok_is P1 Token.minus_minus then
    Ret (Some (UnaryOp UnaryOp.Minus_minus var)) (advance P1)
  else panic P1).

(** parseIntDec and parseBoolDec are the same text in the source up to the
    keyword they expect and the routine that parses an initialiser
    ([parseExpr] or [parseLogic]); [parseDec] is that text, [count] is the
    source's [int count].  A [goto _error] taken inside a loop surfaces as
    [None] from the loop function, and the caller then takes its own error
    path. *)
Fixpoint parseDec_vars (fuel : nat) (Vars : list string) (count : Z)
         (P : Parser) {struct fuel} : result (option (list string * Z)) :=
  match fuel with
  | 0 => OutOfFuel
  | S n =>
    if Tok_is P Token.comma then
      expecting (advance P) Token.ident (fun P1 =>
      parseDec_vars n (Vars ++ [getText P1]) (count + 1)%Z (advance P1))
    else Ret (Some (Vars, count)) P
  end.

Fixpoint parseDec_values (fuel : nat)
         (parseInit : Parser -> result (option Init))
         (Values : list Init) (count : Z) (P : Parser) {struct fuel}
  : result (option (list Init)) :=
  match fuel with
  | 0 => OutOfFuel
  | S n =>
    if Tok_is P Token.comma then
      if (count =? 0)%Z then panic (error P)
      else
        do E, P1 <- parseInit (advance P);
        parseDec_values n parseInit (Values ++ [E]) (count - 1)%Z P1
    else Ret (Some Values) P
  end.

Definition parseDec (KW : TokenKind)
           (parseInit : Parser -> result (option Init))
           (fuel : nat) (P : Parser) : result (option Declaration) :=
  expecting P KW (fun P0 =>
  expecting (advance P0) Token.ident (fun P1 =>
  do vc, P2 <- parseDec_vars fuel [getText P1] 1%Z (advance P1);
  do Values, P3 <-
     (if Tok_is P2 Token.assign then
        do E, P4 <- parseInit (advance P2);
        parseDec_values fuel parseInit [E] (snd vc - 1)%Z P4
      else Ret (Some []) P2);
  expecting P3 Token.semicolon (fun P5 =>
  Ret (Some (new_Declaration (fst vc) Values)) P5))).

Definition initExpr (fuel : nat) (P : Parser) : result (option Init) :=
  do E, P1 <- parseExpr fuel P; Ret (Some (InitExpr E)) P1.

Definition initLogic (fuel : nat) (P : Parser) : result (option Init) :=
  do E, P1 <- parseLogic fuel P; Ret (Some (InitLogic E)) P1.

Definition parseIntDec (fuel : nat) : Parser -> result (option Declaration) :=
  parseDec Token.KW_int (initExpr fuel) fuel.

Definition parseBoolDec (fuel : nat) : Parser -> result (option Declaration) :=
  parseDec Token.KW_bool (initLogic fuel) fuel.

(** The block loop shared by parseIf (three times) and parseIter:
    [while (!Tok.is(Token::KW_end)) { a = parseAssign(); ...;
       if (expect(Token::semicolon)) goto _error; advance(); }] *)
Fixpoint parseBlock (fuel : nat) (assignments : list Assignment)
         (P : Parser) {struct fuel} : result (option (list Assignment)) :=
  match fuel with
  | 0 => OutOfFuel
  | S n =>
    if negb (Tok_is P Token.KW_end) then
      do a, P1 <- parseAssign n P;
      expecting P1 Token.semicolon (fun P2 =>
      parseBlock n (assignments ++ [a]) (advance P2))
    else Ret (Some assignments) P
  end.

(** [while (Tok.is(Token::KW_elif)) { ... }] of parseIf. *)
Fixpoint parseElifs (fuel : nat) (elifStmts : list elifStmt)
         (P : Parser) {struct fuel} : result (option (list elifStmt)) :=
  match fuel with
  | 0 => OutOfFuel
  | S n =>
    if Tok_is P Token.KW_elif then
      do Cond, P1 <- parseLogic n (advance P);
      expecting P1 Token.colon (fun P2 =>
      expecting (advance P2) Token.KW_begin (fun P3 =>
      do elifAssignments, P4 <- parseBlock n [] (advance P3);
      parseElifs n (elifStmts ++ [new_elifStmt Cond elifAssignments])
                 (advance P4)))
    else Ret (Some elifStmts) P
  end.

Definition parseIf (fuel : nat) (P : Parser) : result (option IfStmt) :=
  let P0 := setHaveElse P false in
  expecting P0 Token.KW_if (fun P1 =>
  do Cond, P2 <- parseLogic fuel (advance P1);
  expecting P2 Token.colon (fun P3 =>
  expecting (advance P3) Token.KW_begin (fun P4 =>
  do ifAssignments, P5 <- parseBlock fuel [] (advance P4);
  do elifStmts, P6 <- parseElifs fuel [] (advance P5);
  if Tok_is P6 Token.KW_else then
    let P7 := setHaveElse P6 true in
    expecting (advance P7) Token.colon (fun P8 =>
    expecting (advance P8) Token.KW_begin (fun P9 =>
    do elseAssignments, P10 <- parseBlock fuel [] (advance P9);
    Ret (Some (new_IfStmt Cond ifAssignments elseAssignments elifStmts))
        P10))
  else Ret (Some (new_IfStmt Cond ifAssignments [] elifStmts)) P6))).

(** parseIter, the loop statement on [Token::KW_loopc]. *)
Definition parseIter (fuel : nat) (P : Parser) : result (option WhileStmt) :=
  expecting P Token.KW_loopc (fun P1 =>
  do Cond, P2 <- parseLogic fuel (advance P1);
  expecting P2 Token.colon (fun P3 =>
  expecting (advance P3) Token.KW_begin (fun P4 =>
  do assignments, P5 <- parseBlock fuel [] (advance P4);
  Ret (Some (new_WhileStmt Cond assignments)) P5))).

(** The [case Token::ident] of parseProgram's switch.  It pushes either the
    [UnaryOp] or the [Assignment]; [None] stands for [goto _error]. *)
Inductive IdentStmt : Type :=
| UnaryStmt (u : Expr)
| AssignStmt (a : Assignment).

(** The end of that case, once the Assignment is parsed:
    [if (!Tok.is(Token::semicolon)) { error(); goto _error; }
     if (a) data.push_back(a); else goto _error;] *)
Definition assignment_statement (a : option Assignment) (P : Parser)
  : result (option IdentStmt) :=
  if negb (Tok_is P Token.semicolon) then Ret None (error P)
  else match a with
       | Some a => Ret (Some (AssignStmt a)) P
       | None => Ret None P
       end.

Definition parseProgram_ident (fuel : nat) (P : Parser)
  : result (option IdentStmt) :=
  let prev_token := Tok P in
  bind (parseUnary P) (fun u P1 =>
  if Tok_is P1 Token.semicolon then
    match u with
    | Some u => Ret (Some (UnaryStmt u)) P1
    | None =>
      bind (parseAssign fuel (setTok P1 prev_token)) assignment_statement
    end
  else
    match u with
    | Some u => Ret None (error P1)
    | None =>
      bind (parseAssign fuel (setTok P1 prev_token)) assignment_statement
    end).

(** ** The statement loop

    parseWhile, parseFor and parsePrint are called by parseProgram but are
    defined nowhere in the sources, and neither are the classes [ForStmt] and
    [PrintStmt]; the loop is stated over any such routines. *)
Section Program.

Variables ForStmt PrintStmt : Type.
Variable parseWhile : nat -> Parser -> result (option WhileStmt).
Variable parseFor : nat -> Parser -> result (option ForStmt).
Variable parsePrint : nat -> Parser -> result (option PrintStmt).

(** What [data.push_back] receives: a pointer to one of the statement
    classes, seen as [AST *]. *)
Inductive AST : Type :=
| AST_Declaration (d : Declaration)
| AST_UnaryOp (u : Expr)
| AST_Assignment (a : Assignment)
| AST_IfStmt (i : IfStmt)
| AST_WhileStmt (l : WhileStmt)
| AST_ForStmt (l : ForStmt)
| AST_PrintStmt (l : PrintStmt).

Record Program : Type := new_Program { data : list AST }.

Definition upcast {A : Type} (f : A -> AST) (r : result (option A))
  : result (option AST) :=
  bind r (fun d P => Ret (option_map f d) P).

Definition AST_of_IdentStmt (s : IdentStmt) : AST :=
  match s with
  | UnaryStmt u => AST_UnaryOp u
  | AssignStmt a => AST_Assignment a
  end.

(** The [switch (Tok.getKind())] of parseProgram; [None] stands for
    [goto _error]. *)
Definition parseProgram_switch (fuel : nat) (P : Parser)
  : result (option AST) :=
  match getKind P with
  | Token.KW_int => upcast AST_Declaration (parseIntDec fuel P)
  | Token.KW_bool => upcast AST_Declaration (parseBoolDec fuel P)
  | Token.ident => upcast AST_of_IdentStmt (parseProgram_ident fuel P)
  | Token.KW_if => upcast AST_IfStmt (parseIf fuel P)
  | Token.KW_while => upcast AST_WhileStmt (parseWhile fuel P)
  | Token.KW_for => upcast AST_ForStmt (parseFor fuel P)
  | Token.KW_print => upcast AST_PrintStmt (parsePrint fuel P)
  | _ => Ret None (error P)
  end.

(** [if(haveElse){ advance(); }] at the end of the loop body. *)
Definition parseProgram_advance (P : Parser) : Parser :=
  if haveElse P then advance P else P.

Fixpoint parseProgram_loop (fuel : nat) (data : list AST) (P : Parser)
         {struct fuel} : result (option Program) :=
  match fuel with
  | 0 => OutOfFuel
  | S n =>
    if negb (Tok_is P Token.eoi) then
      do stmt, P1 <- parseProgram_switch n (setHaveElse P true);
      parseProgram_loop n (data ++ [stmt]) (parseProgram_advance P1)
    else Ret (Some (new_Program data)) P
  end.

Definition parseProgram (fuel : nat) (P : Parser) : result (option Program) :=
  parseProgram_loop fuel [] P.

Definition parse (fuel : nat) (P : Parser) : result (option Program) :=
  parseProgram fuel P.

(** [statements k P stmts P']: starting in state [P], the statement loop
    takes [k] turns, each parsing one top-level statement; [stmts] are the
    nodes in this order, and the next turn would start in state [P']. *)
Inductive statements (P : Parser)
  : nat -> list AST -> Parser -> Prop :=
| statements_nil : statements P 0 [] P
| statements_cons : forall n stmt P1 k stmts P',
    Tok_is P Token.eoi = false ->
    parseProgram_switch n (setHaveElse P true) = Ret (Some stmt) P1 ->
    statements (parseProgram_advance P1) k stmts P' ->
    statements P (S k) (stmt :: stmts) P'.

End Program.

Arguments AST_Declaration {ForStmt PrintStmt} d.
Arguments AST_UnaryOp {ForStmt PrintStmt} u.
Arguments AST_Assignment {ForStmt PrintStmt} a.
Arguments AST_IfStmt {ForStmt PrintStmt} i.
Arguments AST_WhileStmt {ForStmt PrintStmt} l.
Arguments AST_ForStmt {ForStmt PrintStmt} l.
Arguments AST_PrintStmt {ForStmt PrintStmt} l.
Arguments new_Program {ForStmt PrintStmt} data.
Arguments data {ForStmt PrintStmt} p.
Arguments parseProgram_switch {ForStmt PrintStmt}.
Arguments parseProgram_loop {ForStmt PrintStmt}.
Arguments parseProgram {ForStmt PrintStmt}.
Arguments parse {ForStmt PrintStmt}.
Arguments statements {ForStmt PrintStmt}.

(** The initial state of a parser over the token sequence [ts]. *)
Definition start (ts : list Token) : Parser := mkParser ts false 0.

(** * Vocabulary of the properties *)

(** ** States and results *)

(** A parser state is at the end of its input when the current token is the
    end-of-input sentinel. *)
Definition at_eoi (P : Parser) : Prop := getKind P = Token.eoi.

(** [res_le r1 r2]: whatever [r1] returns, [r2] returns too; a spent budget
    is below every result. *)
Definition res_le {A : Type} (r1 r2 : result A) : Prop :=
  forall a P, r1 = Ret a P -> r2 = Ret a P.

(** [aborts r]: when [r] is the absent-node signal, the state it leaves is
    at the end-of-input sentinel. *)
Definition aborts {A : Type} (r : result (option A)) : Prop :=
  forall P, r = Ret None P -> at_eoi P.

(** [keeps_flag h r]: whatever [r] returns, the state it leaves has
    [haveElse = h]. *)
Definition keeps_flag {A : Type} (h : bool) (r : result A) : Prop :=
  forall a P, r = Ret a P -> haveElse P = h.

(** [preserves I r]: whatever [r] returns, the state it leaves satisfies
    [I]. *)
Definition preserves (I : Parser -> Prop) {A : Type} (r : result A) : Prop :=
  forall a P, r = Ret a P -> I P.

(** [quiet d r]: when [r] is a node, the diagnostic count is [d]. *)
Definition quiet {A : Type} (d : nat) (r : result (option A)) : Prop :=
  forall a P, r = Ret (Some a) P -> Diags P = d.

(** The number of tokens left. *)
Definition size (P : Parser) : nat := List.length (Tok P).

(** [suffix l ts]: the tokens [l] are what is left of [ts] after some of
    its tokens were read. *)
Definition suffix (l ts : list Token) : Prop := exists pre, ts = pre ++ l.

(** [within ts r]: whatever [r] returns, the tokens it leaves are a suffix
    of [ts]. *)
Definition within {A : Type} (ts : list Token) (r : result A) : Prop :=
  forall a P, r = Ret a P -> suffix (Tok P) ts.

(** [halts F]: the routine [F], given as a function of its budget,
    returns with some budget. *)
Definition halts {A : Type} (F : nat -> result A) : Prop :=
  exists n a P, F n = Ret a P.

(** [mono F]: a larger budget does not change what [F] returns. *)
Definition mono {A : Type} (F : nat -> result A) : Prop :=
  forall n m, n <= m -> res_le (F n) (F m).

(** [consumes P r]: when [r], a routine started in [P], succeeds, it
    leaves fewer tokens than [P] had. *)
Definition consumes {A : Type} (P : Parser) (r : result (option A)) : Prop :=
  forall a P', r = Ret (Some a) P' -> size P' < size P.

(** [well_behaved f]: what the statement loop needs of a statement routine
    [f]: a larger budget does not change what it returns, it returns on
    every input, and when it succeeds it has consumed a token. *)
Definition well_behaved {A : Type}
           (f : nat -> Parser -> result (option A)) : Prop :=
  (forall n m P, n <= m -> res_le (f n P) (f m P)) /\
  (forall P, halts (fun n => f n P)) /\
  (forall n P, consumes P (f n P)).

(** [block_items P l P']: from state [P], parseAssign reads the
    assignments [l] one after the other, each followed by [;], and then
    the current token, in state [P'], is [end]. *)
Inductive block_items : Parser -> list Assignment -> Parser -> Prop :=
| block_items_end : forall P,
    Tok_is P Token.KW_end = true -> block_items P [] P
| block_items_next : forall P n a P1 more P',
    Tok_is P Token.KW_end = false ->
    parseAssign n P = Ret (Some a) P1 ->
    Tok_is P1 Token.semicolon = true ->
    block_items (advance P1) more P' ->
    block_items P (a :: more) P'.

(** [yields r Q]: when [r] returns, it returns a node, and the node and
    the state it leaves satisfy [Q]. *)
Definition yields {A : Type} (r : result (option A))
           (Q : A -> Parser -> Prop) : Prop :=
  forall a P', r = Ret a P' -> exists e, a = Some e /\ Q e P'.

(** [fails r]: when [r] returns, it returns the absent signal. *)
Definition fails {A : Type} (r : result (option A)) : Prop :=
  forall a P', r = Ret a P' -> a = None.

(** [at_tokens r h P']: state [P'] has the tokens [r] left and the flag
    [h]. *)
Definition at_tokens (r : list Token) (h : bool) (P' : Parser) : Prop :=
  Tok P' = r /\ haveElse P' = h.

(** The tokens after which a Final, a Factor, a Term, an arithmetic
    expression or a logic expression cannot go on. *)
Definition final_stop (K : TokenKind) : bool :=
  match K with
  | Token.plus_plus | Token.minus_minus => false
  | _ => true
  end.

Definition factor_stop (K : TokenKind) : bool :=
  final_stop K && negb (Token.kind_eqb K Token.exp).

Definition term_stop (K : TokenKind) : bool :=
  factor_stop K &&
  match K with
  | Token.star | Token.slash | Token.mod_ => false
  | _ => true
  end.

Definition expr_stop (K : TokenKind) : bool :=
  term_stop K &&
  match K with
  | Token.plus | Token.minus => false
  | _ => true
  end.

Definition logic_stop (K : TokenKind) : bool :=
  expr_stop K &&
  match K with
  | Token.KW_and | Token.KW_or => false
  | _ => true
  end.

Definition relational (K : TokenKind) : bool :=
  match K with
  | Token.eq | Token.neq | Token.gt | Token.lt | Token.gte | Token.lte =>
    true
  | _ => false
  end.

(** [initialisers f P vals P']: from state [P] the routine [f] reads the
    initialisers [vals] one after the other, each after a comma, and
    leaves state [P']. *)
Inductive initialisers (f : Parser -> result (option Init))
  : Parser -> list Init -> Parser -> Prop :=
| initialisers_nil : forall P, initialisers f P [] P
| initialisers_cons : forall P E P1 vals P',
    Tok_is P Token.comma = true ->
    f (advance P) = Ret (Some E) P1 ->
    initialisers f P1 vals P' ->
    initialisers f P (E :: vals) P'.

(** [consumed_end ts P']: of the tokens [ts], the last one read before
    what [P'] has left is an [end]. *)
Definition consumed_end (ts : list Token) (P' : Parser) : Prop :=
  exists pre t,
    ts = pre ++ t :: Tok P' /\ Token.Kind t = Token.KW_end.

(** [else_clause ts P']: of the tokens [ts], the last ones read before what
    [P'] has left are [end else : begin] and the tokens [body] of a block,
    its own [end] not included. *)
Definition else_clause (ts : list Token) (P' : Parser) : Prop :=
  exists pre t1 t2 t3 t4 body,
    ts = pre ++ t1 :: t2 :: t3 :: t4 :: body ++ Tok P' /\
    Token.Kind t1 = Token.KW_end /\ Token.Kind t2 = Token.KW_else /\
    Token.Kind t3 = Token.colon /\ Token.Kind t4 = Token.KW_begin.

(** A stand-in for the routines the sources leave out, to state facts
    about the loop at inputs where these routines are not called. *)
Definition absent_routine {A : Type} (n : nat) (P : Parser)
  : result (option A) := panic P.

(** ** Shapes of nodes *)

(** [FinalAlt P e P']: from state [P], one alternative of parseFinal's
    switch yields the node [e] and leaves state [P']. *)
Inductive FinalAlt (P : Parser) : Expr -> Parser -> Prop :=
| FA_number :
    getKind P = Token.number ->
    FinalAlt P (Final Final.Number (getText P)) (advance P)
| FA_ident :
    getKind P = Token.ident ->
    getKind (advance P) <> Token.plus_plus ->
    getKind (advance P) <> Token.minus_minus ->
    FinalAlt P (Final Final.Ident (getText P)) (advance P)
| FA_increment :
    getKind P = Token.ident ->
    getKind (advance P) = Token.plus_plus ->
    FinalAlt P (UnaryOp UnaryOp.Plus_plus (getText P)) (advance (advance P))
| FA_decrement :
    getKind P = Token.ident ->
    getKind (advance P) = Token.minus_minus ->
    FinalAlt P (UnaryOp UnaryOp.Minus_minus (getText P))
             (advance (advance P))
| FA_minus_number :
    getKind P = Token.minus ->
    getKind (advance P) = Token.number ->
    FinalAlt P (SignedNumber SignedNumber.Minus (getText (advance P)))
             (advance (advance P))
| FA_minus_paren : forall n math_expr P2,
    getKind P = Token.minus ->
    getKind (advance P) = Token.l_paren ->
    parseExpr n (advance (advance P)) = Ret (Some math_expr) P2 ->
    getKind P2 = Token.r_paren ->
    FinalAlt P (NegExpr math_expr) (advance P2)
| FA_plus_number :
    getKind P = Token.plus ->
    getKind (advance P) = Token.number ->
    FinalAlt P (SignedNumber SignedNumber.Plus (getText (advance P)))
             (advance (advance P))
| FA_paren : forall n Res P2,
    getKind P = Token.l_paren ->
    parseExpr n (advance P) = Ret (Some Res) P2 ->
    getKind P2 = Token.r_paren ->
    FinalAlt P Res (advance P2).

(** The leaf an arithmetic expression starts with. *)
Fixpoint leftmost (e : Expr) : Expr :=
  match e with
  | BinaryOp _ l _ => leftmost l
  | _ => e
  end.

(** The expression starts with an identifier leaf ([x], [x++], [x--]). *)
Definition ident_led (e : Expr) : bool :=
  match leftmost e with
  | Final Final.Ident _ => true
  | UnaryOp _ _ => true
  | _ => false
  end.

(** Every relational node of a logic tree (a Comparison with a left operand)
    has a left operand that does not start with an identifier leaf. *)
Fixpoint relational_left_ok (c : Logic) : Prop :=
  match c with
  | Comparison (Some l) _ _ _ => ident_led l = false
  | Comparison None _ _ _ => True
  | LogicalExpr a b _ => relational_left_ok a /\ relational_left_ok b
  end.

(** An expression that starts with an identifier leaf was parsed from a
    state whose current token is an identifier or a left parenthesis. *)
Definition led_by_token (P : Parser) (e : Expr) : Prop :=
  ident_led e = true ->
  getKind P = Token.ident \/ getKind P = Token.l_paren.

(** ** Operators at the cursor *)

(** The operator the loop of parseExpr reads at the cursor, if any. *)
Definition additive (P : Parser) : option BinaryOp.Operator :=
  if Tok_is P Token.plus then Some BinaryOp.Plus
  else if Tok_is P Token.minus then Some BinaryOp.Minus
  else None.

(** The operator the loop of parseTerm reads at the cursor, if any. *)
Definition multiplicative (P : Parser) : option BinaryOp.Operator :=
  if Tok_is P Token.star then Some BinaryOp.Mul
  else if Tok_is P Token.slash then Some BinaryOp.Div
  else if Tok_is P Token.mod_ then Some BinaryOp.Mod
  else None.

(** The operator the loop of parseLogic reads at the cursor, if any. *)
Definition connective (P : Parser) : option LogicalExpr.Operator :=
  if Tok_is P Token.KW_and then Some LogicalExpr.And
  else if Tok_is P Token.KW_or then Some LogicalExpr.Or
  else None.

(** The tokens [, x1 , x2 ...] that continue a list of declared names. *)
Definition more_names (xs : list string) : list Token :=
  flat_map (fun y => [Token.mk Token.comma ","; Token.mk Token.ident y]) xs.

(** The kinds of token parseProgram's switch has a case for. *)
Definition starts_statement (K : TokenKind) : bool :=
  match K with
  | Token.KW_int | Token.KW_bool | Token.ident | Token.KW_if
  | Token.KW_while | Token.KW_for | Token.KW_print => true
  | _ => false
  end.

(** ** The grammar of the specification

    These predicates follow the text of the specification's grammar
    (section 4.4), not the code.  Of the statement forms, [while], [for]
    and [print] are not written out: the sources do not contain their
    routines. *)
Module Grammar.

(** The grammar is read in two ways.  [Written] is the grammar as section
    4.4 words it.  [Accepted] leaves out the alternative of Final that
    parseFinal does not have (a parenthesised expression after a leading
    [+]), takes the alternatives of Comparison in the order in which
    section 4.4 lists them (a comparison that starts with a parenthesis or
    an identifier is the parenthesised or the identifier form, so the left
    operand of a relational comparison starts with a number or [-]), and
    leaves out the assignments [x = e] whose arithmetic right-hand side
    starts, behind its opening parentheses, with anything but a number or
    [-]. *)
Inductive dialect : Type := Written | Accepted.

Definition first_kind (ts : list Token) : TokenKind :=
  match ts with
  | [] => Token.eoi
  | t :: _ => Token.Kind t
  end.

Fixpoint strip_parens (ts : list Token) : list Token :=
  match ts with
  | [] => []
  | t :: r =>
    if Token.kind_eqb (Token.Kind t) Token.l_paren then strip_parens r
    else ts
  end.

Definition number_led (ts : list Token) : bool :=
  match first_kind ts with
  | Token.number | Token.minus => true
  | _ => false
  end.

Definition multiplicative_ops : list TokenKind :=
  [Token.star; Token.slash; Token.mod_].

Definition additive_ops : list TokenKind := [Token.plus; Token.minus].

Definition relational_ops : list TokenKind :=
  [Token.eq; Token.neq; Token.gt; Token.lt; Token.gte; Token.lte].

Definition connectives : list TokenKind := [Token.KW_and; Token.KW_or].

Definition compound_ops : list TokenKind :=
  [Token.plus_assign; Token.minus_assign; Token.star_assign;
   Token.slash_assign].

Section Rules.

Variable g : dialect.

(** [X ts r]: the tokens [ts] start with a phrase of [X], and [r] is what
    follows that phrase.

    [Expr := Term {('+'|'-') Term}], [Term := Factor {('*'|'/'|'%') Factor}],
    [Factor := Final {'^' Factor}], and the alternatives of [Final]. *)
Inductive Final : list Token -> list Token -> Prop :=
| Final_number : forall s r,
    Final (Token.mk Token.number s :: r) r
| Final_ident : forall s r,
    Final (Token.mk Token.ident s :: r) r
| Final_increment : forall s s1 r,
    Final (Token.mk Token.ident s :: Token.mk Token.plus_plus s1 :: r) r
| Final_decrement : forall s s1 r,
    Final (Token.mk Token.ident s :: Token.mk Token.minus_minus s1 :: r) r
| Final_signed : forall s1 s r,
    Final (Token.mk Token.minus s1 :: Token.mk Token.number s :: r) r
| Final_negated : forall s1 s2 ts s3 r,
    Expr ts (Token.mk Token.r_paren s3 :: r) ->
    Final (Token.mk Token.minus s1 :: Token.mk Token.l_paren s2 :: ts) r
| Final_plus : forall s1 s2 ts s3 r,
    g = Written ->
    Expr ts (Token.mk Token.r_paren s3 :: r) ->
    Final (Token.mk Token.plus s1 :: Token.mk Token.l_paren s2 :: ts) r
| Final_paren : forall s1 ts s3 r,
    Expr ts (Token.mk Token.r_paren s3 :: r) ->
    Final (Token.mk Token.l_paren s1 :: ts) r

with Factor : list Token -> list Token -> Prop :=
| Factor_final : forall ts r, Final ts r -> Factor ts r
| Factor_exp : forall ts s r1 r,
    Final ts (Token.mk Token.exp s :: r1) -> Factor r1 r -> Factor ts r

with Term : list Token -> list Token -> Prop :=
| Term_factors : forall ts r1 r,
    Factor ts r1 -> TermTail r1 r -> Term ts r

with TermTail : list Token -> list Token -> Prop :=
| TermTail_nil : forall r, TermTail r r
| TermTail_op : forall K s ts r1 r,
    In K multiplicative_ops -> Factor ts r1 -> TermTail r1 r ->
    TermTail (Token.mk K s :: ts) r

with Expr : list Token -> list Token -> Prop :=
| Expr_terms : forall ts r1 r,
    Term ts r1 -> ExprTail r1 r -> Expr ts r

with ExprTail : list Token -> list Token -> Prop :=
| ExprTail_nil : forall r, ExprTail r r
| ExprTail_op : forall K s ts r1 r,
    In K additive_ops -> Term ts r1 -> ExprTail r1 r ->
    ExprTail (Token.mk K s :: ts) r.

(** [Logic := Comparison {('&&'|'||') Comparison}] and the alternatives of
    [Comparison]. *)
Inductive Comparison : list Token -> list Token -> Prop :=
| Comparison_paren : forall s1 ts s2 r,
    Logic ts (Token.mk Token.r_paren s2 :: r) ->
    Comparison (Token.mk Token.l_paren s1 :: ts) r
| Comparison_true : forall s r,
    Comparison (Token.mk Token.true_ s :: r) r
| Comparison_false : forall s r,
    Comparison (Token.mk Token.false_ s :: r) r
| Comparison_ident : forall s r,
    Comparison (Token.mk Token.ident s :: r) r
| Comparison_rel : forall ts K s r1 r,
    (g = Accepted -> number_led ts = true) ->
    Expr ts (Token.mk K s :: r1) -> In K relational_ops -> Expr r1 r ->
    Comparison ts r

with Logic : list Token -> list Token -> Prop :=
| Logic_comparisons : forall ts r1 r,
    Comparison ts r1 -> LogicTail r1 r -> Logic ts r

with LogicTail : list Token -> list Token -> Prop :=
| LogicTail_nil : forall r, LogicTail r r
| LogicTail_op : forall K s ts r1 r,
    In K connectives -> Comparison ts r1 -> LogicTail r1 r ->
    LogicTail (Token.mk K s :: ts) r.

(** An assignment, without its [;]: the target is an identifier; after
    [=] a logic or an arithmetic expression, after a compound operator an
    arithmetic expression. *)
Inductive Assignment : list Token -> list Token -> Prop :=
| Assignment_logic : forall x s ts r,
    Logic ts r ->
    Assignment (Token.mk Token.ident x :: Token.mk Token.assign s :: ts) r
| Assignment_arith : forall x s ts r,
    (g = Accepted -> number_led (strip_parens ts) = true) ->
    Expr ts r ->
    Assignment (Token.mk Token.ident x :: Token.mk Token.assign s :: ts) r
| Assignment_compound : forall x K s ts r,
    In K compound_ops -> Expr ts r ->
    Assignment (Token.mk Token.ident x :: Token.mk K s :: ts) r.

(** [{Assignment ';'} 'end']: the body of a block with its [end]. *)
Inductive Body : list Token -> list Token -> Prop :=
| Body_end : forall s r, Body (Token.mk Token.KW_end s :: r) r
| Body_assignment : forall ts s r1 r,
    Assignment ts (Token.mk Token.semicolon s :: r1) -> Body r1 r ->
    Body ts r.

(** [{'elif' Logic ':' 'begin' {Assignment ';'} 'end'}] *)
Inductive Elifs : list Token -> list Token -> Prop :=
| Elifs_nil : forall r, Elifs r r
| Elifs_elif : forall s1 ts s2 s3 r1 r2 r,
    Logic ts (Token.mk Token.colon s2 :: Token.mk Token.KW_begin s3 :: r1) ->
    Body r1 r2 -> Elifs r2 r ->
    Elifs (Token.mk Token.KW_elif s1 :: ts) r.

(** ['if' Logic ':' 'begin' {Assignment ';'} 'end' {Elif}
     ['else' ':' 'begin' {Assignment ';'} 'end']] *)
Inductive IfStmt : list Token -> list Token -> Prop :=
| IfStmt_then : forall s1 ts s2 s3 r1 r2 r,
    Logic ts (Token.mk Token.colon s2 :: Token.mk Token.KW_begin s3 :: r1) ->
    Body r1 r2 -> Elifs r2 r ->
    IfStmt (Token.mk Token.KW_if s1 :: ts) r
| IfStmt_else : forall s1 ts s2 s3 r1 r2 s4 s5 s6 r3 r,
    Logic ts (Token.mk Token.colon s2 :: Token.mk Token.KW_begin s3 :: r1) ->
    Body r1 r2 ->
    Elifs r2 (Token.mk Token.KW_else s4 :: Token.mk Token.colon s5 ::
              Token.mk Token.KW_begin s6 :: r3) ->
    Body r3 r ->
    IfStmt (Token.mk Token.KW_if s1 :: ts) r.

(** [{',' name}]: [k] further names. *)
Inductive Names : nat -> list Token -> list Token -> Prop :=
| Names_nil : forall r, Names 0 r r
| Names_name : forall k s x r1 r,
    Names k r1 r ->
    Names (S k) (Token.mk Token.comma s :: Token.mk Token.ident x :: r1) r.

(** [{',' initialiser}]: [j] further initialisers. *)
Inductive Inits (init : list Token -> list Token -> Prop)
  : nat -> list Token -> list Token -> Prop :=
| Inits_nil : forall r, Inits init 0 r r
| Inits_init : forall j s ts r1 r,
    init ts r1 -> Inits init j r1 r ->
    Inits init (S j) (Token.mk Token.comma s :: ts) r.

(** [('int'|'bool') name {',' name} ['=' initList] ';'], the initialisers
    never more than the names. *)
Inductive Declaration : list Token -> list Token -> Prop :=
| Declaration_int : forall s0 x k ts s r,
    Names k ts (Token.mk Token.semicolon s :: r) ->
    Declaration (Token.mk Token.KW_int s0 :: Token.mk Token.ident x :: ts) r
| Declaration_bool : forall s0 x k ts s r,
    Names k ts (Token.mk Token.semicolon s :: r) ->
    Declaration (Token.mk Token.KW_bool s0 :: Token.mk Token.ident x :: ts) r
| Declaration_int_init : forall s0 x k ts s1 ts1 r1 j s r,
    Names k ts (Token.mk Token.assign s1 :: ts1) ->
    Expr ts1 r1 ->
    Inits Expr j r1 (Token.mk Token.semicolon s :: r) ->
    j <= k ->
    Declaration (Token.mk Token.KW_int s0 :: Token.mk Token.ident x :: ts) r
| Declaration_bool_init : forall s0 x k ts s1 ts1 r1 j s r,
    Names k ts (Token.mk Token.assign s1 :: ts1) ->
    Logic ts1 r1 ->
    Inits Logic j r1 (Token.mk Token.semicolon s :: r) ->
    j <= k ->
    Declaration (Token.mk Token.KW_bool s0 :: Token.mk Token.ident x :: ts) r.

(** The top-level statements whose routines the sources contain. *)
Inductive Statement : list Token -> list Token -> Prop :=
| Statement_declaration : forall ts r,
    Declaration ts r -> Statement ts r
| Statement_assignment : forall ts s r,
    Assignment ts (Token.mk Token.semicolon s :: r) -> Statement ts r
| Statement_increment : forall x s1 s2 r,
    Statement (Token.mk Token.ident x :: Token.mk Token.plus_plus s1 ::
               Token.mk Token.semicolon s2 :: r) r
| Statement_decrement : forall x s1 s2 r,
    Statement (Token.mk Token.ident x :: Token.mk Token.minus_minus s1 ::
               Token.mk Token.semicolon s2 :: r) r
| Statement_if : forall ts r, IfStmt ts r -> Statement ts r.

(** [Program := {Statement}]: the whole token sequence is [k] top-level
    statements. *)
Inductive Program : nat -> list Token -> Prop :=
| Program_nil : Program 0 []
| Program_statement : forall k ts r,
    Statement ts r -> Program k r -> Program (S k) ts.

End Rules.

End Grammar.

(** ** Example inputs *)

Definition tk (K : TokenKind) (s : string) : Token := Token.mk K s.

Definition t_id (s : string) : Token := tk Token.ident s.
Definition t_num (s : string) : Token := tk Token.number s.
Definition t_semi : Token := tk Token.semicolon ";".
Definition t_assign : Token := tk Token.assign "=".
Definition t_comma : Token := tk Token.comma ",".
Definition t_plus : Token := tk Token.plus "+".
Definition t_exp : Token := tk Token.exp "^".
Definition t_lparen : Token := tk Token.l_paren "(".
Definition t_rparen : Token := tk Token.r_paren ")".
Definition t_int : Token := tk Token.KW_int "int".
Definition t_colon : Token := tk Token.colon ":".
Definition t_begin : Token := tk Token.KW_begin "begin".
Definition t_end : Token := tk Token.KW_end "end".

Definition two_pow_three_pow_two : list Token :=
  [t_num "2"; t_exp; t_num "3"; t_exp; t_num "2"].

Definition plus_paren_one : list Token :=
  [t_plus; t_lparen; t_num "1"; t_rparen].

Definition x_eq_five : list Token :=
  [t_id "x"; tk Token.eq "=="; t_num "5"].

Definition int_a_b_1_2 : list Token :=
  [t_int; t_id "a"; t_comma; t_id "b"; t_assign;
   t_num "1"; t_comma; t_num "2"; t_semi].

Definition int_a_b_1_2_3 : list Token :=
  [t_int; t_id "a"; t_comma; t_id "b"; t_assign;
   t_num "1"; t_comma; t_num "2"; t_comma; t_num "3"; t_semi].

Definition int_a_b_1 : list Token :=
  [t_int; t_id "a"; t_comma; t_id "b"; t_assign; t_num "1"; t_semi].

Definition one_eq_two : list Token :=
  [t_num "1"; tk Token.eq "=="; t_num "2"].

Definition x_assign_1 : list Token :=
  [t_id "x"; t_assign; t_num "1"; t_semi].

Definition x_incr_plus_assign_1 : list Token :=
  [t_id "x"; tk Token.plus_plus "++"; tk Token.plus_assign "+=";
   t_num "1"; t_semi].

Definition int_a_then_incr : list Token :=
  [t_int; t_id "a"; t_semi; t_id "a"; tk Token.plus_plus "++"; t_semi].

Definition two_statements : list (AST unit unit) :=
  [AST_Declaration (new_Declaration ["a"] []);
   AST_UnaryOp (UnaryOp UnaryOp.Plus_plus "a")].

Definition int_a_then_int_semi : list Token :=
  [t_int; t_id "a"; t_semi; t_int; t_semi].

Definition if_true_empty : list Token :=
  [tk Token.KW_if "if"; tk Token.true_ "true"; t_colon; t_begin; t_end].

Definition if_true_empty_else_empty : list Token :=
  if_true_empty ++ [tk Token.KW_else "else"; t_colon; t_begin; t_end].

Definition if_true_empty_node : IfStmt :=
  new_IfStmt (Comparison None None None "true") [] [] [].

Definition x_eq_y_and_z : list Token :=
  [t_id "x"; t_assign; t_id "y"; tk Token.KW_and "&&"; t_id "z"; t_semi].

Definition x_eq_1_plus_2 : list Token :=
  [t_id "x"; t_assign; t_num "1"; t_plus; t_num "2"; t_semi].

Definition x_eq_y_plus_z : list Token :=
  [t_id "x"; t_assign; t_id "y"; t_plus; t_id "z"; t_semi].

Definition int_a_eq_plus : list Token :=
  [t_int; t_id "a"; t_assign; t_plus; t_semi].

Definition x_eq_semi : list Token := [t_id "x"; t_assign; t_semi].

Definition seven_minus_two_minus_one : list Token :=
  [t_num "7"; tk Token.minus "-"; t_num "2"; tk Token.minus "-"; t_num "1"].

Definition eight_div_four_mod_three : list Token :=
  [t_num "8"; tk Token.slash "/"; t_num "4"; tk Token.mod_ "%"; t_num "3"].

Definition one_plus_two_times_three : list Token :=
  [t_num "1"; t_plus; t_num "2"; tk Token.star "*"; t_num "3"].

Definition a_or_b_and_c : list Token :=
  [t_id "a"; tk Token.KW_or "||"; t_id "b"; tk Token.KW_and "&&"; t_id "c"].

Definition paren_a_and_b : list Token :=
  [t_lparen; t_id "a"; tk Token.KW_and "&&"; t_id "b"; t_rparen].

Definition x_minus_assign_1 : list Token :=
  [t_id "x"; tk Token.minus_assign "-="; t_num "1"; t_semi].

Definition loopc_true_empty : list Token :=
  [tk Token.KW_loopc "loopc"; tk Token.true_ "true"; t_colon; t_begin;
   t_end].

Definition if_true_begin : list Token :=
  [tk Token.KW_if "if"; tk Token.true_ "true"; t_colon; t_begin].

Definition if_1_eq_2 : list Token :=
  [tk Token.KW_if "if"; tk Token.true_ "true"; t_colon; t_begin;
   t_num "1"; t_assign; t_num "2"; t_semi; t_end].

Definition x_eq_paren_rel : list Token :=
  [t_id "x"; t_assign; t_lparen; t_num "1"; t_plus; t_num "2"; t_rparen;
   tk Token.eq "=="; t_num "3"; t_semi].

(** int a, b = 1, 2 ;  x = 1 + 2 ;  x = a && true ;
    if true : begin x -= 1 ; end elif b : begin end
    else : begin x = ( 3 ) ; end  x ++ ; *)
Definition five_statements : list Token :=
  [t_int; t_id "a"; t_comma; t_id "b"; t_assign; t_num "1"; t_comma;
   t_num "2"; t_semi;
   t_id "x"; t_assign; t_num "1"; t_plus; t_num "2"; t_semi;
   t_id "x"; t_assign; t_id "a"; tk Token.KW_and "&&";
   tk Token.true_ "true"; t_semi;
   tk Token.KW_if "if"; tk Token.true_ "true"; t_colon; t_begin;
   t_id "x"; tk Token.minus_assign "-="; t_num "1"; t_semi; t_end;
   tk Token.KW_elif "elif"; t_id "b"; t_colon; t_begin; t_end;
   tk Token.KW_else "else"; t_colon; t_begin;
   t_id "x"; t_assign; t_lparen; t_num "3"; t_rparen; t_semi; t_end;
   t_id "x"; tk Token.plus_plus "++"; t_semi].

Definition bool_b_x_eq_5 : list Token :=
  [tk Token.KW_bool "bool"; t_id "b"; t_assign; t_id "x"; tk Token.eq "==";
   t_num "5"; t_semi].

Definition x_plus_assign_plus_paren_1 : list Token :=
  [t_id "x"; tk Token.plus_assign "+="; t_plus; t_lparen; t_num "1";
   t_rparen; t_semi].

(** * Properties *)

(** ** The token cursor *)

Lemma kind_eqb_eq (a b : TokenKind) : Token.kind_eqb a b = true <-> a = b.
Proof.
  unfold Token.kind_eqb. destruct (Token.kind_eq_dec a b); split;
    intros; congruence.
Qed.

Lemma kind_eqb_refl (a : TokenKind) : Token.kind_eqb a a = true.
Proof. now apply kind_eqb_eq. Qed.

Lemma Tok_is_true (P : Parser) (K : TokenKind) :
  Tok_is P K = true <-> getKind P = K.
Proof. apply kind_eqb_eq. Qed.

Lemma Tok_is_false (P : Parser) (K : TokenKind) :
  Tok_is P K = false <-> getKind P <> K.
Proof.
  rewrite <- Tok_is_true. destruct (Tok_is P K); split; congruence.
Qed.

Lemma skip_tokens_eoi (ts : list Token) :
  match skip_tokens ts with
  | [] => True
  | t :: _ => Token.Kind t = Token.eoi
  end.
Proof.
  induction ts as [|t ts IH]; simpl; [exact I|].
  destruct (Token.kind_eqb (Token.Kind t) Token.eoi) eqn:E; [|exact IH].
  now apply kind_eqb_eq.
Qed.

Lemma skip_to_eoi_at_eoi (P : Parser) : at_eoi (skip_to_eoi P).
Proof.
  unfold at_eoi, getKind, skip_to_eoi; simpl.
  pose proof (skip_tokens_eoi (Tok P)) as H.
  destruct (skip_tokens (Tok P)); [reflexivity | exact H].
Qed.

Lemma skip_tokens_idem (ts : list Token) :
  skip_tokens (skip_tokens ts) = skip_tokens ts.
Proof.
  induction ts as [|t ts IH]; simpl; [reflexivity|].
  destruct (Token.kind_eqb (Token.Kind t) Token.eoi) eqn:E; [|exact IH].
  simpl. now rewrite E.
Qed.

Lemma skip_to_eoi_idem (P : Parser) :
  skip_to_eoi (skip_to_eoi P) = skip_to_eoi P.
Proof. unfold skip_to_eoi, setTok; simpl. now rewrite skip_tokens_idem. Qed.

(** ** The budget only decides whether a routine finishes

    A routine run with a larger budget returns what it returned with the
    smaller one. *)

Lemma res_le_refl {A : Type} (r : result A) : res_le r r.
Proof. intros a P H; exact H. Qed.

Lemma res_le_fuel {A : Type} (r : result A) : res_le OutOfFuel r.
Proof. intros a P H; discriminate H. Qed.

Lemma res_le_bind {A B : Type} (r1 r2 : result A)
      (k1 k2 : A -> Parser -> result B) :
  res_le r1 r2 -> (forall a P, res_le (k1 a P) (k2 a P)) ->
  res_le (bind r1 k1) (bind r2 k2).
Proof.
  intros Hr Hk b P' H. destruct r1 as [|a P]; [discriminate H|].
  rewrite (Hr a P eq_refl). simpl in *. now apply Hk.
Qed.

Lemma res_le_call {A B : Type} (r1 r2 : result (option A))
      (k1 k2 : A -> Parser -> result (option B)) :
  res_le r1 r2 -> (forall a P, res_le (k1 a P) (k2 a P)) ->
  res_le (call r1 k1) (call r2 k2).
Proof.
  intros Hr Hk. apply res_le_bind; [exact Hr|].
  intros [a|] P; [apply Hk | apply res_le_refl].
Qed.

Lemma res_le_expecting {A : Type} (P : Parser) (K : TokenKind)
      (k1 k2 : Parser -> result (option A)) :
  (forall P1, res_le (k1 P1) (k2 P1)) ->
  res_le (expecting P K k1) (expecting P K k2).
Proof.
  intros Hk. unfold expecting. destruct (expect P K) as [[|] P1];
    [apply res_le_refl | apply Hk].
Qed.

(** Peel one layer of a routine's body on both sides of [res_le]. *)
Ltac res_le_step :=
  match goal with
  | |- res_le OutOfFuel _ => apply res_le_fuel
  | |- res_le ?r ?r => apply res_le_refl
  | |- res_le (call _ _) (call _ _) => apply res_le_call; [|intros ? ?]
  | |- res_le (bind _ _) (bind _ _) => apply res_le_bind; [|intros ? ?]
  | |- res_le (expecting _ _ _) (expecting _ _ _) =>
      apply res_le_expecting; intros ?
  | |- res_le (if ?b then _ else _) (if ?b then _ else _) => destruct b
  | |- res_le (match ?x with _ => _ end) (match ?x with _ => _ end) =>
      destruct x
  | |- res_le (let (_, _) := ?x in _) (let (_, _) := ?x in _) => destruct x
  end.

Create HintDb res_le.

Ltac res_le_auto := repeat (res_le_step || assumption || auto with res_le).

(** Arithmetic expressions. *)
Lemma arith_fuel_le (n : nat) : forall m, n <= m ->
  (forall P, res_le (parseExpr n P) (parseExpr m P)) /\
  (forall L P, res_le (parseExpr_loop n L P) (parseExpr_loop m L P)) /\
  (forall P, res_le (parseTerm n P) (parseTerm m P)) /\
  (forall L P, res_le (parseTerm_loop n L P) (parseTerm_loop m L P)) /\
  (forall P, res_le (parseFactor n P) (parseFactor m P)) /\
  (forall L P, res_le (parseFactor_loop n L P) (parseFactor_loop m L P)) /\
  (forall P, res_le (parseFinal n P) (parseFinal m P)).
Proof.
  induction n as [|n IH]; intros m Hle.
  - repeat split; intros; apply res_le_fuel.
  - destruct m as [|m]; [lia|].
    destruct (IH m ltac:(lia))
      as (IHe & IHel & IHt & IHtl & IHf & IHfl & IHfin).
    repeat split; intros; simpl; res_le_auto.
Qed.

Lemma parseExpr_fuel_le (n m : nat) (P : Parser) :
  n <= m -> res_le (parseExpr n P) (parseExpr m P).
Proof. intros H. apply (arith_fuel_le n m H). Qed.

Lemma parseFactor_fuel_le (n m : nat) (P : Parser) :
  n <= m -> res_le (parseFactor n P) (parseFactor m P).
Proof. intros H. apply (arith_fuel_le n m H). Qed.

Lemma parseFactor_loop_fuel_le (n m : nat) (L : Expr) (P : Parser) :
  n <= m -> res_le (parseFactor_loop n L P) (parseFactor_loop m L P).
Proof. intros H. apply (arith_fuel_le n m H). Qed.

Lemma parseFinal_fuel_le (n m : nat) (P : Parser) :
  n <= m -> res_le (parseFinal n P) (parseFinal m P).
Proof. intros H. apply (arith_fuel_le n m H). Qed.

#[local] Hint Resolve parseExpr_fuel_le parseFactor_fuel_le
  parseFactor_loop_fuel_le parseFinal_fuel_le : res_le.

(** Logic expressions. *)
Lemma logic_fuel_le (n : nat) : forall m, n <= m ->
  (forall P, res_le (parseLogic n P) (parseLogic m P)) /\
  (forall L P, res_le (parseLogic_loop n L P) (parseLogic_loop m L P)) /\
  (forall P, res_le (parseComparison n P) (parseComparison m P)).
Proof.
  induction n as [|n IH]; intros m Hle.
  - repeat split; intros; apply res_le_fuel.
  - destruct m as [|m]; [lia|].
    assert (n <= m) as Hnm by lia.
    destruct (IH m Hnm) as (IHl & IHll & IHc).
    repeat split; intros; simpl; res_le_auto.
Qed.

Lemma parseLogic_fuel_le (n m : nat) (P : Parser) :
  n <= m -> res_le (parseLogic n P) (parseLogic m P).
Proof. intros H. apply (logic_fuel_le n m H). Qed.

Lemma parseComparison_fuel_le (n m : nat) (P : Parser) :
  n <= m -> res_le (parseComparison n P) (parseComparison m P).
Proof. intros H. apply (logic_fuel_le n m H). Qed.

#[local] Hint Resolve parseLogic_fuel_le parseComparison_fuel_le : res_le.

(** Statements. *)
Lemma parseAssign_fuel_le (n m : nat) (P : Parser) :
  n <= m -> res_le (parseAssign n P) (parseAssign m P).
Proof. intros H. unfold parseAssign. res_le_auto. Qed.

#[local] Hint Resolve parseAssign_fuel_le : res_le.

Lemma parseDec_vars_fuel_le (n : nat) : forall m Vars count P, n <= m ->
  res_le (parseDec_vars n Vars count P) (parseDec_vars m Vars count P).
Proof.
  induction n as [|n IH]; intros m Vars count P Hle;
    [apply res_le_fuel|].
  destruct m as [|m]; [lia|]. simpl. res_le_auto; try (apply IH; lia).
Qed.

Lemma parseDec_values_fuel_le (n : nat) :
  forall m (f g : Parser -> result (option Init)) Values count P,
  n <= m -> (forall P1, res_le (f P1) (g P1)) ->
  res_le (parseDec_values n f Values count P)
         (parseDec_values m g Values count P).
Proof.
  induction n as [|n IH]; intros m f g Values count P Hle Hfg;
    [apply res_le_fuel|].
  destruct m as [|m]; [lia|]. simpl.
  res_le_auto; try (apply IH; [lia|exact Hfg]).
Qed.

Lemma parseDec_fuel_le (KW : TokenKind)
      (f g : Parser -> result (option Init)) (n m : nat) (P : Parser) :
  n <= m -> (forall P1, res_le (f P1) (g P1)) ->
  res_le (parseDec KW f n P) (parseDec KW g m P).
Proof.
  intros Hle Hfg. unfold parseDec.
  res_le_auto;
    try (now apply parseDec_vars_fuel_le);
    try (now apply parseDec_values_fuel_le).
Qed.

Lemma parseIntDec_fuel_le (n m : nat) (P : Parser) :
  n <= m -> res_le (parseIntDec n P) (parseIntDec m P).
Proof.
  intros H. apply parseDec_fuel_le; [exact H|].
  intros P1. unfold initExpr. res_le_auto.
Qed.

Lemma parseBoolDec_fuel_le (n m : nat) (P : Parser) :
  n <= m -> res_le (parseBoolDec n P) (parseBoolDec m P).
Proof.
  intros H. apply parseDec_fuel_le; [exact H|].
  intros P1. unfold initLogic. res_le_auto.
Qed.

Lemma parseBlock_fuel_le (n : nat) : forall m assignments P, n <= m ->
  res_le (parseBlock n assignments P) (parseBlock m assignments P).
Proof.
  induction n as [|n IH]; intros m assignments P Hle; [apply res_le_fuel|].
  destruct m as [|m]; [lia|]. assert (n <= m) by lia.
  simpl. res_le_auto; try now apply IH.
Qed.

#[local] Hint Resolve parseBlock_fuel_le : res_le.

Lemma parseElifs_fuel_le (n : nat) : forall m elifStmts P, n <= m ->
  res_le (parseElifs n elifStmts P) (parseElifs m elifStmts P).
Proof.
  induction n as [|n IH]; intros m elifStmts P Hle; [apply res_le_fuel|].
  destruct m as [|m]; [lia|]. assert (n <= m) by lia.
  simpl. res_le_auto; try now apply IH.
Qed.

#[local] Hint Resolve parseElifs_fuel_le : res_le.

Lemma parseIf_fuel_le (n m : nat) (P : Parser) :
  n <= m -> res_le (parseIf n P) (parseIf m P).
Proof. intros H. unfold parseIf. res_le_auto. Qed.

Lemma parseIter_fuel_le (n m : nat) (P : Parser) :
  n <= m -> res_le (parseIter n P) (parseIter m P).
Proof. intros H. unfold parseIter. res_le_auto. Qed.

Lemma parseProgram_ident_fuel_le (n m : nat) (P : Parser) :
  n <= m -> res_le (parseProgram_ident n P) (parseProgram_ident m P).
Proof. intros H. unfold parseProgram_ident. res_le_auto. Qed.

#[local] Hint Resolve parseIntDec_fuel_le parseBoolDec_fuel_le parseIf_fuel_le
  parseProgram_ident_fuel_le : res_le.

(** ** Error paths end at the end of input *)

Lemma aborts_panic {A : Type} (P : Parser) : aborts (@panic A P).
Proof.
  intros P' H. injection H as <-. apply skip_to_eoi_at_eoi.
Qed.

Lemma aborts_Some {A : Type} (a : A) (P : Parser) : aborts (Ret (Some a) P).
Proof. intros P' H. discriminate H. Qed.

Lemma aborts_fuel {A : Type} : aborts (@OutOfFuel (option A)).
Proof. intros P' H. discriminate H. Qed.

Lemma aborts_bind {A B : Type} (r : result A)
      (k : A -> Parser -> result (option B)) :
  (forall a P, aborts (k a P)) -> aborts (bind r k).
Proof. intros Hk. destruct r as [|a P]; [apply aborts_fuel | apply Hk]. Qed.

Lemma aborts_call {A B : Type} (r : result (option A))
      (k : A -> Parser -> result (option B)) :
  (forall a P, aborts (k a P)) -> aborts (call r k).
Proof.
  intros Hk. apply aborts_bind. intros [a|] P; [apply Hk | apply aborts_panic].
Qed.

Lemma aborts_expecting {A : Type} (P : Parser) (K : TokenKind)
      (k : Parser -> result (option A)) :
  (forall P1, aborts (k P1)) -> aborts (expecting P K k).
Proof.
  intros Hk. unfold expecting. destruct (expect P K) as [[|] P1];
    [apply aborts_panic | apply Hk].
Qed.

Ltac aborts_step :=
  match goal with
  | |- aborts OutOfFuel => apply aborts_fuel
  | |- aborts (panic _) => apply aborts_panic
  | |- aborts (Ret (Some _) _) => apply aborts_Some
  | |- aborts (call _ _) => apply aborts_call; intros ? ?
  | |- aborts (bind _ _) => apply aborts_bind; intros ? ?
  | |- aborts (expecting _ _ _) => apply aborts_expecting; intros ?
  | |- aborts (if ?b then _ else _) => destruct b
  | |- aborts (match ?x with _ => _ end) => destruct x
  | |- aborts (let (_, _) := ?x in _) => destruct x
  end.

Create HintDb aborts.

Ltac aborts_auto := repeat (aborts_step || assumption || auto with aborts).

Lemma arith_aborts (n : nat) :
  (forall P, aborts (parseExpr n P)) /\
  (forall L P, aborts (parseExpr_loop n L P)) /\
  (forall P, aborts (parseTerm n P)) /\
  (forall L P, aborts (parseTerm_loop n L P)) /\
  (forall P, aborts (parseFactor n P)) /\
  (forall L P, aborts (parseFactor_loop n L P)) /\
  (forall P, aborts (parseFinal n P)).
Proof.
  induction n as [|n (IHe & IHel & IHt & IHtl & IHf & IHfl & IHfin)].
  - repeat split; intros; apply aborts_fuel.
  - repeat split; intros; simpl; aborts_auto.
Qed.

Lemma parseExpr_aborts (n : nat) (P : Parser) : aborts (parseExpr n P).
Proof. apply arith_aborts. Qed.

Lemma parseTerm_aborts (n : nat) (P : Parser) : aborts (parseTerm n P).
Proof. apply arith_aborts. Qed.

Lemma parseFactor_aborts (n : nat) (P : Parser) : aborts (parseFactor n P).
Proof. apply arith_aborts. Qed.

Lemma parseFinal_aborts (n : nat) (P : Parser) : aborts (parseFinal n P).
Proof. apply arith_aborts. Qed.

Lemma logic_aborts (n : nat) :
  (forall P, aborts (parseLogic n P)) /\
  (forall L P, aborts (parseLogic_loop n L P)) /\
  (forall P, aborts (parseComparison n P)).
Proof.
  induction n as [|n (IHl & IHll & IHc)].
  - repeat split; intros; apply aborts_fuel.
  - repeat split; intros; simpl; aborts_auto.
Qed.

Lemma parseLogic_aborts (n : nat) (P : Parser) : aborts (parseLogic n P).
Proof. apply logic_aborts. Qed.

Lemma parseComparison_aborts (n : nat) (P : Parser) :
  aborts (parseComparison n P).
Proof. apply logic_aborts. Qed.

Lemma parseAssign_aborts (n : nat) (P : Parser) : aborts (parseAssign n P).
Proof. unfold parseAssign. aborts_auto. Qed.

Lemma parseUnary_aborts (P : Parser) : aborts (parseUnary P).
Proof. unfold parseUnary. aborts_auto. Qed.

Lemma parseDec_vars_aborts (n : nat) :
  forall Vars count P, aborts (parseDec_vars n Vars count P).
Proof.
  induction n as [|n IH]; intros; simpl; aborts_auto.
Qed.

Lemma parseDec_values_aborts (n : nat) :
  forall f Values count P, aborts (parseDec_values n f Values count P).
Proof.
  induction n as [|n IH]; intros; simpl; aborts_auto.
Qed.

Lemma parseDec_aborts (KW : TokenKind) (f : Parser -> result (option Init))
      (n : nat) (P : Parser) : aborts (parseDec KW f n P).
Proof. unfold parseDec. aborts_auto. Qed.

Lemma parseIntDec_aborts (n : nat) (P : Parser) : aborts (parseIntDec n P).
Proof. apply parseDec_aborts. Qed.

Lemma parseBoolDec_aborts (n : nat) (P : Parser) : aborts (parseBoolDec n P).
Proof. apply parseDec_aborts. Qed.

Lemma parseBlock_aborts (n : nat) :
  forall assignments P, aborts (parseBlock n assignments P).
Proof.
  induction n as [|n IH]; intros; simpl; aborts_auto.
Qed.

Lemma parseElifs_aborts (n : nat) :
  forall elifStmts P, aborts (parseElifs n elifStmts P).
Proof.
  induction n as [|n IH]; intros; simpl; aborts_auto.
Qed.

Lemma parseIf_aborts (n : nat) (P : Parser) : aborts (parseIf n P).
Proof. unfold parseIf. aborts_auto. Qed.

Lemma parseIter_aborts (n : nat) (P : Parser) : aborts (parseIter n P).
Proof. unfold parseIter. aborts_auto. Qed.

(** ** Exponentiation *)

Lemma parseFactor_loop_done (n : nat) (L : Expr) (P : Parser) :
  Tok_is P Token.exp = false ->
  parseFactor_loop (S n) L P = Ret (Some L) P.
Proof. intros H. simpl. now rewrite H. Qed.

Lemma parseFactor_loop_exp (n : nat) (L : Expr) (P : Parser) :
  Tok_is P Token.exp = true ->
  parseFactor_loop (S n) L P =
  do Right, P1 <- parseFactor n (advance P);
  parseFactor_loop n (BinaryOp BinaryOp.Exp L Right) P1.
Proof. intros H. simpl. now rewrite H. Qed.

(** After a successful parseFactor the current token is not [^]: the loop
    of parseFactor only ends there. *)
Lemma parseFactor_stops (n : nat) :
  (forall P e P', parseFactor n P = Ret (Some e) P' ->
                  Tok_is P' Token.exp = false) /\
  (forall L P e P', parseFactor_loop n L P = Ret (Some e) P' ->
                    Tok_is P' Token.exp = false).
Proof.
  induction n as [|n [IHf IHl]]; [split; intros; discriminate|].
  split.
  - intros P e P' H. simpl in H. unfold call, bind in H.
    destruct (parseFinal n P) as [|[a|] P1]; try discriminate.
    now apply IHl in H.
  - intros L P e P' H. simpl in H.
    destruct (Tok_is P Token.exp) eqn:E.
    + unfold call, bind in H.
      destruct (parseFactor n (advance P)) as [|[a|] P1]; try discriminate.
      now apply IHl in H.
    + injection H as _ <-. exact E.
Qed.

(** [Factor := Final '^' Factor]: the operand to the right of [^] is a whole
    Factor, which becomes the right child. *)
Lemma parseFactor_right_recursive (n : nat) (P P1 P2 : Parser) (a r : Expr) :
  parseFinal n P = Ret (Some a) P1 ->
  Tok_is P1 Token.exp = true ->
  parseFactor n (advance P1) = Ret (Some r) P2 ->
  parseFactor (S (S n)) P = Ret (Some (BinaryOp BinaryOp.Exp a r)) P2.
Proof.
  intros Ha Hexp Hr.
  assert (exists k, n = S k) as [k ->].
  { destruct n; [discriminate Ha | eauto]. }
  change (parseFactor (S (S (S k))) P) with
    (do Left, Q <- parseFinal (S (S k)) P; parseFactor_loop (S (S k)) Left Q).
  rewrite (parseFinal_fuel_le (S k) (S (S k)) P ltac:(lia) _ _ Ha).
  unfold call at 1, bind. rewrite (parseFactor_loop_exp _ _ _ Hexp).
  rewrite Hr. unfold call, bind.
  apply parseFactor_loop_done. apply (proj1 (parseFactor_stops _) _ _ _ Hr).
Qed.

Lemma parseFactor_single (n : nat) (P P1 : Parser) (a : Expr) :
  parseFinal n P = Ret (Some a) P1 ->
  Tok_is P1 Token.exp = false ->
  parseFactor (S n) P = Ret (Some a) P1.
Proof.
  intros Ha Hexp.
  assert (exists k, n = S k) as [k ->].
  { destruct n; [discriminate Ha | eauto]. }
  change (parseFactor (S (S k)) P) with
    (do Left, Q <- parseFinal (S k) P; parseFactor_loop (S k) Left Q).
  rewrite Ha. unfold call, bind. now apply parseFactor_loop_done.
Qed.

(** C5: the exponent operator is right-associative.  When three operands
    [a], [b], [c] (each parsed by parseFinal) are joined by [^], and the
    token after [c] is not [^], parseFactor builds
    [BinaryOp(Exp, a, BinaryOp(Exp, b, c))], with any budget at least five
    above the one the operands need. *)
Theorem C5_exp_right_assoc
  (n m : nat) (P P1 P2 P3 : Parser) (a b c : Expr)
  (Ha : parseFinal n P = Ret (Some a) P1)
  (Hab : Tok_is P1 Token.exp = true)
  (Hb : parseFinal n (advance P1) = Ret (Some b) P2)
  (Hbc : Tok_is P2 Token.exp = true)
  (Hc : parseFinal n (advance P2) = Ret (Some c) P3)
  (Hend : Tok_is P3 Token.exp = false)
  (Hm : n + 5 <= m) :
  parseFactor m P =
  Ret (Some (BinaryOp BinaryOp.Exp a (BinaryOp BinaryOp.Exp b c))) P3.
Proof.
  apply (parseFactor_fuel_le (S (S (S (S (S n))))) m P ltac:(lia)).
  apply parseFactor_right_recursive with (P1 := P1).
  - apply (parseFinal_fuel_le n (S (S (S n))) P ltac:(lia) _ _ Ha).
  - exact Hab.
  - apply parseFactor_right_recursive with (P1 := P2).
    + apply (parseFinal_fuel_le n (S n) _ ltac:(lia) _ _ Hb).
    + exact Hbc.
    + now apply parseFactor_single.
Qed.

(** [2^3^2] parses as [Pow(2, Pow(3, 2))]. *)
Lemma C5_exp_right_assoc_witness :
  parseFactor 6 (start two_pow_three_pow_two) =
  Ret (Some (BinaryOp BinaryOp.Exp (Final Final.Number "2")
               (BinaryOp BinaryOp.Exp (Final Final.Number "3")
                                      (Final Final.Number "2"))))
      (start []).
Proof.
  apply (C5_exp_right_assoc 1 6
           (start two_pow_three_pow_two)
           (start [t_exp; t_num "3"; t_exp; t_num "2"])
           (start [t_exp; t_num "2"])
           (start []));
    solve [reflexivity | simpl; lia].
Defined.

(** ** The alternatives of Final *)

Lemma consume_ok (P : Parser) (K : TokenKind) :
  getKind P = K -> consume P K = (false, advance P).
Proof.
  intros H. unfold consume, expect. apply Tok_is_true in H. now rewrite H.
Qed.

Lemma consume_bad (P : Parser) (K : TokenKind) :
  getKind P <> K -> consume P K = (true, error P).
Proof.
  intros H. unfold consume, expect. apply Tok_is_false in H. now rewrite H.
Qed.

Lemma parseFinal_sound (n : nat) (P : Parser) (e : Expr) (P' : Parser) :
  parseFinal n P = Ret (Some e) P' -> FinalAlt P e P'.
Proof.
  destruct n as [|n]; [discriminate|]. simpl.
  destruct (getKind P) eqn:K; try discriminate.
  - (* identifier *)
    destruct (Tok_is (advance P) Token.plus_plus) eqn:E1.
    { intros H; injection H as <- <-. apply FA_increment; [exact K|].
      now apply Tok_is_true. }
    destruct (Tok_is (advance P) Token.minus_minus) eqn:E2.
    { intros H; injection H as <- <-. apply FA_decrement; [exact K|].
      now apply Tok_is_true. }
    intros H; injection H as <- <-.
    apply FA_ident; [exact K| |]; now apply Tok_is_false.
  - (* number *)
    intros H; injection H as <- <-. now apply FA_number.
  - (* plus *)
    destruct (Tok_is (advance P) Token.number) eqn:E1; [|discriminate].
    intros H; injection H as <- <-. apply FA_plus_number; [exact K|].
    now apply Tok_is_true.
  - (* minus *)
    destruct (Tok_is (advance P) Token.number) eqn:E1.
    { intros H; injection H as <- <-. apply FA_minus_number; [exact K|].
      now apply Tok_is_true. }
    destruct (Tok_is (advance P) Token.l_paren) eqn:E2; [|discriminate].
    unfold call, bind.
    destruct (parseExpr n (advance (advance P))) as [|[x|] P2] eqn:E3;
      try discriminate.
    destruct (Token.kind_eq_dec (getKind P2) Token.r_paren) as [R|R].
    + rewrite (consume_ok _ _ R). simpl.
      intros H; injection H as <- <-.
      apply FA_minus_paren with (n := n); auto. now apply Tok_is_true.
    + rewrite (consume_bad _ _ R). discriminate.
  - (* left parenthesis *)
    unfold call, bind.
    destruct (parseExpr n (advance P)) as [|[x|] P2] eqn:E3;
      try discriminate.
    destruct (Token.kind_eq_dec (getKind P2) Token.r_paren) as [R|R].
    + rewrite (consume_ok _ _ R). simpl.
      intros H; injection H as <- <-.
      now apply FA_paren with (n := n).
    + rewrite (consume_bad _ _ R). discriminate.
Qed.

Lemma parseFinal_complete (P : Parser) (e : Expr) (P' : Parser) :
  FinalAlt P e P' -> exists n, parseFinal n P = Ret (Some e) P'.
Proof.
  intros [K|K N1 N2|K K1|K K1|K K1|n x P2 K K1 E R|K K1|n x P2 K E R].
  - exists 1. simpl. now rewrite K.
  - exists 1. simpl. rewrite K.
    apply Tok_is_false in N1, N2. now rewrite N1, N2.
  - exists 1. simpl. rewrite K. apply Tok_is_true in K1. now rewrite K1.
  - exists 1. simpl. rewrite K.
    assert (Tok_is (advance P) Token.plus_plus = false) as ->.
    { apply Tok_is_false. rewrite K1. discriminate. }
    apply Tok_is_true in K1. now rewrite K1.
  - exists 1. simpl. rewrite K. apply Tok_is_true in K1. now rewrite K1.
  - exists (S n). simpl. rewrite K.
    assert (Tok_is (advance P) Token.number = false) as ->.
    { apply Tok_is_false. rewrite K1. discriminate. }
    apply Tok_is_true in K1. rewrite K1, E. unfold call, bind.
    now rewrite (consume_ok _ _ R).
  - exists 1. simpl. rewrite K. apply Tok_is_true in K1. now rewrite K1.
  - exists (S n). simpl. rewrite K, E. unfold call, bind.
    now rewrite (consume_ok _ _ R).
Qed.

(** C9 (as amended): parseFinal succeeds exactly through one of these
    alternatives: a numeric literal; an identifier, folded into a UnaryOp
    node when [++] or [--] follows at once; after a leading minus, a numeric
    literal (a signed number) or a parenthesised expression (negated); after
    a leading plus, a numeric literal only; or a parenthesised expression. *)
Theorem C9_final_alternatives (P : Parser) (e : Expr) (P' : Parser) :
  (exists n, parseFinal n P = Ret (Some e) P') <-> FinalAlt P e P'.
Proof.
  split.
  - intros [n H]. exact (parseFinal_sound n P e P' H).
  - apply parseFinal_complete.
Qed.

(** C9, as stated, fails: [+ ( 1 )] is not accepted as a Final, while the
    parenthesised [( 1 )] alone is. *)
Lemma C9_plus_paren_rejected :
  parseFinal 10 (start plus_paren_one) = Ret None (start []) /\
  parseFinal 10 (start (tl plus_paren_one)) =
  Ret (Some (Final Final.Number "1")) (start []).
Proof. split; reflexivity. Qed.

(** ** Comparisons that start with an identifier *)

Lemma parseFactor_loop_leftmost (n : nat) : forall L P e P',
  parseFactor_loop n L P = Ret (Some e) P' -> leftmost e = leftmost L.
Proof.
  induction n as [|n IH]; intros L P e P' H; [discriminate|].
  simpl in H. destruct (Tok_is P Token.exp).
  - unfold call, bind in H.
    destruct (parseFactor n (advance P)) as [|[r|] P1]; try discriminate.
    now rewrite (IH _ _ _ _ H).
  - now injection H as <- _.
Qed.

Lemma parseTerm_loop_leftmost (n : nat) : forall L P e P',
  parseTerm_loop n L P = Ret (Some e) P' -> leftmost e = leftmost L.
Proof.
  induction n as [|n IH]; intros L P e P' H; [discriminate|].
  simpl in H.
  destruct (Tok_is P Token.star || (Tok_is P Token.mod_
            || (Tok_is P Token.slash || false))).
  - destruct (if Tok_is P Token.star then Some BinaryOp.Mul
              else if Tok_is P Token.slash then Some BinaryOp.Div
              else if Tok_is P Token.mod_ then Some BinaryOp.Mod else None);
      [|discriminate].
    unfold call, bind in H.
    destruct (parseFactor n (advance P)) as [|[r|] P1]; try discriminate.
    now rewrite (IH _ _ _ _ H).
  - now injection H as <- _.
Qed.

Lemma parseExpr_loop_leftmost (n : nat) : forall L P e P',
  parseExpr_loop n L P = Ret (Some e) P' -> leftmost e = leftmost L.
Proof.
  induction n as [|n IH]; intros L P e P' H; [discriminate|].
  simpl in H.
  destruct (Tok_is P Token.plus || (Tok_is P Token.minus || false)).
  - destruct (if Tok_is P Token.plus then Some BinaryOp.Plus
              else if Tok_is P Token.minus then Some BinaryOp.Minus
              else None); [|discriminate].
    unfold call, bind in H.
    destruct (parseTerm n (advance P)) as [|[r|] P1]; try discriminate.
    now rewrite (IH _ _ _ _ H).
  - now injection H as <- _.
Qed.

Lemma parseFinal_led (n : nat) (P : Parser) (e : Expr) (P' : Parser) :
  parseFinal n P = Ret (Some e) P' -> led_by_token P e.
Proof.
  intros H. apply parseFinal_sound in H.
  destruct H; intros L; auto; discriminate L.
Qed.

Lemma parseFactor_led (n : nat) (P : Parser) (e : Expr) (P' : Parser) :
  parseFactor n P = Ret (Some e) P' -> led_by_token P e.
Proof.
  destruct n as [|n]; [discriminate|]. simpl. unfold call, bind.
  destruct (parseFinal n P) as [|[a|] P1] eqn:E; try discriminate.
  intros H L. apply (parseFinal_led _ _ _ _ E).
  unfold ident_led in *. now rewrite <- (parseFactor_loop_leftmost _ _ _ _ _ H).
Qed.

Lemma parseTerm_led (n : nat) (P : Parser) (e : Expr) (P' : Parser) :
  parseTerm n P = Ret (Some e) P' -> led_by_token P e.
Proof.
  destruct n as [|n]; [discriminate|]. simpl. unfold call, bind.
  destruct (parseFactor n P) as [|[a|] P1] eqn:E; try discriminate.
  intros H L. apply (parseFactor_led _ _ _ _ E).
  unfold ident_led in *. now rewrite <- (parseTerm_loop_leftmost _ _ _ _ _ H).
Qed.

Lemma parseExpr_led (n : nat) (P : Parser) (e : Expr) (P' : Parser) :
  parseExpr n P = Ret (Some e) P' -> led_by_token P e.
Proof.
  destruct n as [|n]; [discriminate|]. simpl. unfold call, bind.
  destruct (parseTerm n P) as [|[a|] P1] eqn:E; try discriminate.
  intros H L. apply (parseTerm_led _ _ _ _ E).
  unfold ident_led in *. now rewrite <- (parseExpr_loop_leftmost _ _ _ _ _ H).
Qed.

Lemma logic_relational_left_ok (n : nat) :
  (forall P c P', parseLogic n P = Ret (Some c) P' ->
                  relational_left_ok c) /\
  (forall L P c P', parseLogic_loop n L P = Ret (Some c) P' ->
                    relational_left_ok L -> relational_left_ok c) /\
  (forall P c P', parseComparison n P = Ret (Some c) P' ->
                  relational_left_ok c).
Proof.
  induction n as [|n (IHl & IHll & IHc)];
    [repeat split; intros; discriminate|].
  repeat split.
  - intros P c P' H. simpl in H. unfold call, bind in H.
    destruct (parseComparison n P) as [|[a|] P1] eqn:E; try discriminate.
    apply (IHll _ _ _ _ H). apply (IHc _ _ _ E).
  - intros L P c P' H HL. simpl in H.
    destruct (Tok_is P Token.KW_and || (Tok_is P Token.KW_or || false)).
    + destruct (if Tok_is P Token.KW_and then Some LogicalExpr.And
                else if Tok_is P Token.KW_or then Some LogicalExpr.Or
                else None); [|discriminate].
      unfold call, bind in H.
      destruct (parseComparison n (advance P)) as [|[r|] P1] eqn:E;
        try discriminate.
      apply (IHll _ _ _ _ H). split; [exact HL | apply (IHc _ _ _ E)].
    + now injection H as <- _.
  - intros P c P' H. simpl in H.
    destruct (Tok_is P Token.l_paren) eqn:Kp.
    { unfold call, bind in H.
      destruct (parseLogic n (advance P)) as [|[r|] P1] eqn:E;
        try discriminate.
      destruct (consume P1 Token.r_paren) as [[|] P2]; try discriminate.
      injection H as <- _. apply (IHl _ _ _ E). }
    destruct (Tok_is P Token.true_); [now injection H as <- _|].
    destruct (Tok_is P Token.false_); [now injection H as <- _|].
    destruct (Tok_is P Token.ident) eqn:Ki; [now injection H as <- _|].
    unfold call, bind in H.
    destruct (parseExpr n P) as [|[l|] P1] eqn:E; try discriminate.
    destruct (if Tok_is P1 Token.eq then Some Comparison.Equal
              else if Tok_is P1 Token.neq then Some Comparison.Not_equal
              else if Tok_is P1 Token.gt then Some Comparison.Greater
              else if Tok_is P1 Token.lt then Some Comparison.Less
              else if Tok_is P1 Token.gte then Some Comparison.Greater_equal
              else if Tok_is P1 Token.lte then Some Comparison.Less_equal
              else None); [|discriminate].
    destruct (parseExpr n (advance P1)) as [|[r|] P2]; try discriminate.
    injection H as <- _. simpl.
    destruct (ident_led l) eqn:L; [|reflexivity].
    apply Tok_is_false in Kp, Ki.
    destruct (parseExpr_led _ _ _ _ E L); contradiction.
Qed.

(** C10: when the current token is an identifier, parseComparison returns
    the identifier form (no operands, the identifier's spelling as value)
    having consumed that one token, whatever follows; hence in every logic
    tree the parser builds, no relational node has a left operand that starts
    with an identifier (a relational left operand never starts with a
    parenthesis either, so its first token is its leftmost leaf); and the
    condition [x == 5] is not parsed as a relational comparison: the parser
    stops in front of [==]. *)
Theorem C10_identifier_first_comparison :
  (forall n s rest h d,
      parseComparison (S n) (mkParser (t_id s :: rest) h d) =
      Ret (Some (Comparison None None None s)) (mkParser rest h d)) /\
  (forall n P c P',
      (parseLogic n P = Ret (Some c) P' \/
       parseComparison n P = Ret (Some c) P') ->
      relational_left_ok c) /\
  parseLogic 10 (start x_eq_five) =
  Ret (Some (Comparison None None None "x")) (start (tl x_eq_five)).
Proof.
  repeat split.
  - intros n P c P' [H|H]; [apply (logic_relational_left_ok n) in H|
                            apply (logic_relational_left_ok n) in H]; exact H.
Qed.

(** ** Declarations: initialisers never outnumber names *)

Lemma parseDec_vars_count (n : nat) : forall Vars count P Vars' count' P',
  parseDec_vars n Vars count P = Ret (Some (Vars', count')) P' ->
  (Z.of_nat (List.length Vars') - count'
   = Z.of_nat (List.length Vars) - count)%Z /\
  List.length Vars <= List.length Vars'.
Proof.
  induction n as [|n IH]; intros Vars count P Vars' count' P' H;
    [discriminate|].
  simpl in H. destruct (Tok_is P Token.comma).
  - unfold expecting in H.
    destruct (expect (advance P) Token.ident) as [[|] P1]; [discriminate|].
    apply IH in H. rewrite List.length_app in H. simpl in H. lia.
  - injection H as <- <- _. lia.
Qed.

Lemma parseDec_values_count (n : nat) : forall f Values count P Values' P',
  parseDec_values n f Values count P = Ret (Some Values') P' ->
  (0 <= count)%Z ->
  (Z.of_nat (List.length Values')
   <= Z.of_nat (List.length Values) + count)%Z.
Proof.
  induction n as [|n IH]; intros f Values count P Values' P' H Hc;
    [discriminate|].
  simpl in H. destruct (Tok_is P Token.comma).
  - destruct (count =? 0)%Z eqn:E; [discriminate|].
    apply Z.eqb_neq in E. unfold call, bind in H.
    destruct (f (advance P)) as [|[x|] P1]; try discriminate.
    apply IH in H; [|lia]. rewrite List.length_app in H. simpl in H. lia.
  - injection H as <- _. lia.
Qed.

Lemma parseDec_initialisers (KW : TokenKind)
      (f : Parser -> result (option Init)) (n : nat) (P : Parser)
      (d : Declaration) (P' : Parser) :
  parseDec KW f n P = Ret (Some d) P' ->
  List.length (Values d) <= List.length (Vars d).
Proof.
  unfold parseDec, expecting.
  destruct (expect P KW) as [[|] P0]; [discriminate|].
  destruct (expect (advance P0) Token.ident) as [[|] P1]; [discriminate|].
  unfold call at 1, bind.
  destruct (parseDec_vars n [getText P1] 1%Z (advance P1))
    as [|[[Vars' count']|] P2] eqn:EV; try discriminate.
  apply parseDec_vars_count in EV. simpl in EV.
  unfold call at 1, bind. simpl fst; simpl snd.
  destruct (Tok_is P2 Token.assign).
  - unfold call at 1, bind.
    destruct (f (advance P2)) as [|[E|] P4]; try discriminate.
    destruct (parseDec_values n f [E] (count' - 1) P4)
      as [|[Values'|] P3] eqn:EI; try discriminate.
    apply parseDec_values_count in EI; [|lia]. cbn [List.length] in EI.
    destruct (expect P3 Token.semicolon) as [[|] P5]; [discriminate|].
    intros H; injection H as <- _. simpl. lia.
  - destruct (expect P2 Token.semicolon) as [[|] P5]; [discriminate|].
    intros H; injection H as <- _. simpl. lia.
Qed.

(** The names of a declaration, up to a token that is not a comma. *)
Lemma parseDec_vars_more_names (rest : list Token) (h : bool) (d : nat)
      (xs : list string) : forall Vars count n,
  Tok_is (mkParser rest h d) Token.comma = false ->
  List.length xs < n ->
  parseDec_vars n Vars count (mkParser (more_names xs ++ rest) h d) =
  Ret (Some (Vars ++ xs, (count + Z.of_nat (List.length xs))%Z))
      (mkParser rest h d).
Proof.
  induction xs as [|y xs IH]; intros Vars count n HR Hn;
    (destruct n as [|n]; [simpl in Hn; lia|]).
  - simpl. rewrite HR. now rewrite app_nil_r, Z.add_0_r.
  - simpl in Hn.
    change (parseDec_vars (S n) Vars count
              (mkParser (more_names (y :: xs) ++ rest) h d))
      with (parseDec_vars n (Vars ++ [y]) (count + 1)%Z
              (mkParser (more_names xs ++ rest) h d)).
    rewrite IH by (assumption || lia). rewrite <- app_assoc.
    change (List.length (y :: xs)) with (S (List.length xs)).
    rewrite Nat2Z.inj_succ.
    replace (count + 1 + Z.of_nat (List.length xs))%Z
      with (count + Z.succ (Z.of_nat (List.length xs)))%Z by lia.
    reflexivity.
Qed.

(** The loop over the further initialisers: as long as names are left
    without a value it collects the initialisers; a comma met when every
    name has its value is an error. *)
Lemma parseDec_values_run (f : Parser -> result (option Init))
      (P : Parser) (vals : list Init) (P' : Parser) :
  initialisers f P vals P' ->
  forall n Values count,
    List.length vals < n ->
    ((Z.of_nat (List.length vals) <= count)%Z ->
     Tok_is P' Token.comma = false ->
     parseDec_values n f Values count P = Ret (Some (Values ++ vals)) P') /\
    (Z.of_nat (List.length vals) = count ->
     Tok_is P' Token.comma = true ->
     parseDec_values n f Values count P
     = Ret None (skip_to_eoi (error P'))).
Proof.
  induction 1 as [P|P E P1 vals P' HC HF _ IH]; intros n Values count Hn;
    (destruct n as [|n]; [cbn [List.length] in Hn; lia|]);
    cbn [List.length] in *.
  - split; intros Hc HT; simpl; rewrite HT.
    + now rewrite app_nil_r.
    + simpl in Hc. subst count. reflexivity.
  - destruct (IH n (Values ++ [E]) (count - 1)%Z ltac:(lia)) as [IH1 IH2].
    rewrite Nat2Z.inj_succ.
    split; intros Hc HT; simpl; rewrite HC;
      (assert ((count =? 0)%Z = false) as -> by (apply Z.eqb_neq; lia));
      rewrite HF; unfold call, bind.
    + rewrite IH1 by (assumption || lia). now rewrite <- app_assoc.
    + now rewrite IH2 by (assumption || lia).
Qed.

(** A declaration with initialisers: [kw x, x1, ..., xk = E, vals], the
    initialisers read by [f]. *)
Lemma parseDec_with_initialisers (KW : TokenKind)
      (f : Parser -> result (option Init)) (n : nat)
      (s0 x : string) (xs : list string) (s1 : string) (ts : list Token)
      (h : bool) (d : nat) (E : Init) (vals : list Init) (P4 P' : Parser) :
  KW = Token.KW_int \/ KW = Token.KW_bool ->
  f (mkParser ts h d) = Ret (Some E) P4 ->
  initialisers f P4 vals P' ->
  List.length xs < n ->
  (List.length (E :: vals) <= List.length (x :: xs) ->
   Tok_is P' Token.comma = false ->
   parseDec KW f n
     (mkParser (Token.mk KW s0 :: Token.mk Token.ident x ::
                more_names xs ++ Token.mk Token.assign s1 :: ts) h d)
   = expecting P' Token.semicolon (fun P5 =>
       Ret (Some (new_Declaration (x :: xs) (E :: vals))) P5)) /\
  (List.length (E :: vals) = List.length (x :: xs) ->
   Tok_is P' Token.comma = true ->
   parseDec KW f n
     (mkParser (Token.mk KW s0 :: Token.mk Token.ident x ::
                more_names xs ++ Token.mk Token.assign s1 :: ts) h d)
   = Ret None (skip_to_eoi (error P'))).
Proof.
  intros HK HF HI Hn.
  assert (parseDec KW f n
            (mkParser (Token.mk KW s0 :: Token.mk Token.ident x ::
                       more_names xs ++ Token.mk Token.assign s1 :: ts) h d)
          = do Values, P3 <-
               parseDec_values n f [E] (Z.of_nat (List.length xs)) P4;
            expecting P3 Token.semicolon (fun P5 =>
            Ret (Some (new_Declaration (x :: xs) Values)) P5)) as ->.
  { unfold parseDec.
    assert (expecting
              (mkParser (Token.mk KW s0 :: Token.mk Token.ident x ::
                         more_names xs ++ Token.mk Token.assign s1 :: ts)
                        h d) KW
            = fun k => k (mkParser (Token.mk KW s0 ::
                         Token.mk Token.ident x ::
                         more_names xs ++ Token.mk Token.assign s1 :: ts)
                        h d)) as ->
        by (destruct HK as [-> | ->]; reflexivity).
    cbv beta.
    assert (advance
              (mkParser (Token.mk KW s0 :: Token.mk Token.ident x ::
                         more_names xs ++ Token.mk Token.assign s1 :: ts)
                        h d)
            = mkParser (Token.mk Token.ident x ::
                         more_names xs ++ Token.mk Token.assign s1 :: ts)
                        h d) as ->
        by (destruct HK as [-> | ->]; reflexivity).
    change (expecting (mkParser (Token.mk Token.ident x :: ?r) h d)
              Token.ident ?k)
      with (k (mkParser (Token.mk Token.ident x :: r) h d)).
    cbv beta.
    change (advance (mkParser (Token.mk Token.ident x ::
                         more_names xs ++ Token.mk Token.assign s1 :: ts)
                        h d))
      with (mkParser (more_names xs ++ Token.mk Token.assign s1 :: ts) h d).
    change (getText (mkParser (Token.mk Token.ident x ::
                         more_names xs ++ Token.mk Token.assign s1 :: ts)
                        h d)) with x.
    rewrite (parseDec_vars_more_names
               (Token.mk Token.assign s1 :: ts) h d xs [x] 1%Z n
               eq_refl Hn).
    unfold call at 1, bind at 1. cbv beta iota.
    change (Tok_is (mkParser (Token.mk Token.assign s1 :: ts) h d)
                   Token.assign) with true.
    cbv iota.
    change (advance (mkParser (Token.mk Token.assign s1 :: ts) h d))
      with (mkParser ts h d).
    rewrite HF. unfold call at 2, bind at 1. cbv beta iota.
    cbn [fst snd].
    replace (1 + Z.of_nat (List.length xs) - 1)%Z
      with (Z.of_nat (List.length xs)) by lia.
    reflexivity. }
  assert (List.length vals < n \/ List.length xs < List.length vals)
    as [Hv|Hv] by lia.
  - destruct (parseDec_values_run f P4 vals P' HI n [E]
                (Z.of_nat (List.length xs)) Hv) as [H1 H2].
    split; intros HL HT; simpl in HL.
    + rewrite H1 by (assumption || lia). reflexivity.
    + rewrite H2 by (assumption || lia). unfold call, bind, panic.
      now rewrite skip_to_eoi_idem.
  - split; intros HL HT; simpl in HL; lia.
Qed.

(** C4 (as amended): in every Declaration node that parseIntDec or
    parseBoolDec returns, the initialisers are at most as many as the
    names.  For a declaration [kw x, x1, ..., xk = E, vals] whose
    initialisers the initialiser routine reads: when they are at most as
    many as the names and [;] follows, the Declaration pairs them with the
    leading names; when every name has its initialiser and a further comma
    follows, the routine reports a diagnostic, discards the rest of the
    input and yields the absent signal.  [int a,b = 1,2;] succeeds with
    two initialisers, and [int a,b = 1,2,3;] reports a diagnostic and
    yields the absent signal. *)
Theorem C4_initialisers_at_most_names :
  (forall n P d P',
      parseIntDec n P = Ret (Some d) P' \/
      parseBoolDec n P = Ret (Some d) P' ->
      List.length (Values d) <= List.length (Vars d)) /\
  (forall n x xs ts h d E vals P4 P',
      (initExpr n (mkParser ts h d) = Ret (Some E) P4 /\
       initialisers (initExpr n) P4 vals P' /\
       List.length xs < n /\
       List.length (E :: vals) = List.length (x :: xs) /\
       Tok_is P' Token.comma = true ->
       parseIntDec n
         (mkParser (Token.mk Token.KW_int "int" :: Token.mk Token.ident x ::
                    more_names xs ++ Token.mk Token.assign "=" :: ts) h d)
       = Ret None (skip_to_eoi (error P'))) /\
      (initLogic n (mkParser ts h d) = Ret (Some E) P4 /\
       initialisers (initLogic n) P4 vals P' /\
       List.length xs < n /\
       List.length (E :: vals) = List.length (x :: xs) /\
       Tok_is P' Token.comma = true ->
       parseBoolDec n
         (mkParser (Token.mk Token.KW_bool "bool" ::
                    Token.mk Token.ident x ::
                    more_names xs ++ Token.mk Token.assign "=" :: ts) h d)
       = Ret None (skip_to_eoi (error P'))) /\
      (initExpr n (mkParser ts h d) = Ret (Some E) P4 /\
       initialisers (initExpr n) P4 vals P' /\
       List.length xs < n /\
       List.length (E :: vals) <= List.length (x :: xs) /\
       Tok_is P' Token.semicolon = true ->
       parseIntDec n
         (mkParser (Token.mk Token.KW_int "int" :: Token.mk Token.ident x ::
                    more_names xs ++ Token.mk Token.assign "=" :: ts) h d)
       = Ret (Some (new_Declaration (x :: xs) (E :: vals))) P') /\
      (initLogic n (mkParser ts h d) = Ret (Some E) P4 /\
       initialisers (initLogic n) P4 vals P' /\
       List.length xs < n /\
       List.length (E :: vals) <= List.length (x :: xs) /\
       Tok_is P' Token.semicolon = true ->
       parseBoolDec n
         (mkParser (Token.mk Token.KW_bool "bool" ::
                    Token.mk Token.ident x ::
                    more_names xs ++ Token.mk Token.assign "=" :: ts) h d)
       = Ret (Some (new_Declaration (x :: xs) (E :: vals))) P')) /\
  parseIntDec 10 (start int_a_b_1_2) =
  Ret (Some (new_Declaration ["a"; "b"]
               [InitExpr (Final Final.Number "1");
                InitExpr (Final Final.Number "2")]))
      (start [t_semi]) /\
  parseIntDec 10 (start int_a_b_1_2_3) = Ret None (mkParser [] false 1).
Proof.
  split; [|split; [|split; reflexivity]].
  { intros n P d P' [H|H]; exact (parseDec_initialisers _ _ _ _ _ _ H). }
  intros n x xs ts h d E vals P4 P'.
  assert (forall P, Tok_is P Token.semicolon = true ->
                    Tok_is P Token.comma = false) as Hsc.
  { intros P H. apply Tok_is_true in H. unfold Tok_is. now rewrite H. }
  repeat split.
  - intros (HF & HI & Hn & HL & HT).
    exact (proj2 (parseDec_with_initialisers Token.KW_int _ n "int" x xs
                    "=" ts h d E vals P4 P' (or_introl eq_refl) HF HI Hn)
             HL HT).
  - intros (HF & HI & Hn & HL & HT).
    exact (proj2 (parseDec_with_initialisers Token.KW_bool _ n "bool" x xs
                    "=" ts h d E vals P4 P' (or_intror eq_refl) HF HI Hn)
             HL HT).
  - intros (HF & HI & Hn & HL & HT). unfold parseIntDec.
    rewrite (proj1 (parseDec_with_initialisers Token.KW_int _ n "int" x xs
                      "=" ts h d E vals P4 P' (or_introl eq_refl) HF HI Hn)
               HL (Hsc _ HT)).
    unfold expecting, expect. now rewrite HT.
  - intros (HF & HI & Hn & HL & HT). unfold parseBoolDec.
    rewrite (proj1 (parseDec_with_initialisers Token.KW_bool _ n "bool" x xs
                      "=" ts h d E vals P4 P' (or_intror eq_refl) HF HI Hn)
               HL (Hsc _ HT)).
    unfold expecting, expect. now rewrite HT.
Qed.

(** [int a, b = 1, 2, 3 ;]: both names have a value when the second comma
    is met. *)
Lemma C4_initialisers_at_most_names_witness :
  parseIntDec 10 (start int_a_b_1_2_3)
  = Ret None (skip_to_eoi (error (start [t_comma; t_num "3"; t_semi]))).
Proof.
  apply (proj1 (proj1 (proj2 C4_initialisers_at_most_names) 10 "a" ["b"]
                  [t_num "1"; t_comma; t_num "2"; t_comma; t_num "3";
                   t_semi]
                  false 0 (InitExpr (Final Final.Number "1"))
                  [InitExpr (Final Final.Number "2")]
                  (start [t_comma; t_num "2"; t_comma; t_num "3"; t_semi])
                  (start [t_comma; t_num "3"; t_semi]))).
  repeat split; [|simpl; lia].
  apply initialisers_cons with
    (P1 := start [t_comma; t_num "3"; t_semi]); [reflexivity..|].
  apply initialisers_nil.
Defined.

(** C4, as stated, fails: [int a,b = 1;] is accepted with two names and one
    initialiser, a length that is neither 0 nor the number of names. *)
Lemma C4_fewer_initialisers_accepted :
  parseIntDec 10 (start int_a_b_1) =
  Ret (Some (new_Declaration ["a"; "b"] [InitExpr (Final Final.Number "1")]))
      (start [t_semi]).
Proof. reflexivity. Qed.

(** ** The operator of a Comparison node *)

(** The nodes parseComparison builds itself (outside the parenthesised
    case): the literal and identifier forms have no operands and carry the
    token's spelling; the relational form has both operands.  In each of
    them the member [Op] was never given a value. *)
Lemma parseComparison_shape (n : nat) (P : Parser) (c : Logic) (P' : Parser) :
  parseComparison n P = Ret (Some c) P' ->
  Tok_is P Token.l_paren = false ->
  (c = Comparison None None None (getText P) /\
   (getKind P = Token.true_ \/ getKind P = Token.false_ \/
    getKind P = Token.ident)) \/
  (exists l r v, c = Comparison (Some l) (Some r) None v).
Proof.
  destruct n as [|n]; [discriminate|]. simpl. intros H Kp. rewrite Kp in H.
  destruct (Tok_is P Token.true_) eqn:K1.
  { injection H as <- _. left. apply Tok_is_true in K1. auto. }
  destruct (Tok_is P Token.false_) eqn:K2.
  { injection H as <- _. left. apply Tok_is_true in K2. auto. }
  destruct (Tok_is P Token.ident) eqn:K3.
  { injection H as <- _. left. apply Tok_is_true in K3. auto. }
  unfold call, bind in H.
  destruct (parseExpr n P) as [|[l|] P1]; try discriminate.
  destruct (if Tok_is P1 Token.eq then Some Comparison.Equal
            else if Tok_is P1 Token.neq then Some Comparison.Not_equal
            else if Tok_is P1 Token.gt then Some Comparison.Greater
            else if Tok_is P1 Token.lt then Some Comparison.Less
            else if Tok_is P1 Token.gte then Some Comparison.Greater_equal
            else if Tok_is P1 Token.lte then Some Comparison.Less_equal
            else None); [|discriminate].
  destruct (parseExpr n (advance P1)) as [|[r|] P2]; try discriminate.
  injection H as <- _. right. unfold new_Comparison. eauto.
Qed.

(** C6 (the code at the failing input): on [1 == 2] parseComparison builds a
    Comparison with both operands present, but the stored operator is not
    [Equal]: the constructor never stores the operator it is given. *)
Theorem C6_operator_not_stored :
  (forall L R Opm V, getOperator (new_Comparison L R Opm V) = None) /\
  parseComparison 10 (start one_eq_two) =
  Ret (Some (Comparison (Some (Final Final.Number "1"))
                        (Some (Final Final.Number "2")) None ""))
      (start []).
Proof. split; reflexivity. Qed.

(** ** Statements that start with an identifier *)

Lemma haveElse_advance (P : Parser) : haveElse (advance P) = haveElse P.
Proof.
  unfold advance. destruct (Tok P); [reflexivity|].
  now destruct (Tok_is P Token.eoi).
Qed.

Lemma Diags_advance (P : Parser) : Diags (advance P) = Diags P.
Proof.
  unfold advance. destruct (Tok P); [reflexivity|].
  now destruct (Tok_is P Token.eoi).
Qed.

(** A failed trial parse of a unary statement reports nothing, so restoring
    the token cursor restores the whole state. *)
Lemma parseUnary_restore (P P1 : Parser) :
  Tok_is P Token.ident = true ->
  parseUnary P = Ret None P1 ->
  setTok P1 (Tok P) = P.
Proof.
  intros Hid. unfold parseUnary, expecting, expect. rewrite Hid.
  destruct (Tok_is (advance P) Token.plus_plus); [discriminate|].
  destruct (Tok_is (advance P) Token.minus_minus); [discriminate|].
  intros H. injection H as <-.
  unfold setTok, skip_to_eoi; simpl.
  rewrite haveElse_advance, Diags_advance. now destruct P.
Qed.

(** C7 (as amended): for a statement that starts with an identifier the
    parser first trial-parses a unary statement.  If that parse succeeds and
    a statement terminator follows, the UnaryOp is the statement.  If it
    succeeds and no terminator follows, the parser reports an error and
    takes the error path, without backtracking.  If it fails, the cursor is
    restored to the snapshot and an Assignment is parsed from there. *)
Theorem C7_identifier_statement
  (n : nat) (P : Parser) (Hid : Tok_is P Token.ident = true) :
  (forall u P1, parseUnary P = Ret (Some u) P1 ->
                Tok_is P1 Token.semicolon = true ->
                parseProgram_ident n P = Ret (Some (UnaryStmt u)) P1) /\
  (forall u P1, parseUnary P = Ret (Some u) P1 ->
                Tok_is P1 Token.semicolon = false ->
                parseProgram_ident n P = Ret None (error P1)) /\
  (forall P1, parseUnary P = Ret None P1 ->
              parseProgram_ident n P =
              bind (parseAssign n P) assignment_statement).
Proof.
  repeat split.
  - intros u P1 H1 H2. unfold parseProgram_ident. rewrite H1. simpl.
    now rewrite H2.
  - intros u P1 H1 H2. unfold parseProgram_ident. rewrite H1. simpl.
    now rewrite H2.
  - intros P1 H1. unfold parseProgram_ident. rewrite H1. simpl.
    rewrite (parseUnary_restore _ _ Hid H1).
    now destruct (Tok_is P1 Token.semicolon).
Qed.

Lemma C7_identifier_statement_witness :
  parseProgram_ident 10 (start x_assign_1) =
  bind (parseAssign 10 (start x_assign_1)) assignment_statement.
Proof.
  exact (proj2 (proj2 (C7_identifier_statement 10 (start x_assign_1)
                         eq_refl)) (start []) eq_refl).
Defined.

(** C7, as stated, fails: on [x ++ += 1 ;] the unary statement [x ++] is
    parsed and no terminator follows; an Assignment can be parsed from the
    snapshot, yet the statement is an error. *)
Lemma C7_no_backtrack_after_unary :
  parseAssign 10 (start x_incr_plus_assign_1) =
  Ret (Some (new_Assignment (UnaryOp UnaryOp.Plus_plus "x")
               (Some (Final Final.Number "1")) Assignment.Plus_assign None))
      (start [t_semi]) /\
  parseProgram_ident 10 (start x_incr_plus_assign_1) =
  Ret None (mkParser (tl (tl x_incr_plus_assign_1)) false 1).
Proof. split; reflexivity. Qed.

(** ** The flag haveElse is written by parseIf only *)

Lemma haveElse_error (P : Parser) : haveElse (error P) = haveElse P.
Proof. reflexivity. Qed.

Lemma haveElse_skip (P : Parser) : haveElse (skip_to_eoi P) = haveElse P.
Proof. reflexivity. Qed.

Lemma haveElse_setTok (P : Parser) (ts : list Token) :
  haveElse (setTok P ts) = haveElse P.
Proof. reflexivity. Qed.

Lemma haveElse_expect (P : Parser) (K : TokenKind) :
  haveElse (snd (expect P K)) = haveElse P.
Proof. unfold expect. now destruct (Tok_is P K). Qed.

Lemma haveElse_consume (P : Parser) (K : TokenKind) :
  haveElse (snd (consume P K)) = haveElse P.
Proof.
  unfold consume, expect. destruct (Tok_is P K); simpl; [|reflexivity].
  apply haveElse_advance.
Qed.

Create Rewrite HintDb flag.

#[local] Hint Rewrite haveElse_advance haveElse_error haveElse_skip
  haveElse_setTok : flag.

Lemma keeps_flag_fuel {A : Type} (h : bool) : keeps_flag h (@OutOfFuel A).
Proof. intros a P H. discriminate H. Qed.

Lemma keeps_flag_Ret {A : Type} (h : bool) (a : A) (P : Parser) :
  haveElse P = h -> keeps_flag h (Ret a P).
Proof. intros Hh b P' H. injection H as _ <-. exact Hh. Qed.

Lemma keeps_flag_panic {A : Type} (h : bool) (P : Parser) :
  haveElse P = h -> keeps_flag h (@panic A P).
Proof. intros Hh. apply keeps_flag_Ret. exact Hh. Qed.

Lemma keeps_flag_bind {A B : Type} (h : bool) (r : result A)
      (k : A -> Parser -> result B) :
  keeps_flag h r ->
  (forall a P, haveElse P = h -> keeps_flag h (k a P)) ->
  keeps_flag h (bind r k).
Proof.
  intros Hr Hk. destruct r as [|a P]; [apply keeps_flag_fuel|].
  apply Hk. now apply (Hr a P).
Qed.

Lemma keeps_flag_call {A B : Type} (h : bool) (r : result (option A))
      (k : A -> Parser -> result (option B)) :
  keeps_flag h r ->
  (forall a P, haveElse P = h -> keeps_flag h (k a P)) ->
  keeps_flag h (call r k).
Proof.
  intros Hr Hk. apply keeps_flag_bind; [exact Hr|].
  intros [a|] P HP; [now apply Hk | now apply keeps_flag_panic].
Qed.

Lemma keeps_flag_expecting {A : Type} (h : bool) (P : Parser)
      (K : TokenKind) (k : Parser -> result (option A)) :
  haveElse P = h ->
  (forall P1, haveElse P1 = h -> keeps_flag h (k P1)) ->
  keeps_flag h (expecting P K k).
Proof.
  intros HP Hk. unfold expecting.
  pose proof (haveElse_expect P K) as HE.
  destruct (expect P K) as [[|] P1]; simpl in HE;
    [apply keeps_flag_panic | apply Hk]; congruence.
Qed.

Ltac flag_side :=
  solve [ autorewrite with flag; (assumption || congruence) ].

Ltac keeps_flag_step :=
  match goal with
  | |- keeps_flag _ OutOfFuel => apply keeps_flag_fuel
  | |- keeps_flag _ (panic _) => apply keeps_flag_panic; flag_side
  | |- keeps_flag _ (Ret _ _) => apply keeps_flag_Ret; flag_side
  | |- keeps_flag _ (call _ _) => apply keeps_flag_call; [|intros ? ? ?]
  | |- keeps_flag _ (bind _ _) => apply keeps_flag_bind; [|intros ? ? ?]
  | |- keeps_flag _ (expecting _ _ _) =>
      apply keeps_flag_expecting; [flag_side|intros ? ?]
  | |- keeps_flag _ (let (_, _) := consume ?P ?K in _) =>
      let H := fresh "HC" in
      pose proof (haveElse_consume P K) as H;
      destruct (consume P K); simpl in H
  | |- keeps_flag _ (if ?b then _ else _) => destruct b
  | |- keeps_flag _ (match ?x with _ => _ end) => destruct x
  end.

Create HintDb keeps_flag.

#[local] Hint Extern 1 (haveElse _ = _) => flag_side : keeps_flag.

Ltac keeps_flag_leaf :=
  match goal with
  | H : _ |- keeps_flag _ _ => apply H; flag_side
  | |- keeps_flag _ _ => solve [eauto 2 with keeps_flag]
  end.

Ltac keeps_flag_auto := repeat (keeps_flag_step || keeps_flag_leaf).

Lemma arith_keeps_flag (n : nat) :
  (forall P h, haveElse P = h -> keeps_flag h (parseExpr n P)) /\
  (forall L P h, haveElse P = h -> keeps_flag h (parseExpr_loop n L P)) /\
  (forall P h, haveElse P = h -> keeps_flag h (parseTerm n P)) /\
  (forall L P h, haveElse P = h -> keeps_flag h (parseTerm_loop n L P)) /\
  (forall P h, haveElse P = h -> keeps_flag h (parseFactor n P)) /\
  (forall L P h, haveElse P = h -> keeps_flag h (parseFactor_loop n L P)) /\
  (forall P h, haveElse P = h -> keeps_flag h (parseFinal n P)).
Proof.
  induction n as [|n (IHe & IHel & IHt & IHtl & IHf & IHfl & IHfin)].
  - repeat split; intros; apply keeps_flag_fuel.
  - repeat split; intros; simpl; keeps_flag_auto.
Qed.

Lemma parseExpr_keeps_flag (n : nat) (P : Parser) (h : bool) :
  haveElse P = h -> keeps_flag h (parseExpr n P).
Proof. apply arith_keeps_flag. Qed.

Lemma parseFinal_keeps_flag (n : nat) (P : Parser) (h : bool) :
  haveElse P = h -> keeps_flag h (parseFinal n P).
Proof. apply arith_keeps_flag. Qed.

#[local] Hint Resolve parseExpr_keeps_flag parseFinal_keeps_flag
  : keeps_flag.

Lemma logic_keeps_flag (n : nat) :
  (forall P h, haveElse P = h -> keeps_flag h (parseLogic n P)) /\
  (forall L P h, haveElse P = h -> keeps_flag h (parseLogic_loop n L P)) /\
  (forall P h, haveElse P = h -> keeps_flag h (parseComparison n P)).
Proof.
  induction n as [|n (IHl & IHll & IHc)].
  - repeat split; intros; apply keeps_flag_fuel.
  - repeat split; intros; simpl; keeps_flag_auto.
Qed.

Lemma parseLogic_keeps_flag (n : nat) (P : Parser) (h : bool) :
  haveElse P = h -> keeps_flag h (parseLogic n P).
Proof. apply logic_keeps_flag. Qed.

#[local] Hint Resolve parseLogic_keeps_flag : keeps_flag.

Lemma parseAssign_keeps_flag (n : nat) (P : Parser) (h : bool) :
  haveElse P = h -> keeps_flag h (parseAssign n P).
Proof. intros H. unfold parseAssign. keeps_flag_auto. Qed.

#[local] Hint Resolve parseAssign_keeps_flag : keeps_flag.

Lemma parseUnary_keeps_flag (P : Parser) (h : bool) :
  haveElse P = h -> keeps_flag h (parseUnary P).
Proof. intros H. unfold parseUnary. keeps_flag_auto. Qed.

#[local] Hint Resolve parseUnary_keeps_flag : keeps_flag.

Lemma parseDec_vars_keeps_flag (n : nat) : forall Vars count P h,
  haveElse P = h -> keeps_flag h (parseDec_vars n Vars count P).
Proof.
  induction n as [|n IH]; intros; simpl; keeps_flag_auto.
Qed.

Lemma parseDec_values_keeps_flag (n : nat) : forall f Values count P h,
  (forall P1 h1, haveElse P1 = h1 -> keeps_flag h1 (f P1)) ->
  haveElse P = h -> keeps_flag h (parseDec_values n f Values count P).
Proof.
  induction n as [|n IH]; intros f Values count P h Hf HP; simpl;
    keeps_flag_auto.
Qed.

Lemma parseDec_keeps_flag (KW : TokenKind)
      (f : Parser -> result (option Init)) (n : nat) (P : Parser) (h : bool) :
  (forall P1 h1, haveElse P1 = h1 -> keeps_flag h1 (f P1)) ->
  haveElse P = h -> keeps_flag h (parseDec KW f n P).
Proof.
  intros Hf HP. unfold parseDec.
  keeps_flag_auto;
    try (apply parseDec_vars_keeps_flag; flag_side);
    try (apply parseDec_values_keeps_flag; [exact Hf | flag_side]).
Qed.

Lemma parseIntDec_keeps_flag (n : nat) (P : Parser) (h : bool) :
  haveElse P = h -> keeps_flag h (parseIntDec n P).
Proof.
  apply parseDec_keeps_flag. intros P1 h1 H1. unfold initExpr.
  keeps_flag_auto.
Qed.

Lemma parseBoolDec_keeps_flag (n : nat) (P : Parser) (h : bool) :
  haveElse P = h -> keeps_flag h (parseBoolDec n P).
Proof.
  apply parseDec_keeps_flag. intros P1 h1 H1. unfold initLogic.
  keeps_flag_auto.
Qed.

Lemma parseBlock_keeps_flag (n : nat) : forall assignments P h,
  haveElse P = h -> keeps_flag h (parseBlock n assignments P).
Proof.
  induction n as [|n IH]; intros; simpl; keeps_flag_auto.
Qed.

#[local] Hint Resolve parseBlock_keeps_flag : keeps_flag.

Lemma parseElifs_keeps_flag (n : nat) : forall elifStmts P h,
  haveElse P = h -> keeps_flag h (parseElifs n elifStmts P).
Proof.
  induction n as [|n IH]; intros; simpl; keeps_flag_auto.
Qed.

#[local] Hint Resolve parseElifs_keeps_flag : keeps_flag.

Lemma parseProgram_ident_keeps_flag (n : nat) (P : Parser) (h : bool) :
  haveElse P = h -> keeps_flag h (parseProgram_ident n P).
Proof.
  intros H. unfold parseProgram_ident, assignment_statement.
  keeps_flag_auto.
Qed.

(** ** Where a statement routine leaves the cursor *)

Lemma call_Some_inv {A B : Type} (r : result (option A))
      (k : A -> Parser -> result (option B)) (b : B) (P' : Parser) :
  call r k = Ret (Some b) P' ->
  exists a P1, r = Ret (Some a) P1 /\ k a P1 = Ret (Some b) P'.
Proof.
  unfold call, bind. destruct r as [|[a|] P1]; try discriminate. eauto.
Qed.

Lemma expecting_Some_inv {A : Type} (P : Parser) (K : TokenKind)
      (k : Parser -> result (option A)) (a : A) (P' : Parser) :
  expecting P K k = Ret (Some a) P' ->
  Tok_is P K = true /\ k P = Ret (Some a) P'.
Proof.
  unfold expecting, expect. destruct (Tok_is P K); [auto | discriminate].
Qed.

Lemma parseDec_semicolon (KW : TokenKind)
      (f : Parser -> result (option Init)) (n : nat) (P : Parser)
      (d : Declaration) (P' : Parser) :
  parseDec KW f n P = Ret (Some d) P' -> Tok_is P' Token.semicolon = true.
Proof.
  unfold parseDec. intros H.
  apply expecting_Some_inv in H as [_ H].
  apply expecting_Some_inv in H as [_ H].
  apply call_Some_inv in H as (vc & P2 & _ & H).
  apply call_Some_inv in H as (Values & P3 & _ & H).
  apply expecting_Some_inv in H as [K H]. now injection H as _ <-.
Qed.

Lemma assignment_statement_semicolon (a : option Assignment) (P : Parser)
      (s : IdentStmt) (P' : Parser) :
  assignment_statement a P = Ret (Some s) P' ->
  Tok_is P' Token.semicolon = true.
Proof.
  unfold assignment_statement.
  destruct (Tok_is P Token.semicolon) eqn:E; simpl; [|discriminate].
  destruct a; [|discriminate]. intros H. now injection H as _ <-.
Qed.

Lemma parseProgram_ident_semicolon (n : nat) (P : Parser) (s : IdentStmt)
      (P' : Parser) :
  parseProgram_ident n P = Ret (Some s) P' ->
  Tok_is P' Token.semicolon = true.
Proof.
  unfold parseProgram_ident, bind.
  destruct (parseUnary P) as [|u P1]; [discriminate|].
  assert (forall P2,
    match parseAssign n P2 with
    | OutOfFuel => OutOfFuel
    | Ret a P3 => assignment_statement a P3
    end = Ret (Some s) P' -> Tok_is P' Token.semicolon = true) as HA.
  { intros P2. destruct (parseAssign n P2) as [|a P3]; [discriminate|].
    apply assignment_statement_semicolon. }
  destruct (Tok_is P1 Token.semicolon) eqn:E; destruct u as [u|];
    try discriminate; try apply HA.
  intros H. now injection H as _ <-.
Qed.

Lemma parseBlock_end (n : nat) : forall assignments P l P',
  parseBlock n assignments P = Ret (Some l) P' ->
  Tok_is P' Token.KW_end = true.
Proof.
  induction n as [|n IH]; intros assignments P l P' H; [discriminate|].
  simpl in H. destruct (Tok_is P Token.KW_end) eqn:E; simpl in H.
  - now injection H as _ <-.
  - apply call_Some_inv in H as (a & P1 & _ & H).
    apply expecting_Some_inv in H as [_ H]. now apply IH in H.
Qed.

(** ** The statement loop *)

Lemma skip_to_eoi_fixed (P : Parser) : at_eoi P -> skip_to_eoi P = P.
Proof.
  unfold at_eoi, getKind, skip_to_eoi, setTok. intros H.
  destruct P as [ts h d]; simpl in *. destruct ts as [|t ts]; simpl.
  - reflexivity.
  - rewrite H. now rewrite kind_eqb_refl.
Qed.

(** A failed sub-parse is forwarded as it is: the caller's error path finds
    the cursor at the end of input already and changes nothing (in
    particular it reports nothing). *)
Lemma call_forwards {A B : Type} (r : result (option A))
      (k : A -> Parser -> result (option B)) (P1 : Parser) :
  aborts r -> r = Ret None P1 -> call r k = Ret None P1.
Proof.
  intros Hr H. rewrite H. unfold call, bind, panic.
  now rewrite (skip_to_eoi_fixed _ (Hr _ H)).
Qed.

Section ProgramProperties.

Variables ForStmt PrintStmt : Type.
Variable parseWhile : nat -> Parser -> result (option WhileStmt).
Variable parseFor : nat -> Parser -> result (option ForStmt).
Variable parsePrint : nat -> Parser -> result (option PrintStmt).

#[local] Abbreviation switch :=
  (parseProgram_switch parseWhile parseFor parsePrint).
#[local] Abbreviation loop :=
  (parseProgram_loop parseWhile parseFor parsePrint).
#[local] Abbreviation statements :=
  (statements parseWhile parseFor parsePrint).

Lemma parseProgram_loop_aborts (n : nat) :
  forall acc P, aborts (loop n acc P).
Proof.
  induction n as [|n IH]; intros; simpl; aborts_auto.
Qed.

Lemma parseProgram_loop_eoi (n : nat) (acc : list (AST ForStmt PrintStmt))
      (P : Parser) :
  Tok_is P Token.eoi = true ->
  loop (S n) acc P = Ret (Some (new_Program acc)) P.
Proof. intros H. simpl. now rewrite H. Qed.

Lemma parseProgram_loop_step (n : nat) (acc : list (AST ForStmt PrintStmt))
      (P : Parser) (stmt : AST ForStmt PrintStmt) (P1 : Parser) :
  Tok_is P Token.eoi = false ->
  switch n (setHaveElse P true) = Ret (Some stmt) P1 ->
  loop (S n) acc P =
  loop n (acc ++ [stmt]) (if haveElse P1 then advance P1 else P1).
Proof. intros HP H. simpl. rewrite HP, H. reflexivity. Qed.

Lemma parseProgram_loop_fail (n : nat) (acc : list (AST ForStmt PrintStmt))
      (P : Parser) (P1 : Parser) :
  Tok_is P Token.eoi = false ->
  switch n (setHaveElse P true) = Ret None P1 ->
  loop (S n) acc P = Ret None (skip_to_eoi P1).
Proof. intros HP H. simpl. rewrite HP, H. reflexivity. Qed.

Lemma statements_length (P : Parser) (k : nat)
      (stmts : list (AST ForStmt PrintStmt)) (P' : Parser) :
  statements P k stmts P' -> List.length stmts = k.
Proof. induction 1; simpl; congruence. Qed.

(** From a finished run back to the statements it parsed. *)
Lemma parseProgram_loop_sound (n : nat) : forall acc P prog P',
  loop n acc P = Ret (Some prog) P' ->
  exists k stmts, data prog = acc ++ stmts /\
                  statements P k stmts P' /\ Tok_is P' Token.eoi = true.
Proof.
  induction n as [|n IH]; intros acc P prog P' H; [discriminate|].
  simpl in H. destruct (Tok_is P Token.eoi) eqn:E; simpl in H.
  - injection H as <- <-. exists 0, []. rewrite app_nil_r.
    repeat split; [constructor | exact E].
  - apply call_Some_inv in H as (stmt & P1 & HS & H).
    apply IH in H as (k & stmts & Hd & Hs & He).
    exists (S k), (stmt :: stmts). rewrite Hd, <- app_assoc.
    repeat split; [|exact He].
    now apply statements_cons with (n := n) (P1 := P1).
Qed.

Hypothesis parseWhile_fuel_le : forall n m P,
  n <= m -> res_le (parseWhile n P) (parseWhile m P).
Hypothesis parseFor_fuel_le : forall n m P,
  n <= m -> res_le (parseFor n P) (parseFor m P).
Hypothesis parsePrint_fuel_le : forall n m P,
  n <= m -> res_le (parsePrint n P) (parsePrint m P).

Lemma parseProgram_switch_fuel_le (n m : nat) (P : Parser) :
  n <= m -> res_le (switch n P) (switch m P).
Proof.
  intros H. unfold parseProgram_switch, upcast.
  destruct (getKind P); res_le_auto.
Qed.

Lemma parseProgram_loop_fuel_le (n : nat) : forall m acc P,
  n <= m -> res_le (loop n acc P) (loop m acc P).
Proof.
  induction n as [|n IH]; intros m acc P Hle; [apply res_le_fuel|].
  destruct m as [|m]; [lia|]. assert (n <= m) by lia.
  simpl. res_le_auto; try now apply IH.
  now apply parseProgram_switch_fuel_le.
Qed.

(** From the statements parsed to a run of the loop: with enough budget
    the loop started in [P] reaches its turn in [P'] with the statements
    appended to what it had collected. *)
Lemma parseProgram_loop_complete (P : Parser) (k : nat)
      (stmts : list (AST ForStmt PrintStmt)) (P' : Parser) :
  statements P k stmts P' ->
  exists n0, forall acc n r P'',
    loop n (acc ++ stmts) P' = Ret r P'' ->
    loop (n0 + n) acc P = Ret r P''.
Proof.
  induction 1 as [P|P n1 stmt P1 k stmts P' HP HS _ [n0 IH]].
  - exists 0. intros acc n r P'' H. now rewrite app_nil_r in H.
  - exists (S (n1 + n0)). intros acc n r P'' H.
    change (S (n1 + n0) + n) with (S (n1 + n0 + n)).
    rewrite (parseProgram_loop_step _ acc P stmt P1 HP).
    + apply (parseProgram_loop_fuel_le (n0 + n) (n1 + n0 + n) _ _
               ltac:(lia)).
      apply IH. now rewrite <- app_assoc.
    + apply (parseProgram_switch_fuel_le n1 (n1 + n0 + n) _ ltac:(lia)).
      exact HS.
Qed.

(** When the statement loop parses [k] top-level statements in turn and
    then finds the end of input, parse returns a Program (not the absent
    signal) with any large enough budget, and the Program holds exactly
    these [k] statement nodes. *)
Theorem statements_in_turn
  (P : Parser) (k : nat) (stmts : list (AST ForStmt PrintStmt))
  (P' : Parser)
  (Hs : statements P k stmts P')
  (He : Tok_is P' Token.eoi = true) :
  exists n0, forall n, n0 <= n ->
    exists prog,
      parse parseWhile parseFor parsePrint n P = Ret (Some prog) P' /\
      data prog = stmts /\ List.length (data prog) = k.
Proof.
  destruct (parseProgram_loop_complete _ _ _ _ Hs) as [n0 H].
  exists (n0 + 1). intros n Hn. exists (new_Program stmts).
  repeat split; [|apply (statements_length _ _ _ _ Hs)].
  unfold parse, parseProgram.
  apply (parseProgram_loop_fuel_le (n0 + 1) n _ _ Hn).
  apply H. apply parseProgram_loop_eoi. exact He.
Qed.

(** The converse: a Program is returned only after the loop parsed each of
    its nodes as a top-level statement and found the end of input. *)
Lemma parse_returns_statements (n : nat) (P : Parser)
      (prog : Program ForStmt PrintStmt) (P' : Parser) :
  parse parseWhile parseFor parsePrint n P = Ret (Some prog) P' ->
  statements P (List.length (data prog)) (data prog) P' /\
  Tok_is P' Token.eoi = true.
Proof.
  intros H. apply parseProgram_loop_sound in H as (k & stmts & Hd & Hs & He).
  simpl in Hd. subst stmts.
  now rewrite (statements_length _ _ _ _ Hs).
Qed.


End ProgramProperties.

(** ** The loop at concrete inputs *)

Lemma absent_routine_fuel_le {A : Type} (n m : nat) (P : Parser) :
  n <= m -> res_le (@absent_routine A n P) (absent_routine m P).
Proof. intros _. apply res_le_refl. Qed.

Lemma statements_in_turn_example :
  exists n0, forall n, n0 <= n ->
    exists prog,
      parse (ForStmt := unit) (PrintStmt := unit)
            absent_routine absent_routine absent_routine
            n (start int_a_then_incr)
      = Ret (Some prog) (mkParser [] true 0) /\
      data prog = two_statements /\ List.length (data prog) = 2.
Proof.
  apply (statements_in_turn unit unit
           absent_routine absent_routine absent_routine
           absent_routine_fuel_le absent_routine_fuel_le
           absent_routine_fuel_le
           (start int_a_then_incr) 2 two_statements (mkParser [] true 0)).
  - apply statements_cons with
      (n := 10) (P1 := mkParser (skipn 2 int_a_then_incr) true 0);
      [reflexivity | reflexivity |].
    apply statements_cons with
      (n := 10) (P1 := mkParser [t_semi] true 0);
      [reflexivity | reflexivity |].
    apply statements_nil.
  - reflexivity.
Defined.


(** parseIf on an if statement without and with an else clause, each
    followed by a declaration.  Without an else clause the cursor is past
    [end], the flag is clear and the loop does not advance; with one, the
    cursor is on the [end] of the else block, the flag is set and the loop
    steps over that [end].  Either way the next turn starts at [int]. *)
Lemma parseIf_examples :
  parseIf 10 (start (if_true_empty ++ [t_int; t_id "a"; t_semi])) =
  Ret (Some if_true_empty_node) (mkParser [t_int; t_id "a"; t_semi] false 0)
  /\
  parseProgram_advance (mkParser [t_int; t_id "a"; t_semi] false 0)
  = mkParser [t_int; t_id "a"; t_semi] false 0
  /\
  parseIf 10 (start (if_true_empty_else_empty ++ [t_int; t_id "a"; t_semi]))
  = Ret (Some if_true_empty_node)
        (mkParser [t_end; t_int; t_id "a"; t_semi] true 0)
  /\
  parseProgram_advance (mkParser [t_end; t_int; t_id "a"; t_semi] true 0)
  = mkParser [t_int; t_id "a"; t_semi] true 0.
Proof. repeat split. Qed.

(** ** Assignments: logic or arithmetic right-hand side *)

(** The trial parse of parseAssign on [=]: a logic expression is tried
    first; when it fails, the cursor is restored to the [=] token and an
    arithmetic expression is parsed. *)
Lemma parseAssign_trial_parse (n : nat) (P P1 : Parser) (F : Expr) :
  parseFinal n P = Ret (Some F) P1 ->
  Tok_is P1 Token.assign = true ->
  (forall L P2,
      parseLogic n (advance P1) = Ret (Some L) P2 ->
      parseAssign n P =
      Ret (Some (new_Assignment F None Assignment.Assign (Some L))) P2) /\
  (forall P2,
      parseLogic n (advance P1) = Ret None P2 ->
      parseAssign n P =
      do E, P3 <- parseExpr n (advance (setTok P2 (Tok P1)));
      Ret (Some (new_Assignment F (Some E) Assignment.Assign None)) P3).
Proof.
  intros HF HA.
  split; [intros L P2 H | intros P2 H]; unfold parseAssign; rewrite HF;
    unfold call at 1, bind at 1; cbv beta iota zeta; rewrite HA, H;
    reflexivity.
Qed.

Lemma parseAssign_examples :
  parseAssign 10 (start x_eq_y_and_z) =
  Ret (Some (new_Assignment (Final Final.Ident "x") None Assignment.Assign
               (Some (LogicalExpr (Comparison None None None "y")
                                  (Comparison None None None "z")
                                  LogicalExpr.And))))
      (start [t_semi]) /\
  parseAssign 10 (start x_eq_1_plus_2) =
  Ret (Some (new_Assignment (Final Final.Ident "x")
               (Some (BinaryOp BinaryOp.Plus (Final Final.Number "1")
                                             (Final Final.Number "2")))
               Assignment.Assign None))
      (mkParser [t_semi] false 1).
Proof. split; reflexivity. Qed.

(** C3 (the code at the failing input): on [x = y + z ;] the trial parse of
    a logic expression succeeds on the identifier [y] alone, so parseAssign
    returns an Assignment whose right-hand side is the logic node [y], with
    the cursor in front of [+]; the statement loop then finds no [;] and
    the whole parse yields the absent signal. *)
Theorem C3_identifier_sum_read_as_logic :
  parseAssign 10 (start x_eq_y_plus_z) =
  Ret (Some (new_Assignment (Final Final.Ident "x") None Assignment.Assign
               (Some (Comparison None None None "y"))))
      (start [t_plus; t_id "z"; t_semi]) /\
  forall (ForStmt PrintStmt : Type) parseWhile parseFor parsePrint,
    @parse ForStmt PrintStmt parseWhile parseFor parsePrint
           10 (start x_eq_y_plus_z)
    = Ret None (mkParser [] true 1).
Proof. split; [reflexivity | intros; reflexivity]. Qed.

(** ** Diagnostics *)

(** * Further properties of the routines *)

(** ** Associativity and precedence of the binary operators *)

Lemma parseTerm_fuel_le (n m : nat) (P : Parser) :
  n <= m -> res_le (parseTerm n P) (parseTerm m P).
Proof. intros H. apply (arith_fuel_le n m H). Qed.

Lemma parseExpr_loop_fuel_le (n m : nat) (L : Expr) (P : Parser) :
  n <= m -> res_le (parseExpr_loop n L P) (parseExpr_loop m L P).
Proof. intros H. apply (arith_fuel_le n m H). Qed.

Lemma parseTerm_loop_fuel_le (n m : nat) (L : Expr) (P : Parser) :
  n <= m -> res_le (parseTerm_loop n L P) (parseTerm_loop m L P).
Proof. intros H. apply (arith_fuel_le n m H). Qed.

Lemma additive_None (P : Parser) :
  additive P = None -> Tok_isOneOf P [Token.plus; Token.minus] = false.
Proof.
  unfold additive, Tok_isOneOf. simpl.
  destruct (Tok_is P Token.plus); [discriminate|].
  destruct (Tok_is P Token.minus); [discriminate|]. reflexivity.
Qed.

Lemma additive_Some (P : Parser) (op : BinaryOp.Operator) :
  additive P = Some op -> Tok_isOneOf P [Token.plus; Token.minus] = true.
Proof.
  unfold additive, Tok_isOneOf. simpl.
  destruct (Tok_is P Token.plus); [reflexivity|].
  destruct (Tok_is P Token.minus); [reflexivity|discriminate].
Qed.

Lemma multiplicative_None (P : Parser) :
  multiplicative P = None ->
  Tok_isOneOf P [Token.star; Token.mod_; Token.slash] = false.
Proof.
  unfold multiplicative, Tok_isOneOf. simpl.
  destruct (Tok_is P Token.star); [discriminate|].
  destruct (Tok_is P Token.slash); [discriminate|].
  destruct (Tok_is P Token.mod_); [discriminate|]. reflexivity.
Qed.

Lemma multiplicative_Some (P : Parser) (op : BinaryOp.Operator) :
  multiplicative P = Some op ->
  Tok_isOneOf P [Token.star; Token.mod_; Token.slash] = true.
Proof.
  unfold multiplicative, Tok_isOneOf. simpl.
  destruct (Tok_is P Token.star); [reflexivity|].
  destruct (Tok_is P Token.slash); [now rewrite orb_true_r|].
  destruct (Tok_is P Token.mod_); [reflexivity|discriminate].
Qed.

Lemma parseExpr_loop_S (n : nat) (L : Expr) (P : Parser) :
  parseExpr_loop (S n) L P =
  if Tok_isOneOf P [Token.plus; Token.minus] then
    match additive P with
    | None => panic (error P)
    | Some Op =>
      do Right, P1 <- parseTerm n (advance P);
      parseExpr_loop n (BinaryOp Op L Right) P1
    end
  else Ret (Some L) P.
Proof. reflexivity. Qed.

Lemma parseTerm_loop_S (n : nat) (L : Expr) (P : Parser) :
  parseTerm_loop (S n) L P =
  if Tok_isOneOf P [Token.star; Token.mod_; Token.slash] then
    match multiplicative P with
    | None => panic (error P)
    | Some Op =>
      do Right, P1 <- parseFactor n (advance P);
      parseTerm_loop n (BinaryOp Op L Right) P1
    end
  else Ret (Some L) P.
Proof. reflexivity. Qed.

Lemma parseExpr_loop_done (n : nat) (L : Expr) (P : Parser) :
  additive P = None -> parseExpr_loop (S n) L P = Ret (Some L) P.
Proof. intros H. rewrite parseExpr_loop_S. now rewrite (additive_None _ H). Qed.

Lemma parseExpr_loop_op (n : nat) (L R : Expr) (P P1 : Parser)
      (op : BinaryOp.Operator) :
  additive P = Some op ->
  parseTerm n (advance P) = Ret (Some R) P1 ->
  parseExpr_loop (S n) L P = parseExpr_loop n (BinaryOp op L R) P1.
Proof.
  intros H HR. rewrite parseExpr_loop_S.
  rewrite (additive_Some _ _ H), H, HR. reflexivity.
Qed.

Lemma parseTerm_loop_done (n : nat) (L : Expr) (P : Parser) :
  multiplicative P = None -> parseTerm_loop (S n) L P = Ret (Some L) P.
Proof.
  intros H. rewrite parseTerm_loop_S. now rewrite (multiplicative_None _ H).
Qed.

Lemma parseTerm_loop_op (n : nat) (L R : Expr) (P P1 : Parser)
      (op : BinaryOp.Operator) :
  multiplicative P = Some op ->
  parseFactor n (advance P) = Ret (Some R) P1 ->
  parseTerm_loop (S n) L P = parseTerm_loop n (BinaryOp op L R) P1.
Proof.
  intros H HR. rewrite parseTerm_loop_S.
  rewrite (multiplicative_Some _ _ H), H, HR. reflexivity.
Qed.

Lemma parseExpr_S (n : nat) (P : Parser) :
  parseExpr (S n) P = do Left, P1 <- parseTerm n P; parseExpr_loop n Left P1.
Proof. reflexivity. Qed.

Lemma parseTerm_S (n : nat) (P : Parser) :
  parseTerm (S n) P =
  do Left, P1 <- parseFactor n P; parseTerm_loop n Left P1.
Proof. reflexivity. Qed.

(** The additive operators are left-associative: three terms joined by
    [+] or [-] are grouped to the left. *)
Theorem additive_left_assoc
  (n m : nat) (P P1 P2 P3 : Parser) (a b c : Expr)
  (op1 op2 : BinaryOp.Operator)
  (Ha : parseTerm n P = Ret (Some a) P1)
  (Hab : additive P1 = Some op1)
  (Hb : parseTerm n (advance P1) = Ret (Some b) P2)
  (Hbc : additive P2 = Some op2)
  (Hc : parseTerm n (advance P2) = Ret (Some c) P3)
  (Hend : additive P3 = None)
  (Hm : n + 4 <= m) :
  parseExpr m P = Ret (Some (BinaryOp op2 (BinaryOp op1 a b) c)) P3.
Proof.
  apply (parseExpr_fuel_le (S (S (S (S n)))) m P ltac:(lia)).
  rewrite parseExpr_S.
  rewrite (parseTerm_fuel_le n (S (S (S n))) P ltac:(lia) _ _ Ha).
  unfold call, bind.
  rewrite (parseExpr_loop_op _ _ b _ P2 _ Hab
             (parseTerm_fuel_le n (S (S n)) _ ltac:(lia) _ _ Hb)).
  rewrite (parseExpr_loop_op _ _ c _ P3 _ Hbc
             (parseTerm_fuel_le n (S n) _ ltac:(lia) _ _ Hc)).
  assert (exists k, n = S k) as [k ->].
  { destruct n; [discriminate Ha | eauto]. }
  now apply parseExpr_loop_done.
Qed.

Lemma additive_left_assoc_witness :
  parseExpr 7 (start seven_minus_two_minus_one) =
  Ret (Some (BinaryOp BinaryOp.Minus
               (BinaryOp BinaryOp.Minus (Final Final.Number "7")
                                        (Final Final.Number "2"))
               (Final Final.Number "1")))
      (start []).
Proof.
  apply (additive_left_assoc 3 7
           (start seven_minus_two_minus_one)
           (start (skipn 1 seven_minus_two_minus_one))
           (start (skipn 3 seven_minus_two_minus_one))
           (start []));
    solve [reflexivity | simpl; lia].
Defined.

(** The multiplicative operators are left-associative: three factors
    joined by [*], [/] or [%] are grouped to the left. *)
Theorem multiplicative_left_assoc
  (n m : nat) (P P1 P2 P3 : Parser) (a b c : Expr)
  (op1 op2 : BinaryOp.Operator)
  (Ha : parseFactor n P = Ret (Some a) P1)
  (Hab : multiplicative P1 = Some op1)
  (Hb : parseFactor n (advance P1) = Ret (Some b) P2)
  (Hbc : multiplicative P2 = Some op2)
  (Hc : parseFactor n (advance P2) = Ret (Some c) P3)
  (Hend : multiplicative P3 = None)
  (Hm : n + 4 <= m) :
  parseTerm m P = Ret (Some (BinaryOp op2 (BinaryOp op1 a b) c)) P3.
Proof.
  apply (parseTerm_fuel_le (S (S (S (S n)))) m P ltac:(lia)).
  rewrite parseTerm_S.
  rewrite (parseFactor_fuel_le n (S (S (S n))) P ltac:(lia) _ _ Ha).
  unfold call, bind.
  rewrite (parseTerm_loop_op _ _ b _ P2 _ Hab
             (parseFactor_fuel_le n (S (S n)) _ ltac:(lia) _ _ Hb)).
  rewrite (parseTerm_loop_op _ _ c _ P3 _ Hbc
             (parseFactor_fuel_le n (S n) _ ltac:(lia) _ _ Hc)).
  assert (exists k, n = S k) as [k ->].
  { destruct n; [discriminate Ha | eauto]. }
  now apply parseTerm_loop_done.
Qed.

Lemma multiplicative_left_assoc_witness :
  parseTerm 6 (start eight_div_four_mod_three) =
  Ret (Some (BinaryOp BinaryOp.Mod
               (BinaryOp BinaryOp.Div (Final Final.Number "8")
                                      (Final Final.Number "4"))
               (Final Final.Number "3")))
      (start []).
Proof.
  apply (multiplicative_left_assoc 2 6
           (start eight_div_four_mod_three)
           (start (skipn 1 eight_div_four_mod_three))
           (start (skipn 3 eight_div_four_mod_three))
           (start []));
    solve [reflexivity | simpl; lia].
Defined.

(** Multiplicative operators bind tighter than additive ones: in
    [a + b * c] the product is the right operand of the sum. *)
Theorem multiplicative_binds_tighter
  (n m : nat) (P P1 P2 P3 : Parser) (a b c : Expr)
  (opa opm : BinaryOp.Operator)
  (Ha : parseFactor n P = Ret (Some a) P1)
  (Hab : additive P1 = Some opa)
  (Hb : parseFactor n (advance P1) = Ret (Some b) P2)
  (Hbc : multiplicative P2 = Some opm)
  (Hc : parseFactor n (advance P2) = Ret (Some c) P3)
  (Hend : multiplicative P3 = None)
  (Hend' : additive P3 = None)
  (Hm : n + 4 <= m) :
  parseExpr m P = Ret (Some (BinaryOp opa a (BinaryOp opm b c))) P3.
Proof.
  assert (exists k, n = S k) as [k ->].
  { destruct n; [discriminate Ha | eauto]. }
  assert (multiplicative P1 = None) as Hnm.
  { unfold additive in Hab. unfold multiplicative.
    destruct (Tok_is P1 Token.plus) eqn:E1.
    - apply Tok_is_true in E1. unfold Tok_is. rewrite E1. reflexivity.
    - destruct (Tok_is P1 Token.minus) eqn:E2; [|discriminate].
      apply Tok_is_true in E2. unfold Tok_is. rewrite E2. reflexivity. }
  assert (parseTerm (S (S (S k))) (advance P1)
          = Ret (Some (BinaryOp opm b c)) P3) as HT.
  { rewrite parseTerm_S.
    rewrite (parseFactor_fuel_le (S k) (S (S k)) _ ltac:(lia) _ _ Hb).
    unfold call, bind.
    rewrite (parseTerm_loop_op _ _ c _ P3 _ Hbc Hc).
    now apply parseTerm_loop_done. }
  apply (parseExpr_fuel_le (S (S (S (S (S k))))) m P ltac:(lia)).
  rewrite parseExpr_S, parseTerm_S.
  rewrite (parseFactor_fuel_le (S k) (S (S (S k))) P ltac:(lia) _ _ Ha).
  unfold call, bind.
  rewrite (parseTerm_loop_done _ _ _ Hnm). cbv beta iota.
  rewrite (parseExpr_loop_op _ _ (BinaryOp opm b c) _ P3 _ Hab HT).
  now apply parseExpr_loop_done.
Qed.

Lemma multiplicative_binds_tighter_witness :
  parseExpr 8 (start one_plus_two_times_three) =
  Ret (Some (BinaryOp BinaryOp.Plus (Final Final.Number "1")
               (BinaryOp BinaryOp.Mul (Final Final.Number "2")
                                      (Final Final.Number "3"))))
      (start []).
Proof.
  apply (multiplicative_binds_tighter 2 8
           (start one_plus_two_times_three)
           (start (skipn 1 one_plus_two_times_three))
           (start (skipn 3 one_plus_two_times_three))
           (start []));
    solve [reflexivity | simpl; lia].
Defined.

(** ** The connectives of logic expressions *)

Lemma parseLogic_loop_S (n : nat) (L : Logic) (P : Parser) :
  parseLogic_loop (S n) L P =
  if Tok_isOneOf P [Token.KW_and; Token.KW_or] then
    match connective P with
    | None => panic (error P)
    | Some Op =>
      do Right, P1 <- parseComparison n (advance P);
      parseLogic_loop n (LogicalExpr L Right Op) P1
    end
  else Ret (Some L) P.
Proof. reflexivity. Qed.

Lemma parseLogic_S (n : nat) (P : Parser) :
  parseLogic (S n) P =
  do Left, P1 <- parseComparison n P; parseLogic_loop n Left P1.
Proof. reflexivity. Qed.

Lemma connective_None (P : Parser) :
  connective P = None -> Tok_isOneOf P [Token.KW_and; Token.KW_or] = false.
Proof.
  unfold connective, Tok_isOneOf. simpl.
  destruct (Tok_is P Token.KW_and); [discriminate|].
  destruct (Tok_is P Token.KW_or); [discriminate|]. reflexivity.
Qed.

Lemma connective_Some (P : Parser) (op : LogicalExpr.Operator) :
  connective P = Some op -> Tok_isOneOf P [Token.KW_and; Token.KW_or] = true.
Proof.
  unfold connective, Tok_isOneOf. simpl.
  destruct (Tok_is P Token.KW_and); [reflexivity|].
  destruct (Tok_is P Token.KW_or); [reflexivity|discriminate].
Qed.

Lemma parseLogic_loop_done (n : nat) (L : Logic) (P : Parser) :
  connective P = None -> parseLogic_loop (S n) L P = Ret (Some L) P.
Proof.
  intros H. rewrite parseLogic_loop_S. now rewrite (connective_None _ H).
Qed.

Lemma parseLogic_loop_op (n : nat) (L R : Logic) (P P1 : Parser)
      (op : LogicalExpr.Operator) :
  connective P = Some op ->
  parseComparison n (advance P) = Ret (Some R) P1 ->
  parseLogic_loop (S n) L P = parseLogic_loop n (LogicalExpr L R op) P1.
Proof.
  intros H HR. rewrite parseLogic_loop_S.
  rewrite (connective_Some _ _ H), H, HR. reflexivity.
Qed.

(** The connectives [&&] and [||] have one precedence level and group to
    the left, whichever of the two comes first: [a op1 b op2 c] is
    [(a op1 b) op2 c]. *)
Theorem connectives_flat_left_assoc
  (n m : nat) (P P1 P2 P3 : Parser) (a b c : Logic)
  (op1 op2 : LogicalExpr.Operator)
  (Ha : parseComparison n P = Ret (Some a) P1)
  (Hab : connective P1 = Some op1)
  (Hb : parseComparison n (advance P1) = Ret (Some b) P2)
  (Hbc : connective P2 = Some op2)
  (Hc : parseComparison n (advance P2) = Ret (Some c) P3)
  (Hend : connective P3 = None)
  (Hm : n + 4 <= m) :
  parseLogic m P = Ret (Some (LogicalExpr (LogicalExpr a b op1) c op2)) P3.
Proof.
  apply (parseLogic_fuel_le (S (S (S (S n)))) m P ltac:(lia)).
  rewrite parseLogic_S.
  rewrite (parseComparison_fuel_le n (S (S (S n))) P ltac:(lia) _ _ Ha).
  unfold call, bind.
  rewrite (parseLogic_loop_op _ _ b _ P2 _ Hab
             (parseComparison_fuel_le n (S (S n)) _ ltac:(lia) _ _ Hb)).
  rewrite (parseLogic_loop_op _ _ c _ P3 _ Hbc
             (parseComparison_fuel_le n (S n) _ ltac:(lia) _ _ Hc)).
  assert (exists k, n = S k) as [k ->].
  { destruct n; [discriminate Ha | eauto]. }
  now apply parseLogic_loop_done.
Qed.

Lemma connectives_flat_left_assoc_witness :
  parseLogic 5 (start a_or_b_and_c) =
  Ret (Some (LogicalExpr
               (LogicalExpr (Comparison None None None "a")
                            (Comparison None None None "b") LogicalExpr.Or)
               (Comparison None None None "c") LogicalExpr.And))
      (start []).
Proof.
  apply (connectives_flat_left_assoc 1 5
           (start a_or_b_and_c)
           (start (skipn 1 a_or_b_and_c))
           (start (skipn 3 a_or_b_and_c))
           (start []));
    solve [reflexivity | simpl; lia].
Defined.

(** A parenthesis at the start of a comparison opens a logic expression,
    and the parentheses leave no node of their own: [( L )] succeeds
    exactly when a logic expression is parsed after the parenthesis and a
    right parenthesis follows it, and the node is that of [L]. *)
Theorem parenthesised_logic (n : nat) (P : Parser) (c : Logic) (P' : Parser)
  (Hp : Tok_is P Token.l_paren = true) :
  parseComparison (S n) P = Ret (Some c) P' <->
  exists P1, parseLogic n (advance P) = Ret (Some c) P1 /\
             Tok_is P1 Token.r_paren = true /\ P' = advance P1.
Proof.
  simpl. rewrite Hp. unfold call, bind. split.
  - destruct (parseLogic n (advance P)) as [|[r|] P1]; try discriminate.
    unfold consume, expect.
    destruct (Tok_is P1 Token.r_paren) eqn:E; [|discriminate].
    intros H. injection H as <- <-. eauto.
  - intros (P1 & H & E & ->). rewrite H. unfold consume, expect.
    now rewrite E.
Qed.

Lemma parenthesised_logic_witness :
  parseComparison 5 (start paren_a_and_b) =
  Ret (Some (LogicalExpr (Comparison None None None "a")
                         (Comparison None None None "b") LogicalExpr.And))
      (start []).
Proof.
  apply (proj2 (parenthesised_logic 4 (start paren_a_and_b) _ _ eq_refl)).
  exists (start [t_rparen]). repeat split.
Defined.

(** ** Unary statements and assignments *)

(** parseUnary succeeds exactly on an identifier followed at once by [++]
    or [--]; it builds the UnaryOp on that identifier and consumes these
    two tokens, reporting nothing. *)
Theorem parseUnary_succeeds_iff (P : Parser) (u : Expr) (P' : Parser) :
  parseUnary P = Ret (Some u) P' <->
  getKind P = Token.ident /\ P' = advance (advance P) /\
  ((getKind (advance P) = Token.plus_plus /\
    u = UnaryOp UnaryOp.Plus_plus (getText P)) \/
   (getKind (advance P) = Token.minus_minus /\
    u = UnaryOp UnaryOp.Minus_minus (getText P))).
Proof.
  unfold parseUnary, expecting, expect. split.
  - destruct (Tok_is P Token.ident) eqn:K; [|discriminate].
    apply Tok_is_true in K.
    destruct (Tok_is (advance P) Token.plus_plus) eqn:E1.
    { intros H. injection H as <- <-. apply Tok_is_true in E1. auto. }
    destruct (Tok_is (advance P) Token.minus_minus) eqn:E2; [|discriminate].
    intros H. injection H as <- <-. apply Tok_is_true in E2. auto 6.
  - intros (K & -> & [[E ->]|[E ->]]); apply Tok_is_true in K; rewrite K.
    + apply Tok_is_true in E. now rewrite E.
    + assert (Tok_is (advance P) Token.plus_plus = false) as ->.
      { apply Tok_is_false. rewrite E. discriminate. }
      apply Tok_is_true in E. now rewrite E.
Qed.

(** Every Assignment node parseAssign returns has exactly one right-hand
    side, arithmetic or logic, and a logic right-hand side occurs only
    with the plain [=]: the compound operators carry an arithmetic one. *)
Theorem assignment_one_right_hand_side
  (n : nat) (P : Parser) (a : Assignment) (P' : Parser)
  (H : parseAssign n P = Ret (Some a) P') :
  ((exists E, asg_RightExpr a = Some E /\ asg_RightLogicExpr a = None) \/
   (exists L, asg_RightLogicExpr a = Some L /\ asg_RightExpr a = None /\
              asg_AK a = Assignment.Assign)).
Proof.
  unfold parseAssign in H.
  apply call_Some_inv in H as (F & P1 & _ & H).
  assert (forall AK P2,
    (do E, P3 <- parseExpr n (advance P2);
     Ret (Some (new_Assignment F (Some E) AK None)) P3) = Ret (Some a) P' ->
    exists E, asg_RightExpr a = Some E /\ asg_RightLogicExpr a = None) as HT.
  { intros AK P2 HE. apply call_Some_inv in HE as (E & P3 & _ & HE).
    injection HE as <- _. simpl. eauto. }
  destruct (Tok_is P1 Token.assign).
  { unfold bind in H.
    destruct (parseLogic n (advance P1)) as [|[L|] P2]; [discriminate| |].
    - injection H as <- _. right. simpl. eauto.
    - left. exact (HT _ _ H). }
  destruct (Tok_is P1 Token.plus_assign); [left; exact (HT _ _ H)|].
  destruct (Tok_is P1 Token.minus_assign); [left; exact (HT _ _ H)|].
  destruct (Tok_is P1 Token.star_assign); [left; exact (HT _ _ H)|].
  destruct (Tok_is P1 Token.slash_assign); [left; exact (HT _ _ H)|].
  discriminate H.
Qed.

Lemma assignment_one_right_hand_side_witness :
  (exists E, Some (Final Final.Number "1") = Some E /\ @None Logic = None) \/
  (exists L, @None Logic = Some L /\ Some (Final Final.Number "1") = None /\
             Assignment.Minus_assign = Assignment.Assign).
Proof.
  exact (assignment_one_right_hand_side 5 (start x_minus_assign_1)
           (new_Assignment (Final Final.Ident "x")
              (Some (Final Final.Number "1")) Assignment.Minus_assign None)
           (start [t_semi]) eq_refl).
Defined.

(** ** What the routines change besides the cursor *)

Section Frame.

(** [I] is a property of parser states that moving the cursor and
    reporting a diagnostic do not break. *)
Variable I : Parser -> Prop.
Hypothesis I_setTok : forall P ts, I P -> I (setTok P ts).
Hypothesis I_error : forall P, I P -> I (error P).

#[local] Abbreviation preserves := (preserves I).

Lemma I_advance (P : Parser) : I P -> I (advance P).
Proof.
  intros H. unfold advance. destruct (Tok P); [exact H|].
  destruct (Tok_is P Token.eoi); [exact H | now apply I_setTok].
Qed.

Lemma I_skip (P : Parser) : I P -> I (skip_to_eoi P).
Proof. intros H. now apply I_setTok. Qed.

Lemma preserves_fuel {A : Type} : preserves (@OutOfFuel A).
Proof. intros a P H. discriminate H. Qed.

Lemma preserves_Ret {A : Type} (a : A) (P : Parser) :
  I P -> preserves (Ret a P).
Proof. intros HI b P' H. injection H as _ <-. exact HI. Qed.

Lemma preserves_panic {A : Type} (P : Parser) :
  I P -> preserves (@panic A P).
Proof. intros HI. apply preserves_Ret. now apply I_skip. Qed.

Lemma preserves_bind {A B : Type} (r : result A)
      (k : A -> Parser -> result B) :
  preserves r -> (forall a P, I P -> preserves (k a P)) ->
  preserves (bind r k).
Proof.
  intros Hr Hk. destruct r as [|a P]; [apply preserves_fuel|].
  apply Hk. now apply (Hr a P).
Qed.

Lemma preserves_call {A B : Type} (r : result (option A))
      (k : A -> Parser -> result (option B)) :
  preserves r -> (forall a P, I P -> preserves (k a P)) ->
  preserves (call r k).
Proof.
  intros Hr Hk. apply preserves_bind; [exact Hr|].
  intros [a|] P HP; [now apply Hk | now apply preserves_panic].
Qed.

Lemma I_expect (P : Parser) (K : TokenKind) : I P -> I (snd (expect P K)).
Proof. intros H. unfold expect. destruct (Tok_is P K); simpl; auto. Qed.

Lemma I_consume (P : Parser) (K : TokenKind) : I P -> I (snd (consume P K)).
Proof.
  intros H. unfold consume, expect.
  destruct (Tok_is P K); simpl; auto using I_advance.
Qed.

Lemma preserves_expecting {A : Type} (P : Parser) (K : TokenKind)
      (k : Parser -> result (option A)) :
  I P -> (forall P1, I P1 -> preserves (k P1)) ->
  preserves (expecting P K k).
Proof.
  intros HP Hk. unfold expecting. pose proof (I_expect P K HP) as HE.
  destruct (expect P K) as [[|] P1]; simpl in HE;
    [now apply preserves_panic | now apply Hk].
Qed.

Ltac I_side := solve [ auto 6 using I_advance, I_skip ].

Ltac preserves_step :=
  match goal with
  | |- preserves OutOfFuel => apply preserves_fuel
  | |- preserves (panic _) => apply preserves_panic; I_side
  | |- preserves (Ret _ _) => apply preserves_Ret; I_side
  | |- preserves (call _ _) => apply preserves_call; [|intros ? ? ?]
  | |- preserves (bind _ _) => apply preserves_bind; [|intros ? ? ?]
  | |- preserves (expecting _ _ _) =>
      apply preserves_expecting; [I_side|intros ? ?]
  | |- preserves (let (_, _) := consume ?P ?K in _) =>
      let H := fresh "HC" in
      assert (I (snd (consume P K))) as H by (apply I_consume; I_side);
      destruct (consume P K); simpl in H
  | |- preserves (if ?b then _ else _) => destruct b
  | |- preserves (match ?x with _ => _ end) => destruct x
  end.

Ltac preserves_leaf :=
  match goal with
  | H : _ |- preserves _ => apply H; I_side
  end.

Ltac preserves_auto := repeat (preserves_step || preserves_leaf).

Lemma arith_preserves (n : nat) :
  (forall P, I P -> preserves (parseExpr n P)) /\
  (forall L P, I P -> preserves (parseExpr_loop n L P)) /\
  (forall P, I P -> preserves (parseTerm n P)) /\
  (forall L P, I P -> preserves (parseTerm_loop n L P)) /\
  (forall P, I P -> preserves (parseFactor n P)) /\
  (forall L P, I P -> preserves (parseFactor_loop n L P)) /\
  (forall P, I P -> preserves (parseFinal n P)).
Proof.
  induction n as [|n (IHe & IHel & IHt & IHtl & IHf & IHfl & IHfin)].
  - repeat split; intros; apply preserves_fuel.
  - repeat split; intros; simpl; preserves_auto.
Qed.

Lemma parseExpr_preserves (n : nat) (P : Parser) :
  I P -> preserves (parseExpr n P).
Proof. apply arith_preserves. Qed.

Lemma parseFinal_preserves (n : nat) (P : Parser) :
  I P -> preserves (parseFinal n P).
Proof. apply arith_preserves. Qed.

Lemma logic_preserves (n : nat) :
  (forall P, I P -> preserves (parseLogic n P)) /\
  (forall L P, I P -> preserves (parseLogic_loop n L P)) /\
  (forall P, I P -> preserves (parseComparison n P)).
Proof.
  pose proof parseExpr_preserves as HE.
  induction n as [|n (IHl & IHll & IHc)].
  - repeat split; intros; apply preserves_fuel.
  - repeat split; intros; simpl; preserves_auto.
Qed.

Lemma parseLogic_preserves (n : nat) (P : Parser) :
  I P -> preserves (parseLogic n P).
Proof. apply logic_preserves. Qed.

Lemma parseAssign_preserves (n : nat) (P : Parser) :
  I P -> preserves (parseAssign n P).
Proof.
  pose proof parseExpr_preserves as HE.
  pose proof parseFinal_preserves as HF.
  pose proof parseLogic_preserves as HL.
  intros H. unfold parseAssign. preserves_auto.
Qed.

Lemma parseUnary_preserves (P : Parser) : I P -> preserves (parseUnary P).
Proof. intros H. unfold parseUnary. preserves_auto. Qed.

Lemma parseDec_vars_preserves (n : nat) : forall Vars count P,
  I P -> preserves (parseDec_vars n Vars count P).
Proof. induction n as [|n IH]; intros; simpl; preserves_auto. Qed.

Lemma parseDec_values_preserves (n : nat) : forall f Values count P,
  (forall P1, I P1 -> preserves (f P1)) ->
  I P -> preserves (parseDec_values n f Values count P).
Proof.
  induction n as [|n IH]; intros f Values count P Hf HP; simpl;
    preserves_auto.
Qed.

Lemma parseDec_preserves (KW : TokenKind)
      (f : Parser -> result (option Init)) (n : nat) (P : Parser) :
  (forall P1, I P1 -> preserves (f P1)) ->
  I P -> preserves (parseDec KW f n P).
Proof.
  intros Hf HP. unfold parseDec.
  preserves_auto;
    try (apply parseDec_vars_preserves; I_side);
    try (apply parseDec_values_preserves; [exact Hf | I_side]).
Qed.

Lemma parseIntDec_preserves (n : nat) (P : Parser) :
  I P -> preserves (parseIntDec n P).
Proof.
  pose proof parseExpr_preserves as HE.
  apply parseDec_preserves. intros P1 H1. unfold initExpr. preserves_auto.
Qed.

Lemma parseBoolDec_preserves (n : nat) (P : Parser) :
  I P -> preserves (parseBoolDec n P).
Proof.
  pose proof parseLogic_preserves as HL.
  apply parseDec_preserves. intros P1 H1. unfold initLogic. preserves_auto.
Qed.

Lemma parseBlock_preserves (n : nat) : forall assignments P,
  I P -> preserves (parseBlock n assignments P).
Proof.
  pose proof parseAssign_preserves as HA.
  induction n as [|n IH]; intros; simpl; preserves_auto.
Qed.

Lemma parseIter_preserves (n : nat) (P : Parser) :
  I P -> preserves (parseIter n P).
Proof.
  pose proof parseLogic_preserves as HL.
  pose proof parseBlock_preserves as HB.
  intros H. unfold parseIter. preserves_auto.
Qed.

Lemma parseProgram_ident_preserves (n : nat) (P : Parser) :
  I P -> preserves (parseProgram_ident n P).
Proof.
  pose proof parseAssign_preserves as HA.
  pose proof parseUnary_preserves as HU.
  intros H. unfold parseProgram_ident, assignment_statement.
  preserves_auto.
Qed.

(** The routines that also write the flag haveElse. *)
Hypothesis I_flag : forall P b, I P -> I (setHaveElse P b).

Lemma parseElifs_preserves (n : nat) : forall elifStmts P,
  I P -> preserves (parseElifs n elifStmts P).
Proof.
  pose proof parseLogic_preserves as HL.
  pose proof parseBlock_preserves as HB.
  induction n as [|n IH]; intros; simpl; preserves_auto.
Qed.

Lemma parseIf_preserves (n : nat) (P : Parser) :
  I P -> preserves (parseIf n P).
Proof.
  pose proof parseLogic_preserves as HL.
  pose proof parseBlock_preserves as HB.
  pose proof parseElifs_preserves as HE.
  intros H. unfold parseIf.
  assert (I (setHaveElse P false)) as H0 by now apply I_flag.
  preserves_auto.
  all: try (apply HB; apply I_advance; now apply I_advance, I_flag).
Qed.

End Frame.

(** ** Diagnostics *)

Lemma quiet_fuel {A : Type} (d : nat) : quiet d (@OutOfFuel (option A)).
Proof. intros a P H. discriminate H. Qed.

Lemma quiet_panic {A : Type} (d : nat) (P : Parser) : quiet d (@panic A P).
Proof. intros a P' H. discriminate H. Qed.

Lemma quiet_Some {A : Type} (d : nat) (a : A) (P : Parser) :
  Diags P = d -> quiet d (Ret (Some a) P).
Proof. intros HD b P' H. injection H as _ <-. exact HD. Qed.

Lemma quiet_call {A B : Type} (d : nat) (r : result (option A))
      (k : A -> Parser -> result (option B)) :
  quiet d r -> (forall a P, Diags P = d -> quiet d (k a P)) ->
  quiet d (call r k).
Proof.
  intros Hr Hk. unfold call, bind. destruct r as [|[a|] P].
  - apply quiet_fuel.
  - apply Hk. now apply (Hr a P).
  - apply quiet_panic.
Qed.

Lemma quiet_expecting {A : Type} (d : nat) (P : Parser) (K : TokenKind)
      (k : Parser -> result (option A)) :
  Diags P = d -> (forall P1, Diags P1 = d -> quiet d (k P1)) ->
  quiet d (expecting P K k).
Proof.
  intros HP Hk. unfold expecting, expect.
  destruct (Tok_is P K); [now apply Hk | apply quiet_panic].
Qed.

Lemma Diags_consume (P : Parser) (K : TokenKind) :
  fst (consume P K) = false -> Diags (snd (consume P K)) = Diags P.
Proof.
  unfold consume, expect. destruct (Tok_is P K); simpl; [|discriminate].
  intros _. apply Diags_advance.
Qed.

Create Rewrite HintDb diags.

#[local] Hint Rewrite Diags_advance : diags.

Ltac diags_side :=
  solve [ autorewrite with diags; (assumption || congruence) ].

Ltac quiet_step :=
  match goal with
  | |- quiet _ OutOfFuel => apply quiet_fuel
  | |- quiet _ (panic _) => apply quiet_panic
  | |- quiet _ (Ret (Some _) _) => apply quiet_Some; diags_side
  | |- quiet _ (call _ _) => apply quiet_call; [|intros ? ? ?]
  | |- quiet _ (expecting _ _ _) =>
      apply quiet_expecting; [diags_side|intros ? ?]
  | |- quiet _ (let (_, _) := consume ?P ?K in _) =>
      let H := fresh "HC" in
      pose proof (Diags_consume P K) as H;
      destruct (consume P K) as [[|] ?]; simpl in H;
      [|specialize (H eq_refl)]; cbv beta iota delta [negb]
  | |- quiet _ (if ?b then _ else _) => destruct b
  | |- quiet _ (match ?x with _ => _ end) => destruct x
  end.

Ltac quiet_leaf :=
  match goal with
  | H : _ |- quiet _ _ => apply H; diags_side
  end.

Ltac quiet_auto := repeat (quiet_step || quiet_leaf).

Lemma arith_quiet (n : nat) :
  (forall P d, Diags P = d -> quiet d (parseExpr n P)) /\
  (forall L P d, Diags P = d -> quiet d (parseExpr_loop n L P)) /\
  (forall P d, Diags P = d -> quiet d (parseTerm n P)) /\
  (forall L P d, Diags P = d -> quiet d (parseTerm_loop n L P)) /\
  (forall P d, Diags P = d -> quiet d (parseFactor n P)) /\
  (forall L P d, Diags P = d -> quiet d (parseFactor_loop n L P)) /\
  (forall P d, Diags P = d -> quiet d (parseFinal n P)).
Proof.
  induction n as [|n (IHe & IHel & IHt & IHtl & IHf & IHfl & IHfin)].
  - repeat split; intros; apply quiet_fuel.
  - repeat split; intros; simpl; quiet_auto.
Qed.

Lemma parseExpr_quiet (n : nat) (P : Parser) (d : nat) :
  Diags P = d -> quiet d (parseExpr n P).
Proof. apply arith_quiet. Qed.

Lemma logic_quiet (n : nat) :
  (forall P d, Diags P = d -> quiet d (parseLogic n P)) /\
  (forall L P d, Diags P = d -> quiet d (parseLogic_loop n L P)) /\
  (forall P d, Diags P = d -> quiet d (parseComparison n P)).
Proof.
  pose proof parseExpr_quiet as HE.
  induction n as [|n (IHl & IHll & IHc)].
  - repeat split; intros; apply quiet_fuel.
  - repeat split; intros; simpl; quiet_auto.
Qed.

Lemma parseLogic_quiet (n : nat) (P : Parser) (d : nat) :
  Diags P = d -> quiet d (parseLogic n P).
Proof. apply logic_quiet. Qed.

Lemma parseDec_vars_quiet (n : nat) : forall Vars count P d,
  Diags P = d -> quiet d (parseDec_vars n Vars count P).
Proof. induction n as [|n IH]; intros; simpl; quiet_auto. Qed.

Lemma parseDec_values_quiet (n : nat) : forall f Values count P d,
  (forall P1 d1, Diags P1 = d1 -> quiet d1 (f P1)) ->
  Diags P = d -> quiet d (parseDec_values n f Values count P).
Proof.
  induction n as [|n IH]; intros f Values count P d Hf HP; simpl;
    quiet_auto.
Qed.

Lemma parseDec_quiet (KW : TokenKind) (f : Parser -> result (option Init))
      (n : nat) (P : Parser) (d : nat) :
  (forall P1 d1, Diags P1 = d1 -> quiet d1 (f P1)) ->
  Diags P = d -> quiet d (parseDec KW f n P).
Proof.
  intros Hf HP. unfold parseDec.
  quiet_auto;
    try (apply parseDec_vars_quiet; diags_side);
    try (apply parseDec_values_quiet; [exact Hf | diags_side]).
Qed.

(** A successful parse of an arithmetic expression, of a logic
    expression, of a unary statement or of a declaration reports no
    diagnostic. *)
Theorem success_reports_nothing (n : nat) (P P' : Parser) :
  (forall e, parseExpr n P = Ret (Some e) P' -> Diags P' = Diags P) /\
  (forall c, parseLogic n P = Ret (Some c) P' -> Diags P' = Diags P) /\
  (forall u, parseUnary P = Ret (Some u) P' -> Diags P' = Diags P) /\
  (forall d, parseIntDec n P = Ret (Some d) P' -> Diags P' = Diags P) /\
  (forall d, parseBoolDec n P = Ret (Some d) P' -> Diags P' = Diags P).
Proof.
  repeat split.
  - intros e H. exact (parseExpr_quiet n P _ eq_refl _ _ H).
  - intros c H. exact (parseLogic_quiet n P _ eq_refl _ _ H).
  - intros u H. apply parseUnary_succeeds_iff in H as (_ & -> & _).
    now rewrite !Diags_advance.
  - intros d H. revert H. apply parseDec_quiet; [|reflexivity].
    intros P1 d1 H1. unfold initExpr.
    pose proof parseExpr_quiet as HE. quiet_auto.
  - intros d H. revert H. apply parseDec_quiet; [|reflexivity].
    intros P1 d1 H1. unfold initLogic.
    pose proof parseLogic_quiet as HL. quiet_auto.
Qed.

Lemma success_reports_nothing_witness :
  Diags (start [t_semi]) = Diags (start int_a_b_1_2).
Proof.
  exact (proj1 (proj2 (proj2 (proj2
           (success_reports_nothing 10 (start int_a_b_1_2)
              (start [t_semi])))))
           (new_Declaration ["a"; "b"]
              [InitExpr (Final Final.Number "1");
               InitExpr (Final Final.Number "2")]) eq_refl).
Defined.



(** The flag haveElse is written by parseIf (and by the statement loop)
    only: every other routine leaves it as it found it. *)
Theorem flag_untouched (n : nat) (P : Parser) :
  let I := fun Q : Parser => haveElse Q = haveElse P in
  preserves I (parseExpr n P) /\ preserves I (parseLogic n P) /\
  preserves I (parseAssign n P) /\ preserves I (parseUnary P) /\
  preserves I (parseIntDec n P) /\ preserves I (parseBoolDec n P) /\
  preserves I (parseIter n P) /\ preserves I (parseProgram_ident n P).
Proof.
  intros I.
  assert (forall Q ts, I Q -> I (setTok Q ts)) as H1 by (intros; assumption).
  assert (forall Q, I Q -> I (error Q)) as H2 by (intros; assumption).
  assert (I P) as HP by reflexivity.
  repeat split.
  - exact (parseExpr_preserves I H1 H2 n P HP).
  - exact (parseLogic_preserves I H1 H2 n P HP).
  - exact (parseAssign_preserves I H1 H2 n P HP).
  - exact (parseUnary_preserves I H1 H2 P HP).
  - exact (parseIntDec_preserves I H1 H2 n P HP).
  - exact (parseBoolDec_preserves I H1 H2 n P HP).
  - exact (parseIter_preserves I H1 H2 n P HP).
  - exact (parseProgram_ident_preserves I H1 H2 n P HP).
Qed.

(** ** Declarations without initialisers *)

Lemma parseDec_vars_names (rest : list Token) (h : bool) (d : nat)
      (xs : list string) : forall Vars count n,
  List.length xs < n ->
  parseDec_vars n Vars count
    (mkParser (more_names xs ++ tk Token.semicolon ";" :: rest) h d) =
  Ret (Some (Vars ++ xs, (count + Z.of_nat (List.length xs))%Z))
      (mkParser (tk Token.semicolon ";" :: rest) h d).
Proof.
  induction xs as [|y xs IH]; intros Vars count n Hn;
    (destruct n as [|n]; [simpl in Hn; lia|]).
  - simpl. now rewrite app_nil_r, Z.add_0_r.
  - simpl in Hn.
    change (parseDec_vars (S n) Vars count
              (mkParser (more_names (y :: xs) ++ tk Token.semicolon ";"
                           :: rest) h d))
      with (parseDec_vars n (Vars ++ [y]) (count + 1)%Z
              (mkParser (more_names xs ++ tk Token.semicolon ";" :: rest)
                        h d)).
    rewrite IH by lia. rewrite <- app_assoc.
    change (List.length (y :: xs)) with (S (List.length xs)).
    rewrite Nat2Z.inj_succ.
    replace (count + 1 + Z.of_nat (List.length xs))%Z
      with (count + Z.succ (Z.of_nat (List.length xs)))%Z by lia.
    reflexivity.
Qed.

(** A declaration of a list of names without initialisers is read back
    name by name: [int x , x1 , ... ;] (and likewise [bool ...]) yields the
    Declaration of exactly these names, in order, with no initialiser, and
    leaves the cursor on the [;]. *)
Theorem declaration_of_names
  (x : string) (xs : list string) (rest : list Token) (h : bool) (d n : nat)
  (Hn : List.length xs < n) :
  parseIntDec n
    (mkParser (tk Token.KW_int "int" :: tk Token.ident x ::
               more_names xs ++ tk Token.semicolon ";" :: rest) h d) =
  Ret (Some (new_Declaration (x :: xs) []))
      (mkParser (tk Token.semicolon ";" :: rest) h d) /\
  parseBoolDec n
    (mkParser (tk Token.KW_bool "bool" :: tk Token.ident x ::
               more_names xs ++ tk Token.semicolon ";" :: rest) h d) =
  Ret (Some (new_Declaration (x :: xs) []))
      (mkParser (tk Token.semicolon ";" :: rest) h d).
Proof.
  pose proof (parseDec_vars_names rest h d xs [x] 1%Z n Hn) as HV.
  split.
  - unfold parseIntDec, parseDec.
    change (expecting _ Token.KW_int _) with
      (do vc, P2 <- parseDec_vars n [x] 1%Z
         (mkParser (more_names xs ++ tk Token.semicolon ";" :: rest) h d);
       do Values, P3 <-
          (if Tok_is P2 Token.assign then
             do E, P4 <- initExpr n (advance P2);
             parseDec_values n (initExpr n) [E] (snd vc - 1)%Z P4
           else Ret (Some []) P2);
       expecting P3 Token.semicolon (fun P5 =>
       Ret (Some (new_Declaration (fst vc) Values)) P5)).
    rewrite HV. reflexivity.
  - unfold parseBoolDec, parseDec.
    change (expecting _ Token.KW_bool _) with
      (do vc, P2 <- parseDec_vars n [x] 1%Z
         (mkParser (more_names xs ++ tk Token.semicolon ";" :: rest) h d);
       do Values, P3 <-
          (if Tok_is P2 Token.assign then
             do E, P4 <- initLogic n (advance P2);
             parseDec_values n (initLogic n) [E] (snd vc - 1)%Z P4
           else Ret (Some []) P2);
       expecting P3 Token.semicolon (fun P5 =>
       Ret (Some (new_Declaration (fst vc) Values)) P5)).
    rewrite HV. reflexivity.
Qed.

Lemma declaration_of_names_witness :
  parseIntDec 3
    (mkParser (tk Token.KW_int "int" :: tk Token.ident "a" ::
               more_names ["b"; "c"] ++ tk Token.semicolon ";" :: []) false 0)
  = Ret (Some (new_Declaration ["a"; "b"; "c"] []))
        (mkParser [tk Token.semicolon ";"] false 0).
Proof.
  apply (proj1 (declaration_of_names "a" ["b"; "c"] [] false 0 3
                  ltac:(simpl; lia))).
Defined.

(** ** Blocks, if statements and loop statements *)

(** An if statement parsed without an else clause has an empty else
    list, and it was parsed from a state whose current token is [if]. *)
Theorem parseIf_without_else
  (n : nat) (P : Parser) (i : IfStmt) (P' : Parser)
  (H : parseIf n P = Ret (Some i) P')
  (Hflag : haveElse P' = false) :
  elseAssignments i = [] /\ Tok_is P Token.KW_if = true.
Proof.
  unfold parseIf in H.
  apply expecting_Some_inv in H as [K H].
  apply call_Some_inv in H as (Cond & P2 & _ & H).
  apply expecting_Some_inv in H as [_ H].
  apply expecting_Some_inv in H as [_ H].
  apply call_Some_inv in H as (ifA & P5 & _ & H).
  apply call_Some_inv in H as (elifs & P6 & _ & H).
  split; [|exact K].
  destruct (Tok_is P6 Token.KW_else).
  - apply expecting_Some_inv in H as [_ H].
    apply expecting_Some_inv in H as [_ H].
    apply call_Some_inv in H as (elseA & P10 & HB & H).
    apply parseBlock_keeps_flag with (h := true) in HB;
      [|now rewrite !haveElse_advance].
    injection H as _ <-. congruence.
  - now injection H as <- _.
Qed.

Lemma parseIf_without_else_witness :
  elseAssignments if_true_empty_node = [] /\
  Tok_is (start if_true_empty) Token.KW_if = true.
Proof.
  exact (parseIf_without_else 10 (start if_true_empty) if_true_empty_node
           (start []) eq_refl eq_refl).
Defined.

(** parseIter accepts only a statement that starts with [loopc], and on
    success it leaves the cursor on the [end] of its block, which it does
    not consume. *)
Theorem parseIter_leaves
  (n : nat) (P : Parser) (w : WhileStmt) (P' : Parser)
  (H : parseIter n P = Ret (Some w) P') :
  Tok_is P Token.KW_loopc = true /\ Tok_is P' Token.KW_end = true.
Proof.
  unfold parseIter in H.
  apply expecting_Some_inv in H as [K H].
  apply call_Some_inv in H as (Cond & P2 & _ & H).
  apply expecting_Some_inv in H as [_ H].
  apply expecting_Some_inv in H as [_ H].
  apply call_Some_inv in H as (asg & P5 & HB & H).
  injection H as _ <-. split; [exact K|].
  exact (parseBlock_end _ _ _ _ _ HB).
Qed.

Lemma parseIter_leaves_witness :
  Tok_is (start loopc_true_empty) Token.KW_loopc = true /\
  Tok_is (start [t_end]) Token.KW_end = true.
Proof.
  exact (parseIter_leaves 10 (start loopc_true_empty)
           (new_WhileStmt (Comparison None None None "true") [])
           (start [t_end]) eq_refl).
Defined.

(** A block loop returns the list it was started with followed by
    exactly the assignments that parseAssign reads one after the other,
    each followed by [;], in source order, up to the first [end], on which
    it leaves the cursor. *)
Theorem parseBlock_appends
  (assignments : list Assignment) (P : Parser)
  (l : list Assignment) (P' : Parser) :
  (exists n, parseBlock n assignments P = Ret (Some l) P') <->
  (exists more, l = assignments ++ more /\ block_items P more P').
Proof.
  split.
  - intros [n H]. revert assignments P H.
    induction n as [|n IH]; intros assignments P H; [discriminate|].
    simpl in H. destruct (Tok_is P Token.KW_end) eqn:E; simpl in H.
    + injection H as <- <-. exists []. rewrite app_nil_r.
      split; [reflexivity | now constructor].
    + apply call_Some_inv in H as (a & P1 & HA & H).
      apply expecting_Some_inv in H as [HS H].
      apply IH in H as (more & -> & HB).
      exists (a :: more). rewrite <- app_assoc. split; [reflexivity|].
      now apply block_items_next with (n := n) (P1 := P1).
  - intros (more & -> & HB). revert assignments.
    induction HB as [P HE|P n a P1 more P' HE HA HS _ IH];
      intros assignments.
    + exists 1. simpl. rewrite HE, app_nil_r. reflexivity.
    + destruct (IH (assignments ++ [a])) as [n' H'].
      exists (S (Nat.max n n')). simpl. rewrite HE. simpl.
      rewrite (parseAssign_fuel_le n (Nat.max n n') P ltac:(lia) _ _ HA).
      unfold call, bind, expecting, expect. rewrite HS.
      rewrite <- app_assoc in H'.
      exact (parseBlock_fuel_le n' (Nat.max n n') _ _ ltac:(lia) _ _ H').
Qed.

(** ** The statement loop: empty input and unknown statement starts *)

Section LoopEdges.

Variables ForStmt PrintStmt : Type.
Variable parseWhile : nat -> Parser -> result (option WhileStmt).
Variable parseFor : nat -> Parser -> result (option ForStmt).
Variable parsePrint : nat -> Parser -> result (option PrintStmt).

#[local] Abbreviation parse' := (parse parseWhile parseFor parsePrint).

(** parse returns the empty Program exactly on empty input (the cursor on
    the end-of-input sentinel), and then changes nothing. *)
Theorem empty_program_iff (P P' : Parser) :
  (exists n, parse' n P = Ret (Some (new_Program [])) P') <->
  Tok_is P Token.eoi = true /\ P' = P.
Proof.
  split.
  - intros [n H]. apply parse_returns_statements in H as [Hs He].
    simpl in Hs. inversion Hs; subst. auto.
  - intros [He ->]. exists 1. unfold parse, parseProgram.
    now apply parseProgram_loop_eoi.
Qed.

(** A token that is not [int], [bool], an identifier, [if], [while],
    [for] or [print] cannot start a statement: the parse reports one
    diagnostic, discards the rest of the input and yields the absent
    signal.  This holds for [loopc] too, so parseIter is never reached
    from parse. *)
Theorem unknown_statement_start (n : nat) (P : Parser)
  (Hk : starts_statement (getKind P) = false)
  (He : Tok_is P Token.eoi = false) :
  parse' (S n) P = Ret None (skip_to_eoi (error (setHaveElse P true))).
Proof.
  unfold parse, parseProgram.
  apply parseProgram_loop_fail; [exact He|].
  unfold parseProgram_switch.
  change (getKind (setHaveElse P true)) with (getKind P).
  destruct (getKind P); try reflexivity; discriminate Hk.
Qed.

End LoopEdges.

Lemma unknown_statement_start_witness :
  parse (ForStmt := unit) (PrintStmt := unit)
        absent_routine absent_routine absent_routine
        1 (start loopc_true_empty)
  = Ret None (mkParser [] true 1).
Proof.
  exact (unknown_statement_start unit unit
           absent_routine absent_routine absent_routine
           0 (start loopc_true_empty) eq_refl eq_refl).
Defined.

(** ** The cursor never moves back past the start of a routine *)

Lemma suffix_refl (l : list Token) : suffix l l.
Proof. now exists []. Qed.

Lemma suffix_tl (t : Token) (l ts : list Token) :
  suffix (t :: l) ts -> suffix l ts.
Proof.
  intros [pre ->]. exists (pre ++ [t]). now rewrite <- app_assoc.
Qed.

Lemma suffix_advance (P : Parser) (ts : list Token) :
  suffix (Tok P) ts -> suffix (Tok (advance P)) ts.
Proof.
  intros H. unfold advance. destruct (Tok P) as [|t l] eqn:E.
  - now rewrite E.
  - destruct (Tok_is P Token.eoi); [now rewrite E|].
    simpl. exact (suffix_tl _ _ _ H).
Qed.

Lemma suffix_skip_tokens (l ts : list Token) :
  suffix l ts -> suffix (skip_tokens l) ts.
Proof.
  induction l as [|t l IH]; intros H; simpl; [exact H|].
  destruct (Token.kind_eqb (Token.Kind t) Token.eoi); [exact H|].
  apply IH. exact (suffix_tl _ _ _ H).
Qed.

Lemma suffix_skip (P : Parser) (ts : list Token) :
  suffix (Tok P) ts -> suffix (Tok (skip_to_eoi P)) ts.
Proof. apply suffix_skip_tokens. Qed.

Lemma suffix_expect (P : Parser) (K : TokenKind) (ts : list Token) :
  suffix (Tok P) ts -> suffix (Tok (snd (expect P K))) ts.
Proof. intros H. unfold expect. now destruct (Tok_is P K). Qed.

Lemma suffix_consume (P : Parser) (K : TokenKind) (ts : list Token) :
  suffix (Tok P) ts -> suffix (Tok (snd (consume P K))) ts.
Proof.
  intros H. unfold consume, expect.
  destruct (Tok_is P K); simpl; [now apply suffix_advance | exact H].
Qed.

Lemma suffix_size (P Q : Parser) :
  suffix (Tok P) (Tok Q) -> size P <= size Q.
Proof.
  unfold size. intros [pre ->]. rewrite List.length_app. lia.
Qed.

Lemma within_fuel {A : Type} (ts : list Token) : within ts (@OutOfFuel A).
Proof. intros a P H. discriminate H. Qed.

Lemma within_Ret {A : Type} (ts : list Token) (a : A) (P : Parser) :
  suffix (Tok P) ts -> within ts (Ret a P).
Proof. intros HS b P' H. injection H as _ <-. exact HS. Qed.

Lemma within_panic {A : Type} (ts : list Token) (P : Parser) :
  suffix (Tok P) ts -> within ts (@panic A P).
Proof. intros HS. apply within_Ret. now apply suffix_skip. Qed.

Lemma within_bind {A B : Type} (ts : list Token) (r : result A)
      (k : A -> Parser -> result B) :
  within ts r -> (forall a P, suffix (Tok P) ts -> within ts (k a P)) ->
  within ts (bind r k).
Proof.
  intros Hr Hk. destruct r as [|a P]; [apply within_fuel|].
  apply Hk. now apply (Hr a P).
Qed.

Lemma within_call {A B : Type} (ts : list Token) (r : result (option A))
      (k : A -> Parser -> result (option B)) :
  within ts r -> (forall a P, suffix (Tok P) ts -> within ts (k a P)) ->
  within ts (call r k).
Proof.
  intros Hr Hk. apply within_bind; [exact Hr|].
  intros [a|] P HP; [now apply Hk | now apply within_panic].
Qed.

Lemma within_expecting {A : Type} (ts : list Token) (P : Parser)
      (K : TokenKind) (k : Parser -> result (option A)) :
  suffix (Tok P) ts ->
  (forall P1, suffix (Tok P1) ts -> within ts (k P1)) ->
  within ts (expecting P K k).
Proof.
  intros HP Hk. unfold expecting.
  pose proof (suffix_expect P K ts HP) as HE.
  destruct (expect P K) as [[|] P1]; simpl in HE;
    [now apply within_panic | now apply Hk].
Qed.

Ltac suffix_side :=
  solve [ cbn [Tok setTok error setHaveElse];
          auto 6 using suffix_advance, suffix_skip ].

Ltac within_step :=
  match goal with
  | |- within _ OutOfFuel => apply within_fuel
  | |- within _ (panic _) => apply within_panic; suffix_side
  | |- within _ (Ret _ _) => apply within_Ret; suffix_side
  | |- within _ (call _ _) => apply within_call; [|intros ? ? ?]
  | |- within _ (bind _ _) => apply within_bind; [|intros ? ? ?]
  | |- within _ (expecting _ _ _) =>
      apply within_expecting; [suffix_side|intros ? ?]
  | |- within ?ts (let (_, _) := consume ?P ?K in _) =>
      let H := fresh "HC" in
      assert (suffix (Tok (snd (consume P K))) ts) as H
        by (apply suffix_consume; suffix_side);
      destruct (consume P K); simpl in H
  | |- within _ (if ?b then _ else _) => destruct b
  | |- within _ (match ?x with _ => _ end) => destruct x
  end.

Ltac within_leaf :=
  match goal with
  | H : _ |- within _ _ => apply H; suffix_side
  end.

Ltac within_auto := repeat (within_step || within_leaf).

Lemma arith_within (n : nat) :
  (forall P ts, suffix (Tok P) ts -> within ts (parseExpr n P)) /\
  (forall L P ts, suffix (Tok P) ts -> within ts (parseExpr_loop n L P)) /\
  (forall P ts, suffix (Tok P) ts -> within ts (parseTerm n P)) /\
  (forall L P ts, suffix (Tok P) ts -> within ts (parseTerm_loop n L P)) /\
  (forall P ts, suffix (Tok P) ts -> within ts (parseFactor n P)) /\
  (forall L P ts, suffix (Tok P) ts ->
                  within ts (parseFactor_loop n L P)) /\
  (forall P ts, suffix (Tok P) ts -> within ts (parseFinal n P)).
Proof.
  induction n as [|n (IHe & IHel & IHt & IHtl & IHf & IHfl & IHfin)].
  - repeat split; intros; apply within_fuel.
  - repeat split; intros; simpl; within_auto.
Qed.

Lemma parseExpr_within (n : nat) (P : Parser) (ts : list Token) :
  suffix (Tok P) ts -> within ts (parseExpr n P).
Proof. apply arith_within. Qed.

Lemma parseTerm_within (n : nat) (P : Parser) (ts : list Token) :
  suffix (Tok P) ts -> within ts (parseTerm n P).
Proof. apply arith_within. Qed.

Lemma parseFactor_within (n : nat) (P : Parser) (ts : list Token) :
  suffix (Tok P) ts -> within ts (parseFactor n P).
Proof. apply arith_within. Qed.

Lemma parseFinal_within (n : nat) (P : Parser) (ts : list Token) :
  suffix (Tok P) ts -> within ts (parseFinal n P).
Proof. apply arith_within. Qed.

Lemma logic_within (n : nat) :
  (forall P ts, suffix (Tok P) ts -> within ts (parseLogic n P)) /\
  (forall L P ts, suffix (Tok P) ts ->
                  within ts (parseLogic_loop n L P)) /\
  (forall P ts, suffix (Tok P) ts -> within ts (parseComparison n P)).
Proof.
  pose proof parseExpr_within as HE.
  induction n as [|n (IHl & IHll & IHc)].
  - repeat split; intros; apply within_fuel.
  - repeat split; intros; simpl; within_auto.
Qed.

Lemma parseLogic_within (n : nat) (P : Parser) (ts : list Token) :
  suffix (Tok P) ts -> within ts (parseLogic n P).
Proof. apply logic_within. Qed.

Lemma parseComparison_within (n : nat) (P : Parser) (ts : list Token) :
  suffix (Tok P) ts -> within ts (parseComparison n P).
Proof. apply logic_within. Qed.

Lemma parseAssign_within (n : nat) (P : Parser) (ts : list Token) :
  suffix (Tok P) ts -> within ts (parseAssign n P).
Proof.
  pose proof parseExpr_within as HE.
  pose proof parseFinal_within as HF.
  pose proof parseLogic_within as HL.
  intros H. unfold parseAssign. within_auto.
Qed.

Lemma parseUnary_within (P : Parser) (ts : list Token) :
  suffix (Tok P) ts -> within ts (parseUnary P).
Proof. intros H. unfold parseUnary. within_auto. Qed.

Lemma parseDec_vars_within (n : nat) : forall Vars count P ts,
  suffix (Tok P) ts -> within ts (parseDec_vars n Vars count P).
Proof. induction n as [|n IH]; intros; simpl; within_auto. Qed.

Lemma parseDec_values_within (n : nat) : forall f Values count P ts,
  (forall P1 ts1, suffix (Tok P1) ts1 -> within ts1 (f P1)) ->
  suffix (Tok P) ts -> within ts (parseDec_values n f Values count P).
Proof.
  induction n as [|n IH]; intros f Values count P ts Hf HP; simpl;
    within_auto.
Qed.

Lemma parseDec_within (KW : TokenKind)
      (f : Parser -> result (option Init)) (n : nat) (P : Parser)
      (ts : list Token) :
  (forall P1 ts1, suffix (Tok P1) ts1 -> within ts1 (f P1)) ->
  suffix (Tok P) ts -> within ts (parseDec KW f n P).
Proof.
  intros Hf HP. unfold parseDec.
  within_auto;
    try (apply parseDec_vars_within; suffix_side);
    try (apply parseDec_values_within; [exact Hf | suffix_side]).
Qed.

Lemma parseIntDec_within (n : nat) (P : Parser) (ts : list Token) :
  suffix (Tok P) ts -> within ts (parseIntDec n P).
Proof.
  pose proof parseExpr_within as HE.
  apply parseDec_within. intros P1 ts1 H1. unfold initExpr. within_auto.
Qed.

Lemma parseBoolDec_within (n : nat) (P : Parser) (ts : list Token) :
  suffix (Tok P) ts -> within ts (parseBoolDec n P).
Proof.
  pose proof parseLogic_within as HL.
  apply parseDec_within. intros P1 ts1 H1. unfold initLogic. within_auto.
Qed.

Lemma parseBlock_within (n : nat) : forall assignments P ts,
  suffix (Tok P) ts -> within ts (parseBlock n assignments P).
Proof.
  pose proof parseAssign_within as HA.
  induction n as [|n IH]; intros; simpl; within_auto.
Qed.

Lemma parseElifs_within (n : nat) : forall elifStmts P ts,
  suffix (Tok P) ts -> within ts (parseElifs n elifStmts P).
Proof.
  pose proof parseLogic_within as HL.
  pose proof parseBlock_within as HB.
  induction n as [|n IH]; intros; simpl; within_auto.
Qed.

Lemma parseIf_within (n : nat) (P : Parser) (ts : list Token) :
  suffix (Tok P) ts -> within ts (parseIf n P).
Proof.
  pose proof parseLogic_within as HL.
  pose proof parseBlock_within as HB.
  pose proof parseElifs_within as HE.
  intros H. unfold parseIf. within_auto.
Qed.

Lemma parseIter_within (n : nat) (P : Parser) (ts : list Token) :
  suffix (Tok P) ts -> within ts (parseIter n P).
Proof.
  pose proof parseLogic_within as HL.
  pose proof parseBlock_within as HB.
  intros H. unfold parseIter. within_auto.
Qed.

Lemma parseProgram_ident_within (n : nat) (P : Parser) (ts : list Token) :
  suffix (Tok P) ts -> within ts (parseProgram_ident n P).
Proof.
  pose proof parseAssign_within as HA.
  pose proof parseUnary_within as HU.
  intros H. unfold parseProgram_ident, assignment_statement. within_auto.
Qed.

(** No routine moves the cursor back past the position it started from,
    not even when it restores a snapshot after a failed trial parse: the
    tokens a routine leaves are always a suffix of the tokens it found. *)
Theorem cursor_never_moves_back (n : nat) (P : Parser) :
  within (Tok P) (parseExpr n P) /\ within (Tok P) (parseLogic n P) /\
  within (Tok P) (parseAssign n P) /\ within (Tok P) (parseUnary P) /\
  within (Tok P) (parseIntDec n P) /\ within (Tok P) (parseBoolDec n P) /\
  within (Tok P) (parseIf n P) /\ within (Tok P) (parseIter n P) /\
  within (Tok P) (parseProgram_ident n P).
Proof.
  pose proof (suffix_refl (Tok P)) as H.
  repeat split.
  - now apply parseExpr_within.
  - now apply parseLogic_within.
  - now apply parseAssign_within.
  - now apply parseUnary_within.
  - now apply parseIntDec_within.
  - now apply parseBoolDec_within.
  - now apply parseIf_within.
  - now apply parseIter_within.
  - now apply parseProgram_ident_within.
Qed.

(** The assignment [x = 1 + 2 ;] is parsed after a failed trial parse and
    a restored cursor; what is left is a suffix of the input. *)
Lemma cursor_never_moves_back_witness :
  suffix [t_semi] x_eq_1_plus_2.
Proof.
  exact (proj1 (proj2 (proj2 (cursor_never_moves_back 10
                                (start x_eq_1_plus_2))))
           _ _ (proj2 parseAssign_examples)).
Defined.

(** ** A successful parse consumes at least one token *)

Lemma size_advance_le (P : Parser) : size (advance P) <= size P.
Proof. apply suffix_size, suffix_advance, suffix_refl. Qed.

Lemma size_advance_kind (P : Parser) :
  getKind P <> Token.eoi -> size (advance P) < size P.
Proof.
  unfold advance, Tok_is, getKind, size. destruct (Tok P) as [|t l].
  - intros H. now contradiction H.
  - intros H. destruct (Token.kind_eqb (Token.Kind t) Token.eoi) eqn:E.
    + contradiction H. now destruct (Token.Kind t).
    + simpl. lia.
Qed.

Lemma Tok_is_getKind (P : Parser) (K : TokenKind) :
  Tok_is P K = true -> getKind P = K.
Proof. unfold Tok_is. now destruct (getKind P), K. Qed.

Lemma size_advance_lt (P : Parser) (K : TokenKind) :
  Tok_is P K = true -> K <> Token.eoi -> size (advance P) < size P.
Proof.
  intros H HK. apply size_advance_kind.
  now rewrite (Tok_is_getKind P K H).
Qed.

Lemma within_size {A : Type} (r : result A) (Q : Parser) (a : A)
      (P : Parser) :
  within (Tok Q) r -> r = Ret a P -> size P <= size Q.
Proof. intros H E. exact (suffix_size _ _ (H a P E)). Qed.

Lemma consumes_within {A : Type} (P Q : Parser) (r : result (option A)) :
  size Q < size P -> within (Tok Q) r -> consumes P r.
Proof.
  intros HQ H a P' E. pose proof (within_size r Q _ P' H E). lia.
Qed.

Lemma consumes_panic {A : Type} (P Q : Parser) : consumes P (@panic A Q).
Proof. intros a P' E. discriminate E. Qed.

Lemma consumes_call {A B : Type} (P : Parser) (r : result (option A))
      (k : A -> Parser -> result (option B)) :
  consumes P r -> (forall a P1, within (Tok P1) (k a P1)) ->
  consumes P (call r k).
Proof.
  intros Hr Hk b P' E. unfold call, bind in E.
  destruct r as [|[a|] P1]; try discriminate E.
  pose proof (Hr a P1 eq_refl). pose proof (within_size _ _ _ _ (Hk a P1) E).
  lia.
Qed.

Lemma consumes_expecting {A : Type} (P : Parser) (K : TokenKind)
      (k : Parser -> result (option A)) :
  (Tok_is P K = true -> consumes P (k P)) -> consumes P (expecting P K k).
Proof.
  intros Hk. unfold expecting, expect. destruct (Tok_is P K).
  - now apply Hk.
  - apply consumes_panic.
Qed.

Lemma parseFinal_consumes (n : nat) (P : Parser) :
  consumes P (parseFinal n P).
Proof.
  pose proof parseExpr_within as HE.
  destruct n as [|n]; [intros a P' E; discriminate E|].
  simpl. destruct (getKind P) eqn:K;
    try (intros a P' E; discriminate E);
    (apply (consumes_within P (advance P));
     [apply size_advance_kind; rewrite K; discriminate|]);
    pose proof (suffix_refl (Tok (advance P))); within_auto.
Qed.

Lemma parseFactor_consumes (n : nat) (P : Parser) :
  consumes P (parseFactor n P).
Proof.
  destruct n as [|n]; [intros a P' E; discriminate E|].
  simpl. apply consumes_call; [apply parseFinal_consumes|].
  intros a P1. apply arith_within, suffix_refl.
Qed.

Lemma parseTerm_consumes (n : nat) (P : Parser) :
  consumes P (parseTerm n P).
Proof.
  destruct n as [|n]; [intros a P' E; discriminate E|].
  simpl. apply consumes_call; [apply parseFactor_consumes|].
  intros a P1. apply arith_within, suffix_refl.
Qed.

Lemma parseExpr_consumes (n : nat) (P : Parser) :
  consumes P (parseExpr n P).
Proof.
  destruct n as [|n]; [intros a P' E; discriminate E|].
  simpl. apply consumes_call; [apply parseTerm_consumes|].
  intros a P1. apply arith_within, suffix_refl.
Qed.

Lemma parseComparison_consumes (n : nat) (P : Parser) :
  consumes P (parseComparison n P).
Proof.
  pose proof parseExpr_within as HE.
  pose proof parseLogic_within as HL.
  destruct n as [|n]; [intros a P' E; discriminate E|].
  simpl.
  destruct (Tok_is P Token.l_paren) eqn:E1;
    [|destruct (Tok_is P Token.true_) eqn:E2;
      [|destruct (Tok_is P Token.false_) eqn:E3;
        [|destruct (Tok_is P Token.ident) eqn:E4]]].
  5: { apply consumes_call; [apply parseExpr_consumes|].
       intros a P1. pose proof (suffix_refl (Tok P1)). within_auto. }
  all: match goal with
       | H : Tok_is ?Q ?K = true |- _ =>
           apply (consumes_within Q (advance Q));
           [apply (size_advance_lt Q K H); discriminate|]
       end;
       pose proof (suffix_refl (Tok (advance P))); within_auto.
Qed.

Lemma parseLogic_consumes (n : nat) (P : Parser) :
  consumes P (parseLogic n P).
Proof.
  destruct n as [|n]; [intros a P' E; discriminate E|].
  simpl. apply consumes_call; [apply parseComparison_consumes|].
  intros a P1. apply logic_within, suffix_refl.
Qed.

Lemma parseAssign_consumes (n : nat) (P : Parser) :
  consumes P (parseAssign n P).
Proof.
  pose proof parseExpr_within as HE.
  pose proof parseLogic_within as HL.
  unfold parseAssign. apply consumes_call; [apply parseFinal_consumes|].
  intros a P1. pose proof (suffix_refl (Tok P1)). within_auto.
Qed.

Lemma parseUnary_consumes (P : Parser) : consumes P (parseUnary P).
Proof.
  unfold parseUnary. apply consumes_expecting. intros H.
  apply (consumes_within P (advance P));
    [apply (size_advance_lt P _ H); discriminate|].
  pose proof (suffix_refl (Tok (advance P))). within_auto.
Qed.

Lemma parseDec_consumes (KW : TokenKind)
      (f : Parser -> result (option Init)) (n : nat) (P : Parser) :
  KW <> Token.eoi ->
  (forall P1 ts1, suffix (Tok P1) ts1 -> within ts1 (f P1)) ->
  consumes P (parseDec KW f n P).
Proof.
  intros HK Hf. unfold parseDec. apply consumes_expecting. intros H.
  apply (consumes_within P (advance P));
    [exact (size_advance_lt P _ H HK)|].
  pose proof (suffix_refl (Tok (advance P))).
  within_auto;
    try (apply parseDec_vars_within; suffix_side);
    try (apply parseDec_values_within; [exact Hf | suffix_side]).
Qed.

Lemma parseIntDec_consumes (n : nat) (P : Parser) :
  consumes P (parseIntDec n P).
Proof.
  pose proof parseExpr_within as HE.
  apply parseDec_consumes; [discriminate|].
  intros P1 ts1 H1. unfold initExpr. within_auto.
Qed.

Lemma parseBoolDec_consumes (n : nat) (P : Parser) :
  consumes P (parseBoolDec n P).
Proof.
  pose proof parseLogic_within as HL.
  apply parseDec_consumes; [discriminate|].
  intros P1 ts1 H1. unfold initLogic. within_auto.
Qed.

Lemma parseIf_consumes (n : nat) (P : Parser) : consumes P (parseIf n P).
Proof.
  pose proof parseLogic_within as HL.
  pose proof parseBlock_within as HB.
  pose proof parseElifs_within as HE.
  unfold parseIf. intros i P' E.
  assert (size P = size (setHaveElse P false)) as -> by reflexivity.
  revert i P' E. apply consumes_expecting. intros H.
  apply (consumes_within _ (advance (setHaveElse P false)));
    [apply (size_advance_lt _ _ H); discriminate|].
  pose proof (suffix_refl (Tok (advance (setHaveElse P false)))).
  within_auto.
Qed.

Lemma parseIter_consumes (n : nat) (P : Parser) : consumes P (parseIter n P).
Proof.
  pose proof parseLogic_within as HL.
  pose proof parseBlock_within as HB.
  unfold parseIter. apply consumes_expecting. intros H.
  apply (consumes_within P (advance P));
    [apply (size_advance_lt P _ H); discriminate|].
  pose proof (suffix_refl (Tok (advance P))). within_auto.
Qed.

Lemma assignment_statement_Some (a : option Assignment) (P : Parser)
      (s : IdentStmt) (P' : Parser) :
  assignment_statement a P = Ret (Some s) P' -> P' = P /\ a <> None.
Proof.
  unfold assignment_statement.
  destruct (negb (Tok_is P Token.semicolon)); [discriminate|].
  destruct a; [|discriminate]. intros E. injection E as _ <-.
  now split.
Qed.

Lemma parseProgram_ident_consumes (n : nat) (P : Parser) :
  consumes P (parseProgram_ident n P).
Proof.
  intros s P' E. unfold parseProgram_ident, bind in E.
  destruct (parseUnary P) as [|u P1] eqn:EU; [discriminate E|].
  assert (forall a P2,
             parseAssign n (setTok P1 (Tok P)) = Ret a P2 ->
             assignment_statement a P2 = Ret (Some s) P' ->
             size P' < size P) as HA.
  { intros a P2 E1 E2.
    apply assignment_statement_Some in E2 as [-> Ha].
    destruct a as [a|]; [|now contradiction Ha].
    exact (parseAssign_consumes n _ a P2 E1). }
  destruct (Tok_is P1 Token.semicolon), u as [u|];
    try discriminate E;
    try (destruct (parseAssign n (setTok P1 (Tok P))) as [|a P2] eqn:E1;
         [discriminate E | exact (HA a P2 eq_refl E)]).
  injection E as _ <-. exact (parseUnary_consumes P u P1 EU).
Qed.

(** Every routine that succeeds has consumed at least one token: the
    tokens it leaves are strictly fewer than the tokens it found. *)
Theorem success_consumes_a_token (n : nat) (P : Parser) :
  consumes P (parseExpr n P) /\ consumes P (parseLogic n P) /\
  consumes P (parseAssign n P) /\ consumes P (parseUnary P) /\
  consumes P (parseIntDec n P) /\ consumes P (parseBoolDec n P) /\
  consumes P (parseIf n P) /\ consumes P (parseIter n P) /\
  consumes P (parseProgram_ident n P).
Proof.
  repeat split.
  - apply parseExpr_consumes.
  - apply parseLogic_consumes.
  - apply parseAssign_consumes.
  - apply parseUnary_consumes.
  - apply parseIntDec_consumes.
  - apply parseBoolDec_consumes.
  - apply parseIf_consumes.
  - apply parseIter_consumes.
  - apply parseProgram_ident_consumes.
Qed.

(** ** Every routine returns *)

#[local] Hint Resolve parseTerm_fuel_le parseExpr_loop_fuel_le
  parseTerm_loop_fuel_le : res_le.

Lemma halts_S {A : Type} (F : nat -> result A) :
  halts (fun n => F (S n)) -> halts F.
Proof. intros (n & a & P & H). now exists (S n), a, P. Qed.

Lemma halts_Ret {A : Type} (a : A) (P : Parser) :
  halts (fun _ : nat => Ret a P).
Proof. now exists 0, a, P. Qed.

Lemma halts_panic {A : Type} (P : Parser) :
  halts (fun _ : nat => @panic A P).
Proof. apply halts_Ret. Qed.

Lemma halts_bind {A B : Type} (F : nat -> result A)
      (K : nat -> A -> Parser -> result B) :
  mono F -> (forall a P, mono (fun n => K n a P)) ->
  halts F ->
  (forall n a P, F n = Ret a P -> halts (fun m => K m a P)) ->
  halts (fun n => bind (F n) (K n)).
Proof.
  intros HF HK (n1 & a & P & E1) Hk.
  destruct (Hk n1 a P E1) as (n2 & b & P' & E2).
  exists (Nat.max n1 n2), b, P'.
  rewrite (HF n1 (Nat.max n1 n2) ltac:(lia) a P E1). simpl.
  exact (HK a P n2 (Nat.max n1 n2) ltac:(lia) b P' E2).
Qed.

Lemma halts_call {A B : Type} (F : nat -> result (option A))
      (K : nat -> A -> Parser -> result (option B)) :
  mono F -> (forall a P, mono (fun n => K n a P)) ->
  halts F ->
  (forall n a P, F n = Ret (Some a) P -> halts (fun m => K m a P)) ->
  halts (fun n => call (F n) (K n)).
Proof.
  intros HF HK HhF Hk. unfold call. apply halts_bind; try assumption.
  - intros [a|] P n m Hle; [now apply HK | apply res_le_refl].
  - intros n [a|] P E; [exact (Hk n a P E) | apply halts_panic].
Qed.

Lemma halts_expecting {A : Type} (P : Parser) (K : TokenKind)
      (k : nat -> Parser -> result (option A)) :
  (Tok_is P K = true -> halts (fun n => k n P)) ->
  halts (fun n => expecting P K (k n)).
Proof.
  intros Hk. unfold expecting, expect. destruct (Tok_is P K).
  - now apply Hk.
  - apply halts_panic.
Qed.

Ltac halts_mono := intros; intros ? ? ?; cbv beta; res_le_auto.

(** Peel one layer of a routine's body under [halts]. *)
Ltac halts_step :=
  match goal with
  | |- halts (fun _ => Ret _ _) => apply halts_Ret
  | |- halts (fun _ => panic _) => apply halts_panic
  | |- halts (fun n => call (@?F n) (@?K n)) =>
      apply (halts_call F K);
      [halts_mono | halts_mono | cbv beta | cbv beta; intros ? ? ? ?]
  | |- halts (fun n => bind (@?F n) (@?K n)) =>
      apply (halts_bind F K);
      [halts_mono | halts_mono | cbv beta | cbv beta; intros ? ? ? ?]
  | |- halts (fun n => expecting ?P ?K (@?k n)) =>
      apply (halts_expecting P K k); cbv beta; intros ?
  | |- context [consume ?P ?K] => destruct (consume P K); cbv beta iota
  | |- context [if ?b then _ else _] => destruct b eqn:?; cbv beta iota
  | |- halts (fun n => match ?x with _ => _ end) =>
      destruct x; cbv beta iota
  end.

(** What the equations and tests in the context say about sizes. *)
Ltac sizes :=
  repeat match goal with
  | H : parseFinal ?n ?Q = Ret _ _ |- _ =>
      apply (within_size _ Q _ _
               (parseFinal_within n Q _ (suffix_refl _))) in H
  | H : parseFactor ?n ?Q = Ret _ _ |- _ =>
      apply (within_size _ Q _ _
               (parseFactor_within n Q _ (suffix_refl _))) in H
  | H : parseTerm ?n ?Q = Ret _ _ |- _ =>
      apply (within_size _ Q _ _
               (parseTerm_within n Q _ (suffix_refl _))) in H
  | H : parseExpr ?n ?Q = Ret _ _ |- _ =>
      apply (within_size _ Q _ _
               (parseExpr_within n Q _ (suffix_refl _))) in H
  | H : parseComparison ?n ?Q = Ret _ _ |- _ =>
      apply (within_size _ Q _ _
               (parseComparison_within n Q _ (suffix_refl _))) in H
  | H : parseLogic ?n ?Q = Ret _ _ |- _ =>
      apply (within_size _ Q _ _
               (parseLogic_within n Q _ (suffix_refl _))) in H
  | H : parseAssign ?n ?Q = Ret _ _ |- _ =>
      apply (within_size _ Q _ _
               (parseAssign_within n Q _ (suffix_refl _))) in H
  | H : parseBlock ?n ?acc ?Q = Ret _ _ |- _ =>
      apply (within_size _ Q _ _
               (parseBlock_within n acc Q _ (suffix_refl _))) in H
  | H : Tok_is ?Q ?K = true |- _ =>
      apply (fun H0 => size_advance_lt Q K H0 ltac:(discriminate)) in H
  | |- context [advance ?Q] =>
      lazymatch goal with
      | _ : size (advance Q) <= size Q |- _ => fail
      | _ => pose proof (size_advance_le Q)
      end
  end.

Ltac halts_leaf :=
  sizes;
  match goal with
  | H : _ |- halts _ => solve [apply H; lia]
  end.

Ltac halts_auto := repeat halts_step; try halts_leaf.

Lemma arith_halts (L : nat) : forall P, size P < L ->
  halts (fun n => parseFinal n P) /\
  (forall Left, halts (fun n => parseFactor_loop n Left P)) /\
  halts (fun n => parseFactor n P) /\
  (forall Left, halts (fun n => parseTerm_loop n Left P)) /\
  halts (fun n => parseTerm n P) /\
  (forall Left, halts (fun n => parseExpr_loop n Left P)) /\
  halts (fun n => parseExpr n P).
Proof.
  induction L as [|L IH]; [intros P H; lia|].
  pose proof (fun Q H => proj1 (proj2 (IH Q H))) as IHfl.
  pose proof (fun Q H => proj1 (proj2 (proj2 (IH Q H)))) as IHf.
  pose proof (fun Q H => proj1 (proj2 (proj2 (proj2 (IH Q H))))) as IHtl.
  pose proof (fun Q H =>
                proj1 (proj2 (proj2 (proj2 (proj2 (IH Q H)))))) as IHt.
  pose proof (fun Q H =>
                proj1 (proj2 (proj2 (proj2 (proj2 (proj2 (IH Q H)))))))
    as IHel.
  pose proof (fun Q H =>
                proj2 (proj2 (proj2 (proj2 (proj2 (proj2 (IH Q H)))))))
    as IHe.
  clear IH.
  assert (forall P, size P < S L -> halts (fun n => parseFinal n P))
    as Hfin.
  { intros P HP. apply halts_S. simpl.
    destruct (getKind P) eqn:K; try apply halts_panic;
      pose proof (size_advance_kind P ltac:(rewrite K; discriminate));
      halts_auto. }
  assert (forall P, size P < S L ->
                    forall Left, halts (fun n => parseFactor_loop n Left P))
    as Hfl.
  { intros P HP Left. apply halts_S. simpl. halts_auto. }
  assert (forall P, size P < S L -> halts (fun n => parseFactor n P))
    as Hf.
  { intros P HP. apply halts_S. simpl. halts_auto. }
  assert (forall P, size P < S L ->
                    forall Left, halts (fun n => parseTerm_loop n Left P))
    as Htl.
  { intros P HP Left. apply halts_S. simpl. halts_auto. }
  assert (forall P, size P < S L -> halts (fun n => parseTerm n P))
    as Ht.
  { intros P HP. apply halts_S. simpl. halts_auto. }
  assert (forall P, size P < S L ->
                    forall Left, halts (fun n => parseExpr_loop n Left P))
    as Hel.
  { intros P HP Left. apply halts_S. simpl. halts_auto. }
  intros P HP. repeat split; auto.
  apply halts_S. simpl. halts_auto.
Qed.

Lemma parseExpr_halts (P : Parser) : halts (fun n => parseExpr n P).
Proof. apply (arith_halts (S (size P)) P). lia. Qed.

Lemma parseFinal_halts (P : Parser) : halts (fun n => parseFinal n P).
Proof. apply (arith_halts (S (size P)) P). lia. Qed.

Lemma parseLogic_loop_fuel_le (n m : nat) (L : Logic) (P : Parser) :
  n <= m -> res_le (parseLogic_loop n L P) (parseLogic_loop m L P).
Proof. intros H. apply (logic_fuel_le n m H). Qed.

#[local] Hint Resolve parseLogic_loop_fuel_le parseDec_vars_fuel_le
  parseDec_values_fuel_le : res_le.

Lemma logic_halts (L : nat) : forall P, size P < L ->
  halts (fun n => parseComparison n P) /\
  (forall Left, halts (fun n => parseLogic_loop n Left P)) /\
  halts (fun n => parseLogic n P).
Proof.
  pose proof parseExpr_halts as He.
  induction L as [|L IH]; [intros P H; lia|].
  pose proof (fun Q H => proj1 (IH Q H)) as IHc.
  pose proof (fun Q H => proj1 (proj2 (IH Q H))) as IHll.
  pose proof (fun Q H => proj2 (proj2 (IH Q H))) as IHl.
  clear IH.
  assert (forall P, size P < S L -> halts (fun n => parseComparison n P))
    as Hc.
  { intros P HP. apply halts_S. simpl. halts_auto. }
  assert (forall P, size P < S L ->
                    forall Left, halts (fun n => parseLogic_loop n Left P))
    as Hll.
  { intros P HP Left. apply halts_S. simpl. halts_auto. }
  intros P HP. repeat split; auto.
  apply halts_S. simpl. halts_auto.
Qed.

Lemma parseLogic_halts (P : Parser) : halts (fun n => parseLogic n P).
Proof. apply (logic_halts (S (size P)) P). lia. Qed.

Lemma parseAssign_halts (P : Parser) : halts (fun n => parseAssign n P).
Proof.
  pose proof parseExpr_halts as He.
  pose proof parseFinal_halts as Hf.
  pose proof parseLogic_halts as Hl.
  unfold parseAssign. halts_auto.
Qed.

Lemma parseDec_vars_halts (L : nat) : forall P Vars count,
  size P < L -> halts (fun n => parseDec_vars n Vars count P).
Proof.
  induction L as [|L IH]; intros P Vars count HP; [lia|].
  apply halts_S. simpl. halts_auto.
Qed.

Lemma halts_shift {A : Type} (F : nat -> result A) :
  mono F -> halts F -> halts (fun n => F (S n)).
Proof.
  intros HF (n & a & P & E). exists n, a, P.
  exact (HF n (S n) ltac:(lia) a P E).
Qed.

Lemma parseDec_values_halts (L : nat) :
  forall g : nat -> Parser -> result (option Init),
  (forall n m P, n <= m -> res_le (g n P) (g m P)) ->
  (forall n P a P', g n P = Ret a P' -> size P' <= size P) ->
  (forall P, halts (fun n => g n P)) ->
  forall P Values count,
    size P < L -> halts (fun n => parseDec_values n (g n) Values count P).
Proof.
  induction L as [|L IH]; intros g Hm Hw Hh P Values count HP; [lia|].
  apply halts_S. simpl.
  destruct (Tok_is P Token.comma) eqn:E; [|apply halts_Ret].
  destruct (count =? 0)%Z; [apply halts_panic|].
  apply (halts_call (fun n => g (S n) (advance P))
           (fun n E P1 => parseDec_values n (g (S n)) (Values ++ [E])
                                          (count - 1)%Z P1)).
  - intros n m Hle. apply Hm. lia.
  - intros a P1 n m Hle. cbv beta.
    apply parseDec_values_fuel_le; [exact Hle|].
    intros P2. apply Hm. lia.
  - apply (halts_shift (fun n => g n (advance P))); [|apply Hh].
    intros n m Hle. now apply Hm.
  - intros n a P1 H. apply Hw in H.
    pose proof (size_advance_lt P _ E ltac:(discriminate)).
    apply (IH (fun n => g (S n))).
    + intros n0 m P2 Hle. apply Hm. lia.
    + intros n0 P2 b P3. apply Hw.
    + intros P2. apply (halts_shift (fun n => g n P2)); [|apply Hh].
      intros n0 m Hle. now apply Hm.
    + lia.
Qed.

Lemma parseDec_halts (KW : TokenKind)
      (g : nat -> Parser -> result (option Init)) (P : Parser) :
  (forall n m P, n <= m -> res_le (g n P) (g m P)) ->
  (forall n P a P', g n P = Ret a P' -> size P' <= size P) ->
  (forall P, halts (fun n => g n P)) ->
  halts (fun n => parseDec KW (g n) n P).
Proof.
  intros Hm Hw Hh. unfold parseDec.
  pose proof (fun P V c => parseDec_vars_halts (S (size P)) P V c
                             ltac:(lia)) as Hvars.
  pose proof (fun P V c => parseDec_values_halts (S (size P)) g Hm Hw Hh
                             P V c ltac:(lia)) as Hvals.
  halts_auto.
Qed.

Lemma parseIntDec_halts (P : Parser) : halts (fun n => parseIntDec n P).
Proof.
  pose proof parseExpr_halts as He.
  apply (parseDec_halts Token.KW_int initExpr).
  - intros n m Q Hle. unfold initExpr. res_le_auto.
  - intros n Q a P' H.
    refine (within_size _ Q _ _ _ H). unfold initExpr.
    pose proof parseExpr_within as HE.
    pose proof (suffix_refl (Tok Q)). within_auto.
  - intros Q. unfold initExpr. halts_auto.
Qed.

Lemma parseBoolDec_halts (P : Parser) : halts (fun n => parseBoolDec n P).
Proof.
  pose proof parseLogic_halts as Hl.
  apply (parseDec_halts Token.KW_bool initLogic).
  - intros n m Q Hle. unfold initLogic. res_le_auto.
  - intros n Q a P' H.
    refine (within_size _ Q _ _ _ H). unfold initLogic.
    pose proof parseLogic_within as HL.
    pose proof (suffix_refl (Tok Q)). within_auto.
  - intros Q. unfold initLogic. halts_auto.
Qed.

Lemma parseBlock_halts_below (L : nat) : forall P assignments,
  size P < L -> halts (fun n => parseBlock n assignments P).
Proof.
  pose proof parseAssign_halts as Ha.
  induction L as [|L IH]; intros P assignments HP; [lia|].
  apply halts_S. simpl. halts_auto.
Qed.

Lemma parseBlock_halts (P : Parser) (assignments : list Assignment) :
  halts (fun n => parseBlock n assignments P).
Proof. apply (parseBlock_halts_below (S (size P))). lia. Qed.

Lemma parseElifs_halts_below (L : nat) : forall P elifStmts,
  size P < L -> halts (fun n => parseElifs n elifStmts P).
Proof.
  pose proof parseLogic_halts as Hl.
  pose proof (fun P => parseBlock_halts P []) as Hb.
  induction L as [|L IH]; intros P elifStmts HP; [lia|].
  apply halts_S. simpl. halts_auto.
Qed.

Lemma parseElifs_halts (P : Parser) (elifStmts : list elifStmt) :
  halts (fun n => parseElifs n elifStmts P).
Proof. apply (parseElifs_halts_below (S (size P))). lia. Qed.

Lemma parseIf_halts (P : Parser) : halts (fun n => parseIf n P).
Proof.
  pose proof parseLogic_halts as Hl.
  pose proof (fun P => parseBlock_halts P []) as Hb.
  pose proof (fun P => parseElifs_halts P []) as He.
  unfold parseIf. halts_auto.
Qed.

Lemma parseIter_halts (P : Parser) : halts (fun n => parseIter n P).
Proof.
  pose proof parseLogic_halts as Hl.
  pose proof (fun P => parseBlock_halts P []) as Hb.
  unfold parseIter. halts_auto.
Qed.

Lemma parseUnary_halts (P : Parser) : halts (fun _ : nat => parseUnary P).
Proof. unfold parseUnary. halts_auto. Qed.

Lemma parseProgram_ident_halts (P : Parser) :
  halts (fun n => parseProgram_ident n P).
Proof.
  pose proof parseUnary_halts as Hu.
  pose proof parseAssign_halts as Ha.
  unfold parseProgram_ident, assignment_statement. halts_auto.
Qed.

Lemma absent_routine_well_behaved {A : Type} :
  well_behaved (@absent_routine A).
Proof.
  repeat split.
  - intros n m P _. apply res_le_refl.
  - intros P. apply halts_panic.
  - intros n P. apply consumes_panic.
Qed.

Section Termination.

Variables ForStmt PrintStmt : Type.
Variable parseWhile : nat -> Parser -> result (option WhileStmt).
Variable parseFor : nat -> Parser -> result (option ForStmt).
Variable parsePrint : nat -> Parser -> result (option PrintStmt).

#[local] Abbreviation switch' :=
  (parseProgram_switch parseWhile parseFor parsePrint).
#[local] Abbreviation loop' :=
  (parseProgram_loop parseWhile parseFor parsePrint).

Hypothesis parseWhile_well_behaved : well_behaved parseWhile.
Hypothesis parseFor_well_behaved : well_behaved parseFor.
Hypothesis parsePrint_well_behaved : well_behaved parsePrint.

Lemma upcast_consumes {A : Type} (f : A -> AST ForStmt PrintStmt)
      (P : Parser) (r : result (option A)) :
  consumes P r -> consumes P (upcast ForStmt PrintStmt f r).
Proof.
  intros H a P' E. unfold upcast, bind in E.
  destruct r as [|[x|] P1]; try discriminate E.
  injection E as _ <-. exact (H x P1 eq_refl).
Qed.

Lemma parseProgram_switch_consumes (n : nat) (P : Parser) :
  consumes P (switch' n P).
Proof.
  destruct parseWhile_well_behaved as (_ & _ & Hw).
  destruct parseFor_well_behaved as (_ & _ & Hf).
  destruct parsePrint_well_behaved as (_ & _ & Hp).
  unfold parseProgram_switch.
  destruct (getKind P); try (intros a P' E; discriminate E);
    apply upcast_consumes;
    auto using parseIntDec_consumes, parseBoolDec_consumes,
      parseProgram_ident_consumes, parseIf_consumes.
Qed.

Lemma parseProgram_switch_halts (P : Parser) :
  halts (fun n => switch' n P).
Proof.
  destruct parseWhile_well_behaved as (Hwm & Hw & _).
  destruct parseFor_well_behaved as (Hfm & Hf & _).
  destruct parsePrint_well_behaved as (Hpm & Hp & _).
  pose proof parseIntDec_halts as Hi.
  pose proof parseBoolDec_halts as Hb.
  pose proof parseProgram_ident_halts as Hid.
  pose proof parseIf_halts as Hif.
  unfold parseProgram_switch, upcast.
  destruct (getKind P); try apply halts_Ret; halts_auto.
Qed.

Lemma parseProgram_loop_halts (L : nat) : forall P acc,
  size P < L -> halts (fun n => loop' n acc P).
Proof.
  destruct parseWhile_well_behaved as (Hwm & _ & _).
  destruct parseFor_well_behaved as (Hfm & _ & _).
  destruct parsePrint_well_behaved as (Hpm & _ & _).
  induction L as [|L IH]; intros P acc HP; [lia|].
  apply halts_S. simpl.
  destruct (negb (Tok_is P Token.eoi)); [|apply halts_Ret].
  apply (halts_call (fun n => switch' n (setHaveElse P true))
           (fun n stmt P1 =>
              loop' n (acc ++ [stmt]) (parseProgram_advance P1))).
  - intros n m Hle. now apply parseProgram_switch_fuel_le.
  - intros a P1 n m Hle. now apply parseProgram_loop_fuel_le.
  - apply parseProgram_switch_halts.
  - intros n stmt P1 H. apply IH.
    apply parseProgram_switch_consumes in H.
    assert (size (parseProgram_advance P1) <= size P1).
    { unfold parseProgram_advance.
      destruct (haveElse P1); [apply size_advance_le | lia]. }
    assert (size (setHaveElse P true) = size P) by reflexivity.
    lia.
Qed.

Lemma parseProgram_loop_ends (n : nat) : forall acc P r P',
  loop' n acc P = Ret r P' -> at_eoi P'.
Proof.
  induction n as [|n IH]; intros acc P r P' H; [discriminate H|].
  simpl in H. destruct (Tok_is P Token.eoi) eqn:E; simpl in H.
  - injection H as _ <-. now apply Tok_is_getKind.
  - unfold call, bind in H.
    destruct (switch' n (setHaveElse P true)) as [|[stmt|] P1];
      [discriminate H | exact (IH _ _ _ _ H) |].
    injection H as _ <-. apply skip_to_eoi_at_eoi.
Qed.

(** If the three routines the sources do not define are well behaved, the
    parser returns on every token sequence, whatever it contains, and the
    cursor is then on the end of the input. *)
Theorem parse_returns (P : Parser) :
  exists n r P',
    parse parseWhile parseFor parsePrint n P = Ret r P' /\ at_eoi P'.
Proof.
  destruct (parseProgram_loop_halts (S (size P)) P [] ltac:(lia))
    as (n & r & P' & H).
  exists n, r, P'. split; [exact H|].
  exact (parseProgram_loop_ends n [] P r P' H).
Qed.

End Termination.

(** The parser returns on the unterminated input [if true : begin]. *)
Lemma parse_returns_witness :
  exists n r P',
    parse (ForStmt := unit) (PrintStmt := unit)
          absent_routine absent_routine absent_routine
          n (start if_true_begin) = Ret r P' /\
    at_eoi P'.
Proof.
  exact (parse_returns unit unit absent_routine absent_routine
           absent_routine absent_routine_well_behaved
           absent_routine_well_behaved absent_routine_well_behaved
           (start if_true_begin)).
Defined.

(** Every routine returns on every input, given enough budget: none of the
    loops of the parser can run forever, on well-formed and on ill-formed
    token sequences alike. *)
Theorem every_routine_returns (P : Parser) :
  halts (fun n => parseExpr n P) /\ halts (fun n => parseLogic n P) /\
  halts (fun n => parseAssign n P) /\
  halts (fun n => parseIntDec n P) /\ halts (fun n => parseBoolDec n P) /\
  halts (fun n => parseIf n P) /\ halts (fun n => parseIter n P) /\
  halts (fun n => parseProgram_ident n P).
Proof.
  repeat split.
  - apply parseExpr_halts.
  - apply parseLogic_halts.
  - apply parseAssign_halts.
  - apply parseIntDec_halts.
  - apply parseBoolDec_halts.
  - apply parseIf_halts.
  - apply parseIter_halts.
  - apply parseProgram_ident_halts.
Qed.

(** ** What parseIf leaves to the statement loop *)

Lemma Tok_is_cons (P : Parser) (K : TokenKind) :
  Tok_is P K = true -> K <> Token.eoi ->
  exists t r, Tok P = t :: r /\ Token.Kind t = K /\ Tok (advance P) = r.
Proof.
  intros H HK. pose proof (Tok_is_getKind P K H) as HG.
  unfold advance, Tok_is. unfold getKind in HG.
  destruct (Tok P) as [|t r] eqn:E; [now contradiction HK|].
  exists t, r. repeat split; [exact HG|].
  unfold getKind. rewrite E, HG.
  destruct (Token.kind_eqb K Token.eoi) eqn:EK; [|reflexivity].
  contradiction HK. now destruct K.
Qed.

Lemma Tok_advance_setHaveElse (P : Parser) (b : bool) :
  Tok (advance (setHaveElse P b)) = Tok (advance P).
Proof.
  unfold advance, Tok_is, getKind. simpl.
  destruct (Tok P) as [|t r]; [reflexivity|].
  now destruct (Token.kind_eqb (Token.Kind t) Token.eoi).
Qed.

Lemma consumed_end_advance (ts : list Token) (P : Parser) :
  Tok_is P Token.KW_end = true -> suffix (Tok P) ts ->
  consumed_end ts (advance P).
Proof.
  intros H [pre ->].
  destruct (Tok_is_cons P _ H ltac:(discriminate)) as (t & r & E & K & EA).
  exists pre, t. now rewrite EA, E.
Qed.

Lemma parseElifs_consumed_end (ts : list Token) (n : nat) :
  forall elifStmts P l P',
    parseElifs n elifStmts P = Ret (Some l) P' ->
    suffix (Tok P) ts -> consumed_end ts P ->
    consumed_end ts P' /\ Tok_is P' Token.KW_elif = false.
Proof.
  induction n as [|n IH]; intros elifStmts P l P' H HS HP; [discriminate|].
  simpl in H. destruct (Tok_is P Token.KW_elif) eqn:E.
  - apply call_Some_inv in H as (Cond & P1 & HL & H).
    apply (parseLogic_within n _ ts (suffix_advance _ _ HS)) in HL.
    apply expecting_Some_inv in H as [_ H].
    apply expecting_Some_inv in H as [_ H].
    apply call_Some_inv in H as (asg & P4 & HB & H).
    pose proof (parseBlock_end _ _ _ _ _ HB) as HE.
    apply (parseBlock_within n _ _ ts) in HB;
      [|now repeat apply suffix_advance].
    apply (IH _ _ _ _ H); [now apply suffix_advance|].
    now apply consumed_end_advance.
  - injection H as _ <-. now split.
Qed.

(** After a successful parseIf either the flag is clear, the last token
    consumed is an [end], neither [elif] nor [else] follows and the node
    has no else assignments; or the flag is set, the tokens consumed end
    with [end else : begin] and the body of a block, and the cursor is on
    the [end] of that block. *)
Lemma parseIf_leaves (n : nat) (P : Parser) (i : IfStmt) (P' : Parser) :
  parseIf n P = Ret (Some i) P' ->
  (haveElse P' = false /\ consumed_end (Tok P) P' /\
   Tok_is P' Token.KW_elif = false /\ Tok_is P' Token.KW_else = false /\
   elseAssignments i = []) \/
  (haveElse P' = true /\ else_clause (Tok P) P' /\
   Tok_is P' Token.KW_end = true).
Proof.
  unfold parseIf. intros H.
  assert (suffix (Tok (setHaveElse P false)) (Tok P)) as HS
      by apply suffix_refl.
  apply expecting_Some_inv in H as [_ H].
  apply call_Some_inv in H as (Cond & P2 & HL & H).
  pose proof (parseLogic_within n _ _ (suffix_advance _ _ HS) _ _ HL) as HS2.
  apply parseLogic_keeps_flag with (h := false) in HL;
    [|now rewrite haveElse_advance].
  apply expecting_Some_inv in H as [_ H].
  apply expecting_Some_inv in H as [_ H].
  apply call_Some_inv in H as (ifA & P5 & HB & H).
  pose proof (parseBlock_end _ _ _ _ _ HB) as HE5.
  pose proof (parseBlock_within n _ _ _
                (suffix_advance _ _ (suffix_advance _ _ HS2)) _ _ HB)
    as HS5.
  apply parseBlock_keeps_flag with (h := false) in HB;
    [|now rewrite !haveElse_advance].
  apply call_Some_inv in H as (elifs & P6 & HEl & H).
  destruct (parseElifs_consumed_end (Tok P) _ _ _ _ _ HEl
              (suffix_advance _ _ HS5)
              (consumed_end_advance _ _ HE5 HS5)) as [HC6 HN6].
  apply parseElifs_keeps_flag with (h := false) in HEl;
    [|now rewrite haveElse_advance].
  destruct (Tok_is P6 Token.KW_else) eqn:E.
  - right.
    apply expecting_Some_inv in H as [HK8 H].
    apply expecting_Some_inv in H as [HK9 H].
    apply call_Some_inv in H as (elseA & P10 & HB2 & H).
    pose proof (parseBlock_end _ _ _ _ _ HB2) as HE10.
    pose proof (parseBlock_within n _ _ _ (suffix_refl _) _ _ HB2)
      as [body HS10].
    apply parseBlock_keeps_flag with (h := true) in HB2;
      [|now rewrite !haveElse_advance].
    injection H as _ <-. repeat split; [exact HB2| |exact HE10].
    destruct HC6 as (pre & t1 & -> & K1).
    destruct (Tok_is_cons P6 _ E ltac:(discriminate))
      as (t2 & r2 & E2 & K2 & EA2).
    destruct (Tok_is_cons _ _ HK8 ltac:(discriminate))
      as (t3 & r3 & E3 & K3 & EA3).
    rewrite Tok_advance_setHaveElse in E3.
    destruct (Tok_is_cons _ _ HK9 ltac:(discriminate))
      as (t4 & r4 & E4 & K4 & EA4).
    exists pre, t1, t2, t3, t4, body.
    rewrite E2. rewrite EA2 in E3. rewrite E3.
    rewrite EA3 in E4. rewrite E4. rewrite EA4 in HS10.
    rewrite HS10. auto.
  - left. injection H as <- <-. repeat split; auto.
Qed.

Section FlagAndTerminator.

Variables ForStmt PrintStmt : Type.
Variable parseWhile : nat -> Parser -> result (option WhileStmt).
Variable parseFor : nat -> Parser -> result (option ForStmt).
Variable parsePrint : nat -> Parser -> result (option PrintStmt).

#[local] Abbreviation switch'' :=
  (parseProgram_switch parseWhile parseFor parsePrint).
#[local] Abbreviation loop'' :=
  (parseProgram_loop parseWhile parseFor parsePrint).


End FlagAndTerminator.


(** * The parser accepts the grammar it resolves *)

(** ** Results that are nodes *)

Lemma yields_fuel {A : Type} (Q : A -> Parser -> Prop) :
  yields OutOfFuel Q.
Proof. intros a P' H. discriminate H. Qed.

Lemma yields_Ret {A : Type} (Q : A -> Parser -> Prop) (e : A) (P : Parser) :
  Q e P -> yields (Ret (Some e) P) Q.
Proof. intros HQ a P' H. injection H as <- <-. eauto. Qed.

Lemma yields_call {A B : Type} (r : result (option A))
      (k : A -> Parser -> result (option B))
      (Q1 : A -> Parser -> Prop) (Q : B -> Parser -> Prop) :
  yields r Q1 -> (forall e P1, Q1 e P1 -> yields (k e P1) Q) ->
  yields (call r k) Q.
Proof.
  intros Hr Hk b P' H. unfold call, bind in H.
  destruct r as [|a P1]; [discriminate H|].
  destruct (Hr a P1 eq_refl) as (e & -> & HQ). exact (Hk e P1 HQ b P' H).
Qed.

Lemma yields_weaken {A : Type} (r : result (option A))
      (Q1 Q : A -> Parser -> Prop) :
  yields r Q1 -> (forall e P, Q1 e P -> Q e P) -> yields r Q.
Proof.
  intros Hr HQ a P' H. destruct (Hr a P' H) as (e & -> & H1). eauto.
Qed.

Lemma fails_fuel {A : Type} : fails (@OutOfFuel (option A)).
Proof. intros a P' H. discriminate H. Qed.

Lemma fails_panic {A : Type} (P : Parser) : fails (@panic A P).
Proof. intros a P' H. now injection H as <- _. Qed.

Lemma fails_call {A B : Type} (r : result (option A))
      (k : A -> Parser -> result (option B)) :
  fails r -> fails (call r k).
Proof.
  intros Hr b P' H. unfold call, bind in H.
  destruct r as [|a P1]; [discriminate H|].
  rewrite (Hr a P1 eq_refl) in H. now injection H as <- _.
Qed.

Lemma yields_call_fails {A B : Type} (r : result (option A))
      (k : A -> Parser -> result (option B))
      (Q1 : A -> Parser -> Prop) :
  yields r Q1 -> (forall e P1, Q1 e P1 -> fails (k e P1)) ->
  fails (call r k).
Proof.
  intros Hr Hk b P' H. unfold call, bind in H.
  destruct r as [|a P1]; [discriminate H|].
  destruct (Hr a P1 eq_refl) as (e & -> & HQ). exact (Hk e P1 HQ b P' H).
Qed.

(** A routine that returns with some budget, returns a node whenever it
    returns and is not changed by a larger budget returns that node with
    every large enough budget. *)
Lemma yields_total {A : Type} (F : nat -> result (option A))
      (Q : A -> Parser -> Prop) :
  halts F -> mono F -> (forall n, yields (F n) Q) ->
  exists n0 e P', Q e P' /\ forall n, n0 <= n -> F n = Ret (Some e) P'.
Proof.
  intros (n0 & a & P' & H) HM HY.
  destruct (HY n0 a P' H) as (e & -> & HQ).
  exists n0, e, P'. split; [exact HQ|].
  intros n Hn. exact (HM n0 n Hn _ _ H).
Qed.

(** ** What the stop sets say about the tests of the loops *)

Lemma final_stop_tests (r : list Token) (h : bool) (d : nat) :
  final_stop (Grammar.first_kind r) = true ->
  Tok_is (mkParser r h d) Token.plus_plus = false /\
  Tok_is (mkParser r h d) Token.minus_minus = false.
Proof.
  unfold Tok_is, getKind. simpl Tok.
  change (match r with [] => Token.eoi | t :: _ => Token.Kind t end)
    with (Grammar.first_kind r).
  destruct (Grammar.first_kind r); try discriminate; now repeat split.
Qed.

Lemma factor_stop_tests (r : list Token) (h : bool) (d : nat) :
  factor_stop (Grammar.first_kind r) = true ->
  final_stop (Grammar.first_kind r) = true /\
  Tok_is (mkParser r h d) Token.exp = false.
Proof.
  unfold Tok_is, getKind. simpl Tok.
  change (match r with [] => Token.eoi | t :: _ => Token.Kind t end)
    with (Grammar.first_kind r).
  destruct (Grammar.first_kind r); try discriminate; now repeat split.
Qed.

Lemma term_stop_tests (r : list Token) (h : bool) (d : nat) :
  term_stop (Grammar.first_kind r) = true ->
  factor_stop (Grammar.first_kind r) = true /\
  Tok_is (mkParser r h d) Token.star = false /\
  Tok_is (mkParser r h d) Token.mod_ = false /\
  Tok_is (mkParser r h d) Token.slash = false.
Proof.
  unfold Tok_is, getKind. simpl Tok.
  change (match r with [] => Token.eoi | t :: _ => Token.Kind t end)
    with (Grammar.first_kind r).
  destruct (Grammar.first_kind r); try discriminate; now repeat split.
Qed.

Lemma expr_stop_tests (r : list Token) (h : bool) (d : nat) :
  expr_stop (Grammar.first_kind r) = true ->
  term_stop (Grammar.first_kind r) = true /\
  Tok_is (mkParser r h d) Token.plus = false /\
  Tok_is (mkParser r h d) Token.minus = false.
Proof.
  unfold Tok_is, getKind. simpl Tok.
  change (match r with [] => Token.eoi | t :: _ => Token.Kind t end)
    with (Grammar.first_kind r).
  destruct (Grammar.first_kind r); try discriminate; now repeat split.
Qed.

Lemma logic_stop_tests (r : list Token) (h : bool) (d : nat) :
  logic_stop (Grammar.first_kind r) = true ->
  expr_stop (Grammar.first_kind r) = true /\
  Tok_is (mkParser r h d) Token.KW_and = false /\
  Tok_is (mkParser r h d) Token.KW_or = false.
Proof.
  unfold Tok_is, getKind. simpl Tok.
  change (match r with [] => Token.eoi | t :: _ => Token.Kind t end)
    with (Grammar.first_kind r).
  destruct (Grammar.first_kind r); try discriminate; now repeat split.
Qed.

(** What follows a Factor inside a Term, and a Term inside an Expr. *)
Lemma TermTail_first (g : Grammar.dialect) (r1 r : list Token) :
  Grammar.TermTail g r1 r -> term_stop (Grammar.first_kind r) = true ->
  factor_stop (Grammar.first_kind r1) = true.
Proof.
  intros H HS. destruct H as [r|K s ts r1 r HK _ _].
  - unfold term_stop in HS. now apply andb_prop in HS.
  - simpl in HK. now destruct HK as [<-|[<-|[<-|[]]]].
Qed.

Lemma ExprTail_first (g : Grammar.dialect) (r1 r : list Token) :
  Grammar.ExprTail g r1 r -> expr_stop (Grammar.first_kind r) = true ->
  term_stop (Grammar.first_kind r1) = true.
Proof.
  intros H HS. destruct H as [r|K s ts r1 r HK _ _].
  - unfold expr_stop in HS. now apply andb_prop in HS.
  - simpl in HK. now destruct HK as [<-|[<-|[]]].
Qed.

Scheme Final_mut := Minimality for Grammar.Final Sort Prop
  with Factor_mut := Minimality for Grammar.Factor Sort Prop
  with Term_mut := Minimality for Grammar.Term Sort Prop
  with TermTail_mut := Minimality for Grammar.TermTail Sort Prop
  with Expr_mut := Minimality for Grammar.Expr Sort Prop
  with ExprTail_mut := Minimality for Grammar.ExprTail Sort Prop.

Combined Scheme arith_mutind from Final_mut, Factor_mut, Term_mut,
  TermTail_mut, Expr_mut, ExprTail_mut.

(** ** Arithmetic expressions *)

Lemma advance_tokens (K : TokenKind) (s : string) (r : list Token)
      (h : bool) (d : nat) :
  K <> Token.eoi ->
  advance (mkParser (Token.mk K s :: r) h d) = mkParser r h d.
Proof. intros HK. unfold advance, Tok_is. simpl. now destruct K. Qed.

(** Run the routine over the tokens that are known. *)
Ltac tokens :=
  simpl; repeat (rewrite advance_tokens by discriminate; simpl).

Ltac split_ops H :=
  simpl in H;
  repeat match type of H with
         | _ \/ _ => destruct H as [<-|H]
         | False => destruct H
         end.

(** Every phrase of the accepted arithmetic grammar is parsed by its
    routine, which stops where the phrase ends when the next token cannot
    continue it. *)
Lemma arith_accepted :
  (forall ts r, Grammar.Final Grammar.Accepted ts r ->
     final_stop (Grammar.first_kind r) = true ->
     forall n h d, yields (parseFinal n (mkParser ts h d))
                          (fun _ P' => P' = mkParser r h d)) /\
  (forall ts r, Grammar.Factor Grammar.Accepted ts r ->
     factor_stop (Grammar.first_kind r) = true ->
     forall n h d, yields (parseFactor n (mkParser ts h d))
                          (fun _ P' => P' = mkParser r h d)) /\
  (forall ts r, Grammar.Term Grammar.Accepted ts r ->
     term_stop (Grammar.first_kind r) = true ->
     forall n h d, yields (parseTerm n (mkParser ts h d))
                          (fun _ P' => P' = mkParser r h d)) /\
  (forall ts r, Grammar.TermTail Grammar.Accepted ts r ->
     term_stop (Grammar.first_kind r) = true ->
     forall n h d Left, yields (parseTerm_loop n Left (mkParser ts h d))
                               (fun _ P' => P' = mkParser r h d)) /\
  (forall ts r, Grammar.Expr Grammar.Accepted ts r ->
     expr_stop (Grammar.first_kind r) = true ->
     forall n h d, yields (parseExpr n (mkParser ts h d))
                          (fun _ P' => P' = mkParser r h d)) /\
  (forall ts r, Grammar.ExprTail Grammar.Accepted ts r ->
     expr_stop (Grammar.first_kind r) = true ->
     forall n h d Left, yields (parseExpr_loop n Left (mkParser ts h d))
                               (fun _ P' => P' = mkParser r h d)).
Proof.
  apply (arith_mutind Grammar.Accepted).
  - (* number *)
    intros s r _ [|n] h d; [apply yields_fuel|].
    now apply yields_Ret.
  - (* identifier *)
    intros s r HS [|n] h d; [apply yields_fuel|].
    destruct (final_stop_tests r h d HS) as [H1 H2].
    tokens. rewrite H1, H2. now apply yields_Ret.
  - intros s s1 r _ [|n] h d; [apply yields_fuel|]. now apply yields_Ret.
  - intros s s1 r _ [|n] h d; [apply yields_fuel|]. now apply yields_Ret.
  - intros s1 s r _ [|n] h d; [apply yields_fuel|]. now apply yields_Ret.
  - (* - ( e ) *)
    intros s1 s2 ts s3 r _ IH _ [|n] h d; [apply yields_fuel|].
    tokens. eapply yields_call; [apply IH; reflexivity|].
    intros e P1 ->. tokens. now apply yields_Ret.
  - (* + ( e ) is not in the accepted grammar *)
    intros s1 s2 ts s3 r Hg. discriminate Hg.
  - (* ( e ) *)
    intros s1 ts s3 r _ IH _ [|n] h d; [apply yields_fuel|].
    tokens. eapply yields_call; [apply IH; reflexivity|].
    intros e P1 ->. tokens. now apply yields_Ret.
  - (* Factor: one Final *)
    intros ts r _ IH HS [|n] h d; [apply yields_fuel|].
    destruct (factor_stop_tests r h d HS) as [HF HE].
    tokens. eapply yields_call; [now apply IH|].
    intros e P1 ->. destruct n as [|n]; [apply yields_fuel|].
    simpl. rewrite HE. now apply yields_Ret.
  - (* Factor: Final ^ Factor *)
    intros ts s r1 r _ IHf _ IHF HS [|n] h d; [apply yields_fuel|].
    destruct (factor_stop_tests r h d HS) as [HF HE].
    tokens. eapply yields_call; [apply IHf; reflexivity|].
    intros e P1 ->. destruct n as [|n]; [apply yields_fuel|].
    tokens. eapply yields_call; [now apply IHF|].
    intros e2 P2 ->. destruct n as [|n]; [apply yields_fuel|].
    simpl. rewrite HE. now apply yields_Ret.
  - (* Term *)
    intros ts r1 r _ IHF HT IHT HS [|n] h d; [apply yields_fuel|].
    simpl. eapply yields_call;
      [apply IHF; exact (TermTail_first _ _ _ HT HS)|].
    intros e P1 ->. now apply IHT.
  - (* TermTail: end *)
    intros r HS [|n] h d Left; [apply yields_fuel|].
    destruct (term_stop_tests r h d HS) as (_ & H1 & H2 & H3).
    simpl. rewrite H1, H2, H3. now apply yields_Ret.
  - (* TermTail: op Factor ... *)
    intros K s ts r1 r HK _ IHF HT IHT HS [|n] h d Left;
      [apply yields_fuel|].
    pose proof (TermTail_first _ _ _ HT HS) as HS1.
    split_ops HK; tokens;
      (eapply yields_call; [now apply IHF|]);
      intros e P1 ->; now apply IHT.
  - (* Expr *)
    intros ts r1 r _ IHT HE IHE HS [|n] h d; [apply yields_fuel|].
    simpl. eapply yields_call;
      [apply IHT; exact (ExprTail_first _ _ _ HE HS)|].
    intros e P1 ->. now apply IHE.
  - (* ExprTail: end *)
    intros r HS [|n] h d Left; [apply yields_fuel|].
    destruct (expr_stop_tests r h d HS) as (_ & H1 & H2).
    simpl. rewrite H1, H2. now apply yields_Ret.
  - (* ExprTail: op Term ... *)
    intros K s ts r1 r HK _ IHT HE IHE HS [|n] h d Left;
      [apply yields_fuel|].
    pose proof (ExprTail_first _ _ _ HE HS) as HS1.
    split_ops HK; tokens;
      (eapply yields_call; [now apply IHT|]);
      intros e P1 ->; now apply IHE.
Qed.

(** ** Logic expressions *)

Lemma LogicTail_first (g : Grammar.dialect) (r1 r : list Token) :
  Grammar.LogicTail g r1 r -> logic_stop (Grammar.first_kind r) = true ->
  expr_stop (Grammar.first_kind r1) = true.
Proof.
  intros H HS. destruct H as [r|K s ts r1 r HK _ _].
  - unfold logic_stop in HS. now apply andb_prop in HS.
  - simpl in HK. now destruct HK as [<-|[<-|[]]].
Qed.

Lemma number_led_tests (ts : list Token) (h : bool) (d : nat) :
  Grammar.number_led ts = true ->
  Tok_is (mkParser ts h d) Token.l_paren = false /\
  Tok_is (mkParser ts h d) Token.true_ = false /\
  Tok_is (mkParser ts h d) Token.false_ = false /\
  Tok_is (mkParser ts h d) Token.ident = false.
Proof.
  unfold Grammar.number_led, Tok_is, getKind. simpl Tok.
  change (match ts with [] => Token.eoi | t :: _ => Token.Kind t end)
    with (Grammar.first_kind ts).
  destruct (Grammar.first_kind ts); try discriminate; now repeat split.
Qed.

Scheme Comparison_mut := Minimality for Grammar.Comparison Sort Prop
  with Logic_mut := Minimality for Grammar.Logic Sort Prop
  with LogicTail_mut := Minimality for Grammar.LogicTail Sort Prop.

Combined Scheme logic_mutind from Comparison_mut, Logic_mut, LogicTail_mut.

Lemma parseExpr_accepted (ts r : list Token) (n : nat) (h : bool) (d : nat) :
  Grammar.Expr Grammar.Accepted ts r ->
  expr_stop (Grammar.first_kind r) = true ->
  yields (parseExpr n (mkParser ts h d)) (fun _ P' => P' = mkParser r h d).
Proof. intros H HS. now apply arith_accepted. Qed.

(** Every phrase of the accepted logic grammar is parsed by its routine. *)
Lemma logic_accepted :
  (forall ts r, Grammar.Comparison Grammar.Accepted ts r ->
     expr_stop (Grammar.first_kind r) = true ->
     forall n h d, yields (parseComparison n (mkParser ts h d))
                          (fun _ P' => P' = mkParser r h d)) /\
  (forall ts r, Grammar.Logic Grammar.Accepted ts r ->
     logic_stop (Grammar.first_kind r) = true ->
     forall n h d, yields (parseLogic n (mkParser ts h d))
                          (fun _ P' => P' = mkParser r h d)) /\
  (forall ts r, Grammar.LogicTail Grammar.Accepted ts r ->
     logic_stop (Grammar.first_kind r) = true ->
     forall n h d Left, yields (parseLogic_loop n Left (mkParser ts h d))
                               (fun _ P' => P' = mkParser r h d)).
Proof.
  apply (logic_mutind Grammar.Accepted).
  - (* ( L ) *)
    intros s1 ts s2 r _ IH _ [|n] h d; [apply yields_fuel|].
    tokens. eapply yields_call; [apply IH; reflexivity|].
    intros e P1 ->. tokens. now apply yields_Ret.
  - intros s r _ [|n] h d; [apply yields_fuel|]. now apply yields_Ret.
  - intros s r _ [|n] h d; [apply yields_fuel|]. now apply yields_Ret.
  - intros s r _ [|n] h d; [apply yields_fuel|]. now apply yields_Ret.
  - (* e1 op e2 *)
    intros ts K s r1 r HL HE1 HK HE2 HS [|n] h d; [apply yields_fuel|].
    destruct (number_led_tests ts h d (HL eq_refl)) as (T1 & T2 & T3 & T4).
    simpl. rewrite T1, T2, T3, T4.
    split_ops HK;
      (eapply yields_call; [now apply parseExpr_accepted with (1 := HE1)|]);
      intros e P1 ->; tokens;
      (eapply yields_call; [now apply parseExpr_accepted with (1 := HE2)|]);
      intros e2 P2 ->; now apply yields_Ret.
  - (* Logic *)
    intros ts r1 r _ IHC HT IHT HS [|n] h d; [apply yields_fuel|].
    simpl. eapply yields_call;
      [apply IHC; exact (LogicTail_first _ _ _ HT HS)|].
    intros e P1 ->. now apply IHT.
  - (* LogicTail: end *)
    intros r HS [|n] h d Left; [apply yields_fuel|].
    destruct (logic_stop_tests r h d HS) as (_ & H1 & H2).
    simpl. rewrite H1, H2. now apply yields_Ret.
  - (* LogicTail: op Comparison ... *)
    intros K s ts r1 r HK _ IHC HT IHT HS [|n] h d Left;
      [apply yields_fuel|].
    pose proof (LogicTail_first _ _ _ HT HS) as HS1.
    split_ops HK; tokens;
      (eapply yields_call; [now apply IHC|]);
      intros e P1 ->; now apply IHT.
Qed.

Lemma parseLogic_accepted (ts r : list Token) (n : nat) (h : bool)
      (d : nat) :
  Grammar.Logic Grammar.Accepted ts r ->
  logic_stop (Grammar.first_kind r) = true ->
  yields (parseLogic n (mkParser ts h d))
         (fun _ P' => P' = mkParser r h d).
Proof. intros H HS. now apply logic_accepted. Qed.

(** ** Assignments *)

Lemma relational_tests (r : list Token) (h : bool) (d : nat) :
  relational (Grammar.first_kind r) = false ->
  Tok_is (mkParser r h d) Token.eq = false /\
  Tok_is (mkParser r h d) Token.neq = false /\
  Tok_is (mkParser r h d) Token.gt = false /\
  Tok_is (mkParser r h d) Token.lt = false /\
  Tok_is (mkParser r h d) Token.gte = false /\
  Tok_is (mkParser r h d) Token.lte = false.
Proof.
  unfold Tok_is, getKind. simpl Tok.
  change (match r with [] => Token.eoi | t :: _ => Token.Kind t end)
    with (Grammar.first_kind r).
  destruct (Grammar.first_kind r); try discriminate; now repeat split.
Qed.

(** An expression that starts with a parenthesis is a parenthesised
    expression followed by the rest of the phrase. *)
Lemma Expr_open_paren (g : Grammar.dialect) (s : string)
      (ts r : list Token) :
  Grammar.Expr g (Token.mk Token.l_paren s :: ts) r ->
  exists s3 r', Grammar.Expr g ts (Token.mk Token.r_paren s3 :: r').
Proof.
  intros H. inversion H as [ts0 r1 r0 HT _]; subst.
  inversion HT as [ts0 r2 r0 HF _]; subst.
  inversion HF as [ts0 r0 HFi|ts0 s0 r3 r0 HFi _]; subst;
    inversion HFi; subst; eauto.
Qed.

(** The trial parse of a logic expression fails on an arithmetic
    expression that starts, behind its opening parentheses, with a number
    or [-], when no relational operator follows it. *)
Lemma trial_parse_fails (len : nat) : forall ts r,
  List.length ts <= len ->
  Grammar.Expr Grammar.Accepted ts r ->
  Grammar.number_led (Grammar.strip_parens ts) = true ->
  expr_stop (Grammar.first_kind r) = true ->
  relational (Grammar.first_kind r) = false ->
  forall n h d,
    fails (parseComparison n (mkParser ts h d)) /\
    fails (parseLogic n (mkParser ts h d)).
Proof.
  induction len as [|len IH]; intros ts r Hlen HE HL HS HR.
  { destruct ts; [discriminate HL | simpl in Hlen; lia]. }
  assert (forall n h d, fails (parseComparison n (mkParser ts h d))) as HC.
  { destruct ts as [|[K s] ts']; [discriminate HL|].
    destruct K; simpl in HL; try discriminate HL;
      intros [|n] h d; try apply fails_fuel.
    - (* number *)
      simpl.
      eapply yields_call_fails;
        [now apply parseExpr_accepted with (1 := HE)|].
      intros e P1 ->.
      destruct (relational_tests r h d HR)
        as (T1 & T2 & T3 & T4 & T5 & T6).
      rewrite T1, T2, T3, T4, T5, T6. apply fails_panic.
    - (* - *)
      simpl.
      eapply yields_call_fails;
        [now apply parseExpr_accepted with (1 := HE)|].
      intros e P1 ->.
      destruct (relational_tests r h d HR)
        as (T1 & T2 & T3 & T4 & T5 & T6).
      rewrite T1, T2, T3, T4, T5, T6. apply fails_panic.
    - (* ( *)
      destruct (Expr_open_paren _ _ _ _ HE) as (s3 & r' & HE').
      tokens. apply fails_call.
      apply (IH ts' _ ltac:(simpl in Hlen; lia) HE' HL eq_refl eq_refl). }
  intros n h d. split; [apply HC|].
  destruct n as [|n]; [apply fails_fuel|].
  simpl. apply fails_call, HC.
Qed.

Lemma yields_bind_Some {A B : Type} (r : result (option A))
      (k : option A -> Parser -> result (option B))
      (Q1 : A -> Parser -> Prop) (Q : B -> Parser -> Prop) :
  yields r Q1 -> (forall e P1, Q1 e P1 -> yields (k (Some e) P1) Q) ->
  yields (bind r k) Q.
Proof.
  intros Hr Hk b P' H. unfold bind in H.
  destruct r as [|a P1]; [discriminate H|].
  destruct (Hr a P1 eq_refl) as (e & -> & HQ). exact (Hk e P1 HQ b P' H).
Qed.

Lemma yields_bind_None {A B : Type} (r : result (option A))
      (k : option A -> Parser -> result (option B))
      (Q : B -> Parser -> Prop) :
  fails r -> (forall P1, r = Ret None P1 -> yields (k None P1) Q) ->
  yields (bind r k) Q.
Proof.
  intros Hr Hk b P' H. unfold bind in H.
  destruct r as [|a P1] eqn:E; [discriminate H|].
  pose proof (Hr a P1 eq_refl) as ->. exact (Hk P1 eq_refl b P' H).
Qed.

Ltac at_state :=
  let e := fresh "e" in
  let P1 := fresh "P" in
  let HT := fresh "HT" in
  let HH := fresh "HH" in
  let t1 := fresh "t" in
  let h1 := fresh "h" in
  let d1 := fresh "d" in
  intros e P1 [HT HH]; destruct P1 as [t1 h1 d1];
  simpl in HT, HH; subst t1 h1.

#[local] Arguments parseExpr : simpl never.
#[local] Arguments parseLogic : simpl never.

(** An assignment of the accepted grammar, followed by [;], is parsed by
    parseAssign, which stops on the [;]. *)
Lemma parseAssign_accepted (ts : list Token) (s : string) (r : list Token)
      (n : nat) (h : bool) (d : nat) :
  Grammar.Assignment Grammar.Accepted ts (Token.mk Token.semicolon s :: r) ->
  yields (parseAssign n (mkParser ts h d))
         (fun _ P' => at_tokens (Token.mk Token.semicolon s :: r) h P').
Proof.
  intros H. unfold parseAssign.
  destruct n as [|n]; [apply yields_fuel|].
  inversion H as [x s0 ts' r0 HL|x s0 ts' r0 HN HE|x K s0 ts' r0 HK HE];
    subst.
  - (* x = L *)
    tokens. eapply yields_bind_Some;
      [now apply parseLogic_accepted with (1 := HL)|].
    intros e P1 ->. apply yields_Ret. now split.
  - (* x = E *)
    tokens. apply yields_bind_None.
    + apply (trial_parse_fails _ ts' _ (le_n _) HE (HN eq_refl)
               eq_refl eq_refl).
    + intros P2 HP2.
      apply parseLogic_keeps_flag with (h := h) in HP2; [|reflexivity].
      destruct P2 as [t2 h2 d2]. simpl in HP2. subst h2. tokens.
      eapply yields_call;
        [now apply parseExpr_accepted with (1 := HE)|].
      intros e P3 ->. apply yields_Ret. now split.
  - (* x op= E *)
    split_ops HK; tokens;
      (eapply yields_call;
        [now apply parseExpr_accepted with (1 := HE)|]);
      intros e P3 ->; apply yields_Ret; now split.
Qed.

Lemma Assignment_first (g : Grammar.dialect) (ts r : list Token) :
  Grammar.Assignment g ts r ->
  exists x ts', ts = Token.mk Token.ident x :: ts'.
Proof. intros H. destruct H; eauto. Qed.

(** ** Blocks and if statements *)

Lemma parseBlock_accepted (ts r : list Token) :
  Grammar.Body Grammar.Accepted ts r ->
  forall n h d assignments,
    yields (parseBlock n assignments (mkParser ts h d))
           (fun _ P' => exists s,
                at_tokens (Token.mk Token.KW_end s :: r) h P').
Proof.
  induction 1 as [s r|ts s r1 r HA _ IH]; intros [|n] h d assignments;
    try apply yields_fuel.
  - apply yields_Ret. exists s. now split.
  - destruct (Assignment_first _ _ _ HA) as (x & ts' & ->).
    tokens. eapply yields_call; [exact (parseAssign_accepted _ _ _ _ _ _ HA)|].
    at_state. tokens. apply IH.
Qed.

Lemma parseElifs_accepted (ts r : list Token) :
  Grammar.Elifs Grammar.Accepted ts r ->
  Token.kind_eqb (Grammar.first_kind r) Token.KW_elif = false ->
  forall n h d elifStmts,
    yields (parseElifs n elifStmts (mkParser ts h d))
           (fun _ P' => at_tokens r h P').
Proof.
  induction 1 as [r|s1 ts s2 s3 r1 r2 r HL HB _ IH]; intros HS [|n] h d acc;
    try apply yields_fuel.
  - simpl. change (Tok_is (mkParser r h d) Token.KW_elif)
      with (Token.kind_eqb (Grammar.first_kind r) Token.KW_elif).
    rewrite HS. apply yields_Ret. now split.
  - tokens. eapply yields_call;
      [now apply parseLogic_accepted with (1 := HL)|].
    intros e P1 ->. tokens.
    eapply yields_call; [exact (parseBlock_accepted _ _ HB _ _ _ _)|].
    intros e4 P4 [s4 HP4]. revert e4 P4 HP4. at_state. tokens.
    now apply IH.
Qed.

(** An if statement of the accepted grammar is parsed by parseIf, and the
    statement loop then goes on behind it. *)
Lemma parseIf_accepted (ts r : list Token) :
  Grammar.IfStmt Grammar.Accepted ts r ->
  Token.kind_eqb (Grammar.first_kind r) Token.KW_elif = false ->
  Token.kind_eqb (Grammar.first_kind r) Token.KW_else = false ->
  forall n h d,
    yields (parseIf n (mkParser ts h d))
           (fun _ P' => Tok (parseProgram_advance P') = r).
Proof.
  intros H HS1 HS2 n h d. unfold parseIf.
  destruct H as [s1 ts s2 s3 r1 r2 r HL HB HE
                |s1 ts s2 s3 r1 r2 s4 s5 s6 r3 r HL HB HE HB2].
  - tokens. eapply yields_call;
      [now apply parseLogic_accepted with (1 := HL)|].
    intros e P1 ->. tokens.
    eapply yields_call; [exact (parseBlock_accepted _ _ HB _ _ _ _)|].
    intros e5 P5 [s5 HP5]. revert e5 P5 HP5. at_state. tokens.
    eapply yields_call; [exact (parseElifs_accepted _ _ HE HS1 _ _ _ _)|].
    at_state.
    change (Tok_is (mkParser r false d1) Token.KW_else)
      with (Token.kind_eqb (Grammar.first_kind r) Token.KW_else).
    rewrite HS2. now apply yields_Ret.
  - tokens. eapply yields_call;
      [now apply parseLogic_accepted with (1 := HL)|].
    intros e P1 ->. tokens.
    eapply yields_call; [exact (parseBlock_accepted _ _ HB _ _ _ _)|].
    intros e5 P5 [s7 HP5]. revert e5 P5 HP5. at_state. tokens.
    eapply yields_call;
      [exact (parseElifs_accepted _ _ HE eq_refl _ _ _ _)|].
    at_state. tokens.
    eapply yields_call; [exact (parseBlock_accepted _ _ HB2 _ _ _ _)|].
    intros e10 P10 [s8 HP10]. revert e10 P10 HP10. at_state.
    apply yields_Ret. unfold parseProgram_advance. tokens. reflexivity.
Qed.

(** ** Declarations *)

Lemma initExpr_accepted (ts r : list Token) (n : nat) (h : bool) (d : nat) :
  Grammar.Expr Grammar.Accepted ts r ->
  logic_stop (Grammar.first_kind r) = true ->
  yields (initExpr n (mkParser ts h d)) (fun _ P' => P' = mkParser r h d).
Proof.
  intros H HS. unfold initExpr.
  eapply yields_call.
  - apply parseExpr_accepted with (1 := H).
    unfold logic_stop in HS. now apply andb_prop in HS.
  - intros e P1 ->. now apply yields_Ret.
Qed.

Lemma initLogic_accepted (ts r : list Token) (n : nat) (h : bool) (d : nat) :
  Grammar.Logic Grammar.Accepted ts r ->
  logic_stop (Grammar.first_kind r) = true ->
  yields (initLogic n (mkParser ts h d)) (fun _ P' => P' = mkParser r h d).
Proof.
  intros H HS. unfold initLogic.
  eapply yields_call; [now apply parseLogic_accepted with (1 := H)|].
  intros e P1 ->. now apply yields_Ret.
Qed.

Lemma parseDec_vars_accepted (k : nat) (ts r : list Token) :
  Grammar.Names k ts r ->
  Token.kind_eqb (Grammar.first_kind r) Token.comma = false ->
  forall n h d Vars count,
    yields (parseDec_vars n Vars count (mkParser ts h d))
           (fun vc P' => P' = mkParser r h d /\
                         snd vc = (count + Z.of_nat k)%Z).
Proof.
  induction 1 as [r|k s x r1 r _ IH]; intros HS [|n] h d Vars count;
    try apply yields_fuel.
  - simpl. change (Tok_is (mkParser r h d) Token.comma)
      with (Token.kind_eqb (Grammar.first_kind r) Token.comma).
    rewrite HS. apply yields_Ret. split; [reflexivity|]. simpl. lia.
  - tokens. eapply yields_weaken; [now apply IH|].
    intros vc P [-> ->]. split; [reflexivity|]. lia.
Qed.

Lemma Inits_first (init : list Token -> list Token -> Prop) (j : nat)
      (r1 : list Token) (s : string) (r : list Token) :
  Grammar.Inits init j r1 (Token.mk Token.semicolon s :: r) ->
  logic_stop (Grammar.first_kind r1) = true.
Proof. intros H. inversion H; subst; reflexivity. Qed.

Lemma parseDec_values_accepted
      (init : list Token -> list Token -> Prop)
      (f : Parser -> result (option Init))
      (Hf : forall ts r h d, init ts r ->
              logic_stop (Grammar.first_kind r) = true ->
              yields (f (mkParser ts h d))
                     (fun _ P' => P' = mkParser r h d))
      (j : nat) (ts : list Token) (s : string) (r0 : list Token) :
  forall r, Grammar.Inits init j ts r ->
  r = Token.mk Token.semicolon s :: r0 ->
  forall n h d Values count,
    (Z.of_nat j <= count)%Z ->
    yields (parseDec_values n f Values count (mkParser ts h d))
           (fun _ P' => P' = mkParser r h d).
Proof.
  induction 1 as [r|j s1 ts r1 r HI HR IH];
    intros -> [|n] h d Values count Hc; try apply yields_fuel.
  - now apply yields_Ret.
  - tokens.
    assert ((count =? 0)%Z = false) as -> by (apply Z.eqb_neq; lia).
    eapply yields_call.
    + apply Hf with (1 := HI). exact (Inits_first _ _ _ _ _ HR).
    + intros e P1 ->. apply IH; [reflexivity | lia].
Qed.

(** A declaration of the accepted grammar is parsed by the routine of its
    keyword, which stops on the [;]. *)
Lemma Declaration_accepted (ts r : list Token) :
  Grammar.Declaration Grammar.Accepted ts r ->
  forall n h d,
    (Grammar.first_kind ts = Token.KW_int ->
     yields (parseIntDec n (mkParser ts h d))
            (fun _ P' => exists s,
                 at_tokens (Token.mk Token.semicolon s :: r) h P')) /\
    (Grammar.first_kind ts = Token.KW_bool ->
     yields (parseBoolDec n (mkParser ts h d))
            (fun _ P' => exists s,
                 at_tokens (Token.mk Token.semicolon s :: r) h P')).
Proof.
  intros H n h d.
  destruct H as [s0 x k ts s r HN|s0 x k ts s r HN
                |s0 x k ts s1 ts1 r1 j s r HN HE HI Hj
                |s0 x k ts s1 ts1 r1 j s r HN HL HI Hj];
    (split; intros HK; [|try discriminate HK]; try discriminate HK);
    unfold parseIntDec, parseBoolDec, parseDec; tokens.
  - eapply yields_call;
      [exact (parseDec_vars_accepted _ _ _ HN eq_refl _ _ _ _ _)|].
    intros vc P2 [-> _]. tokens. apply yields_Ret. exists s. now split.
  - eapply yields_call;
      [exact (parseDec_vars_accepted _ _ _ HN eq_refl _ _ _ _ _)|].
    intros vc P2 [-> _]. tokens. apply yields_Ret. exists s. now split.
  - eapply yields_call;
      [exact (parseDec_vars_accepted _ _ _ HN eq_refl _ _ _ _ _)|].
    intros vc P2 [-> Hvc]. tokens.
    eapply yields_call.
    + eapply yields_call.
      * apply initExpr_accepted with (1 := HE).
        inversion HI; subst; reflexivity.
      * intros E P4 ->.
        apply (parseDec_values_accepted (Grammar.Expr Grammar.Accepted)
                 (initExpr n) (fun ts r h d => initExpr_accepted ts r n h d)
                 j r1 s r _ HI eq_refl).
        rewrite Hvc. lia.
    + intros Values P3 ->. tokens. apply yields_Ret. exists s. now split.
  - eapply yields_call;
      [exact (parseDec_vars_accepted _ _ _ HN eq_refl _ _ _ _ _)|].
    intros vc P2 [-> Hvc]. tokens.
    eapply yields_call.
    + eapply yields_call.
      * apply initLogic_accepted with (1 := HL).
        inversion HI; subst; reflexivity.
      * intros E P4 ->.
        apply (parseDec_values_accepted (Grammar.Logic Grammar.Accepted)
                 (initLogic n)
                 (fun ts r h d => initLogic_accepted ts r n h d)
                 j r1 s r _ HI eq_refl).
        rewrite Hvc. lia.
    + intros Values P3 ->. tokens. apply yields_Ret. exists s. now split.
Qed.

(** ** Statements and programs *)

(** A statement that starts with an identifier not followed by [++] or
    [--]: the trial parse of a unary statement fails, the cursor is
    restored and an assignment is parsed. *)
Lemma parseProgram_ident_assignment (n : nat) (x : string) (K : TokenKind)
      (s : string) (ts : list Token) (d : nat) :
  final_stop K = true ->
  parseProgram_ident n
    (mkParser (Token.mk Token.ident x :: Token.mk K s :: ts) true d)
  = bind (parseAssign n
            (mkParser (Token.mk Token.ident x :: Token.mk K s :: ts) true d))
         assignment_statement.
Proof.
  intros HK. unfold parseProgram_ident.
  assert (parseUnary
            (mkParser (Token.mk Token.ident x :: Token.mk K s :: ts) true d)
          = Ret None (skip_to_eoi (mkParser (Token.mk K s :: ts) true d)))
    as ->.
  { unfold parseUnary. tokens. destruct K; try discriminate HK; reflexivity. }
  unfold bind at 1.
  pose proof (skip_to_eoi_at_eoi (mkParser (Token.mk K s :: ts) true d))
    as HE.
  assert (Tok_is (skip_to_eoi (mkParser (Token.mk K s :: ts) true d))
                 Token.semicolon = false) as ->.
  { unfold Tok_is. unfold at_eoi in HE. now rewrite HE. }
  reflexivity.
Qed.

Lemma Assignment_second (g : Grammar.dialect) (ts r : list Token) :
  Grammar.Assignment g ts r ->
  exists x K s ts',
    ts = Token.mk Token.ident x :: Token.mk K s :: ts' /\
    final_stop K = true.
Proof.
  intros H. destruct H as [x s ts r _|x s ts r _ _|x K s ts r HK _].
  - now exists x, Token.assign, s, ts.
  - now exists x, Token.assign, s, ts.
  - exists x, K, s, ts. split; [reflexivity|].
    simpl in HK. now destruct HK as [<-|[<-|[<-|[<-|[]]]]].
Qed.

Lemma parseProgram_ident_accepted (ts : list Token) (s : string)
      (r : list Token) (n d : nat) :
  Grammar.Assignment Grammar.Accepted ts (Token.mk Token.semicolon s :: r) ->
  yields (parseProgram_ident n (mkParser ts true d))
         (fun _ P' => at_tokens (Token.mk Token.semicolon s :: r) true P').
Proof.
  intros H. destruct (Assignment_second _ _ _ H) as (x & K & s0 & ts' & -> & HK).
  rewrite (parseProgram_ident_assignment n x K s0 ts' d HK).
  eapply yields_bind_Some; [exact (parseAssign_accepted _ _ _ _ _ _ H)|].
  at_state. unfold assignment_statement. tokens.
  apply yields_Ret. now split.
Qed.

Lemma Statement_first (g : Grammar.dialect) (ts r : list Token) :
  Grammar.Statement g ts r ->
  Grammar.first_kind ts = Token.KW_int \/
  Grammar.first_kind ts = Token.KW_bool \/
  Grammar.first_kind ts = Token.ident \/
  Grammar.first_kind ts = Token.KW_if.
Proof.
  intros H. destruct H as [ts r H|ts s r H| | |ts r H]; auto.
  - destruct H; auto.
  - destruct (Assignment_first _ _ _ H) as (x & ts' & ->). auto.
  - destruct H; auto.
Qed.

Lemma Program_first (g : Grammar.dialect) (k : nat) (ts : list Token) :
  Grammar.Program g k ts ->
  Token.kind_eqb (Grammar.first_kind ts) Token.KW_elif = false /\
  Token.kind_eqb (Grammar.first_kind ts) Token.KW_else = false.
Proof.
  intros H. destruct H as [|k ts r HS _]; [now split|].
  destruct (Statement_first _ _ _ HS) as [E|[E|[E|E]]]; rewrite E;
    now split.
Qed.

Lemma upcast_total {A B : Type} (f : A -> B) (F : nat -> result (option A))
      (Q : Parser -> Prop) :
  halts F -> mono F -> (forall n, yields (F n) (fun _ P' => Q P')) ->
  exists n0 stmt P1,
    Q P1 /\
    forall n, n0 <= n ->
      bind (F n) (fun d P => Ret (option_map f d) P) = Ret (Some stmt) P1.
Proof.
  intros HH HM HY.
  destruct (yields_total F _ HH HM HY) as (n0 & e & P' & HQ & H).
  exists n0, (f e), P'. split; [exact HQ|].
  intros n Hn. now rewrite (H n Hn).
Qed.

Section Accepted.

Variables ForStmt PrintStmt : Type.
Variable parseWhile : nat -> Parser -> result (option WhileStmt).
Variable parseFor : nat -> Parser -> result (option ForStmt).
Variable parsePrint : nat -> Parser -> result (option PrintStmt).

#[local] Abbreviation switch_ :=
  (parseProgram_switch parseWhile parseFor parsePrint).
#[local] Abbreviation loop_ :=
  (parseProgram_loop parseWhile parseFor parsePrint).

(** A statement of the accepted grammar is parsed by the routine the
    switch of parseProgram selects, and the loop then goes on behind the
    statement. *)
Lemma Statement_accepted (ts r : list Token) (d : nat) :
  Grammar.Statement Grammar.Accepted ts r ->
  Token.kind_eqb (Grammar.first_kind r) Token.KW_elif = false ->
  Token.kind_eqb (Grammar.first_kind r) Token.KW_else = false ->
  exists n0 stmt P1,
    Tok (parseProgram_advance P1) = r /\
    forall n, n0 <= n ->
      switch_ n (mkParser ts true d) = Ret (Some stmt) P1.
Proof.
  intros H HS1 HS2. unfold parseProgram_switch, upcast.
  destruct H as [ts r H|ts s r H|x s1 s2 r|x s1 s2 r|ts r H].
  - (* declarations *)
    assert (forall P', (exists s, at_tokens
                          (Token.mk Token.semicolon s :: r) true P') ->
                       Tok (parseProgram_advance P') = r) as HA.
    { intros [t1 h1 d1] [s [HT HH]]. simpl in HT, HH. subst.
      unfold parseProgram_advance. now tokens. }
    assert (Grammar.first_kind ts = Token.KW_int \/
            Grammar.first_kind ts = Token.KW_bool) as [E|E]
        by (destruct H; auto).
    + change (getKind (mkParser ts true d)) with (Grammar.first_kind ts).
      rewrite E.
      destruct (upcast_total (@AST_Declaration ForStmt PrintStmt)
                  (fun n => parseIntDec n (mkParser ts true d))
                  (fun P' => exists s, at_tokens
                       (Token.mk Token.semicolon s :: r) true P'))
        as (n0 & stmt & P1 & HQ & HR).
      * apply parseIntDec_halts.
      * intros n m Hle. now apply parseIntDec_fuel_le.
      * intros n. exact (proj1 (Declaration_accepted _ _ H n true d) E).
      * exists n0, stmt, P1. split; [now apply HA | exact HR].
    + change (getKind (mkParser ts true d)) with (Grammar.first_kind ts).
      rewrite E.
      destruct (upcast_total (@AST_Declaration ForStmt PrintStmt)
                  (fun n => parseBoolDec n (mkParser ts true d))
                  (fun P' => exists s, at_tokens
                       (Token.mk Token.semicolon s :: r) true P'))
        as (n0 & stmt & P1 & HQ & HR).
      * apply parseBoolDec_halts.
      * intros n m Hle. now apply parseBoolDec_fuel_le.
      * intros n. exact (proj2 (Declaration_accepted _ _ H n true d) E).
      * exists n0, stmt, P1. split; [now apply HA | exact HR].
  - (* assignment *)
    destruct (Assignment_first _ _ _ H) as (x & ts' & ->).
    simpl getKind. cbv iota.
    destruct (upcast_total (@AST_of_IdentStmt ForStmt PrintStmt)
                (fun n => parseProgram_ident n
                   (mkParser (Token.mk Token.ident x :: ts') true d))
                (fun P' => at_tokens
                     (Token.mk Token.semicolon s :: r) true P'))
      as (n0 & stmt & P1 & HQ & HR).
    + apply parseProgram_ident_halts.
    + intros n m Hle. now apply parseProgram_ident_fuel_le.
    + intros n. now apply parseProgram_ident_accepted.
    + exists n0, stmt, P1. split; [|exact HR].
      destruct P1 as [t1 h1 d1]. destruct HQ as [HT HH].
      simpl in HT, HH. subst. unfold parseProgram_advance. now tokens.
  - (* x ++ ; *)
    exists 0. eexists. eexists. split; [|intros n _; reflexivity].
    unfold parseProgram_advance. now tokens.
  - (* x -- ; *)
    exists 0. eexists. eexists. split; [|intros n _; reflexivity].
    unfold parseProgram_advance. now tokens.
  - (* if *)
    assert (Grammar.first_kind ts = Token.KW_if) as E by (destruct H; auto).
    change (getKind (mkParser ts true d)) with (Grammar.first_kind ts).
    rewrite E.
    destruct (upcast_total (@AST_IfStmt ForStmt PrintStmt)
                (fun n => parseIf n (mkParser ts true d))
                (fun P' => Tok (parseProgram_advance P') = r))
      as (n0 & stmt & P1 & HQ & HR).
    + apply parseIf_halts.
    + intros n m Hle. now apply parseIf_fuel_le.
    + intros n. now apply parseIf_accepted.
    + now exists n0, stmt, P1.
Qed.

(** The statement loop parses the [k] statements of a program of the
    accepted grammar and returns them in a Program. *)
Lemma Program_accepted (k : nat) (ts : list Token) :
  Grammar.Program Grammar.Accepted k ts ->
  forall acc h d,
  exists n0 stmts P',
    List.length stmts = k /\ at_eoi P' /\
    forall n, n0 <= n ->
      loop_ n acc (mkParser ts h d)
      = Ret (Some (new_Program (acc ++ stmts))) P'.
Proof.
  induction 1 as [|k ts r HS HP IH]; intros acc h d.
  - exists 1, [], (mkParser [] h d). repeat split.
    intros [|n] Hn; [lia|]. simpl. now rewrite app_nil_r.
  - destruct (Program_first _ _ _ HP) as [HS1 HS2].
    destruct (Statement_accepted ts r d HS HS1 HS2)
      as (n1 & stmt & P1 & HT & H1).
    destruct (parseProgram_advance P1) as [t2 h2 d2] eqn:EA.
    simpl in HT. subst t2.
    destruct (IH (acc ++ [stmt]) h2 d2) as (n2 & stmts & P' & HL & HE & H2).
    exists (S (Nat.max n1 n2)), (stmt :: stmts), P'.
    repeat split; [simpl; lia | exact HE|].
    intros [|n] Hn; [lia|].
    assert (Tok_is (mkParser ts h d) Token.eoi = false) as HK.
    { change (Tok_is (mkParser ts h d) Token.eoi)
        with (Token.kind_eqb (Grammar.first_kind ts) Token.eoi).
      destruct (Statement_first _ _ _ HS) as [E|[E|[E|E]]]; now rewrite E. }
    cbn [parseProgram_loop]. rewrite HK. cbn [negb].
    change (setHaveElse (mkParser ts h d) true) with (mkParser ts true d).
    rewrite (H1 n ltac:(lia)). unfold call, bind. rewrite EA.
    rewrite (H2 n ltac:(lia)). now rewrite <- app_assoc.
Qed.


End Accepted.

(** ** The grammar at concrete inputs *)

(** Find a derivation of a concrete token sequence. *)
Ltac derive :=
  solve [ reflexivity
        | intros _; reflexivity
        | intros ?; discriminate
        | simpl; tauto
        | lia
        | econstructor; derive ].

(** Take a derivation of a concrete token sequence apart. *)
Ltac inv_grammar :=
  repeat match goal with
  | H : Grammar.Program _ _ (_ :: _) |- _ => inversion H; clear H; subst
  | H : Grammar.Statement _ (_ :: _) _ |- _ => inversion H; clear H; subst
  | H : Grammar.Declaration _ (_ :: _) _ |- _ =>
      inversion H; clear H; subst
  | H : Grammar.IfStmt _ (_ :: _) _ |- _ => inversion H; clear H; subst
  | H : Grammar.Body _ (_ :: _) _ |- _ => inversion H; clear H; subst
  | H : Grammar.Assignment _ (_ :: _) _ |- _ =>
      inversion H; clear H; subst
  | H : Grammar.Logic _ (_ :: _) _ |- _ => inversion H; clear H; subst
  | H : Grammar.LogicTail _ (_ :: _) _ |- _ => inversion H; clear H; subst
  | H : Grammar.Comparison _ (_ :: _) _ |- _ =>
      inversion H; clear H; subst
  | H : Grammar.Expr _ (_ :: _) _ |- _ => inversion H; clear H; subst
  | H : Grammar.Term _ (_ :: _) _ |- _ => inversion H; clear H; subst
  | H : Grammar.Factor _ (_ :: _) _ |- _ => inversion H; clear H; subst
  | H : Grammar.Final _ (_ :: _) _ |- _ => inversion H; clear H; subst
  | H : In _ _ |- _ => simpl in H; intuition discriminate
  end.

Lemma five_statements_accepted :
  Grammar.Program Grammar.Accepted 5 five_statements.
Proof.
  unfold five_statements, t_int, t_id, t_comma, t_assign, t_num, t_semi,
    t_plus, t_colon, t_begin, t_end, t_lparen, t_rparen, tk.
  derive.
Qed.



(** The program [x = y + z ;] is a program of the grammar as written as
    well (see C3 for what the parser does with it). *)
Lemma x_eq_y_plus_z_well_formed :
  Grammar.Program Grammar.Written 1 x_eq_y_plus_z.
Proof.
  unfold x_eq_y_plus_z, t_id, t_assign, t_semi, t_plus, tk. derive.
Qed.

(** [if true : begin 1 = 2 ; end] is no program of the grammar, in either
    reading: the target of an assignment is an identifier. *)
Lemma if_1_eq_2_malformed (g : Grammar.dialect) (k : nat) :
  ~ Grammar.Program g k if_1_eq_2.
Proof.
  intros H.
  unfold if_1_eq_2, t_colon, t_begin, t_num, t_assign, t_semi, t_end, tk
    in H.
  inv_grammar.
Qed.

